(** * sarcoma-histo-fed: tiling, filtering, stain normalisation, dataset split,
      augmentation and slide-level aggregation

    A shallow embedding of [custom/preprocess.py] and [custom/slide_aucroc.py].
    Python integers are [Z]; the validation fraction, whose rounded product
    is truncated, is a binary64 float; the other floats are idealised as
    exact numbers ([Q] where the code only adds, divides and compares, [R]
    where it takes logarithms and square roots); dictionaries looked up by
    key are [gmap]s, dictionaries and lists walked in order with side
    effects are lists; numpy arrays that are mutated through aliases live in
    an explicit store, image files on an explicit disk. *)

From Stdlib Require Import Floats ZArith QArith Qround Qminmax Reals Lra Lia List Permutation Ascii.
From stdpp Require Import gmap strings list fin_maps pretty.

Close Scope Q_scope.
Close Scope R_scope.
Open Scope Z_scope.

(** ** Python arithmetic helpers *)

Module Py.

(** [round(p / q)] for integers [p] and [q > 0]: the quotient is rounded to
    the nearest integer, ties going to the even neighbour.  The float
    quotient of the source agrees with the exact one as long as
    [q < 2^50], far beyond any tile count. *)
Definition round_half_even (p q : Z) : Z :=
  let f := p / q in
  let r := p mod q in
  if 2 * r <? q then f
  else if q <? 2 * r then f + 1
  else if Z.even f then f else f + 1.

(** [round(p / q)] with Python's [ZeroDivisionError] as [None]. *)
Definition round_div (p q : Z) : option Z :=
  if q =? 0 then None
  else Some (round_half_even (p * Z.sgn q) (Z.abs q)).

(** [x < y] on floats *)
Definition Qlt_bool (x y : Q) : bool := negb (Qle_bool y x).

(** [l[:n]] *)
Definition slice_to {A} (n : Z) (l : list A) : list A :=
  if n <? 0 then take (Z.to_nat (Z.of_nat (length l) + n)) l
  else take (Z.to_nat n) l.

(** [l[n:]] *)
Definition slice_from {A} (n : Z) (l : list A) : list A :=
  if n <? 0 then drop (Z.to_nat (Z.of_nat (length l) + n)) l
  else drop (Z.to_nat n) l.

End Py.

(** ** Augmentation factors ([calc_augmentation_factor]) *)

Section AugmentationFactor.
Context `{Countable K}.

(** One iteration of the loop body: the value stored under a key. *)
Definition augmentation_entry (smallest_num_tiles value : Z) : option (Z * Z) :=
  if value =? smallest_num_tiles then Some (value, 8)
  else
    augmentation_factor ← Py.round_div (smallest_num_tiles * 8) value;
    Some (value, augmentation_factor).

Definition calc_augmentation_factor
    (class_by_tile_count_dict : gmap K Z) (smallest_num_tiles : Z)
    : option (gmap K (Z * Z)) :=
  map_fold
    (λ key value acc,
       new_class_by_tile_count_dict ← acc;
       entry ← augmentation_entry smallest_num_tiles value;
       Some (<[key := entry]> new_class_by_tile_count_dict))
    (Some ∅) class_by_tile_count_dict.

(** [smallest_num_tiles] as [slides_to_tiles] computes it, starting from
    [sys.maxsize]. *)
Definition maxsize : Z := 2 ^ 63 - 1.

Definition smallest_num_tiles_of (class_by_tile_count_dict : gmap K Z) : Z :=
  map_fold (λ _ num_tiles smallest, if num_tiles <? smallest then num_tiles else smallest)
    maxsize class_by_tile_count_dict.

End AugmentationFactor.

Definition example_counts : gmap string Z :=
  <["A" := 483]> (<["B" := 1120]> (<["C" := 197]> ∅)).

(** ** Train/validation split ([get_train_valid_split]) *)

(** Python dictionaries that the code fills with [setdefault(k, []).append(v)]
    and then walks in insertion order. *)
Fixpoint setdefault_append {V} (k : string) (v : V) (d : list (string * list V))
    : list (string * list V) :=
  match d with
  | [] => [(k, [v])]
  | (k', vs) :: rest =>
      if decide (k = k') then (k', vs ++ [v]) :: rest
      else (k', vs) :: setdefault_append k v rest
  end.

(** [get_sample_label]: the first label whose sample list holds the sample;
    [None] stands for the [RuntimeError]. *)
Fixpoint get_sample_label (sample : string) (sample_labels : list (string * list string))
    : option string :=
  match sample_labels with
  | [] => None
  | (label, samples) :: rest =>
      if bool_decide (sample ∈ samples) then Some label
      else get_sample_label sample rest
  end.

(** The validation fraction is a Python float, a binary64 number, and the
    product [len(...) * validation_split] is the rounded float product.
    [float(n)] of a list length (below [2^63]): *)
Definition float_of_nat (n : nat) : float :=
  PrimFloat.of_uint63 (Uint63.of_Z (Z.of_nat n)).

(** [int(x)] on a float: truncation towards zero; [None] stands for the
    [OverflowError] on an infinity and the [ValueError] on a nan. *)
Definition int_of_float (x : float) : option Z :=
  match Prim2SF x with
  | S754_zero _ => Some 0
  | S754_finite s m e =>
      let a := if 0 <=? e then Z.pos m * 2 ^ e else Z.pos m / 2 ^ (- e) in
      Some (if s then - a else a)
  | S754_infinity _ => None
  | S754_nan => None
  end.

(** [int(len(file_labels[label]) * validation_split)] *)
Definition num_val_of (validation_split : float) (len : nat) : option Z :=
  int_of_float (PrimFloat.mul (float_of_nat len) validation_split).

(** The double nearest to 0.2, which the literal [0.2] denotes. *)
Definition one_fifth : float := 0x1.999999999999ap-3%float.

Section TrainValidSplit.
(** [os.path.splitext(os.path.basename(file))[0]] *)
Variable basenameJPG : string → string.
(** the order [random.shuffle] leaves a list in *)
Variable shuffle : list string → list string.

Definition group_by_label (files : list string) (sample_labels : list (string * list string))
    : option (list (string * list string)) :=
  foldl
    (λ acc file,
       file_labels ← acc;
       sample_class ← get_sample_label (basenameJPG file) sample_labels;
       Some (setdefault_append sample_class file file_labels))
    (Some []) files.

(** The body of the loop over labels: the slides added to [train_files] and
    to [validation_files]. *)
Definition split_label (validation_split : float) (label_files : list string)
    : option (list string * list string) :=
  num_val ← num_val_of validation_split (length label_files);
  let num_train := Z.of_nat (length label_files) - num_val in
  let shuffled := shuffle label_files in
  Some (Py.slice_to num_train shuffled, Py.slice_from (- num_val) shuffled).

Definition get_train_valid_split
    (files : list string) (sample_labels : list (string * list string))
    (validation_split : float) : option (list string * list string) :=
  file_labels ← group_by_label files sample_labels;
  foldl
    (λ acc '(_, label_files),
       '(train_files, validation_files) ← acc;
       '(t, v) ← split_label validation_split label_files;
       Some (train_files ++ t, validation_files ++ v))
    (Some ([], [])) file_labels.

End TrainValidSplit.

(** ** Stain dictionary and normalisation ([TileWorker._stain_dict_Vahadane],
       [TileWorker._write_normalized_image]) *)

(** numpy [uint8] arrays are flattened lists of integers held in a store, so
    that two names for one array ([imgOD = img]) see each other's writes. *)
Abbreviation loc := nat (only parsing).
Abbreviation heap := (gmap nat (list Z)).

Definition alloc (h : heap) (a : list Z) : loc * heap :=
  let l := fresh (dom h) in (l, <[l := a]> h).

(** One row of a stain matrix: three floats, or three [nan]s. *)
Inductive frow :=
  | Row (r g b : R)
  | NanRow.

Definition rvec : Type := R * R * R.

Definition norm (v : rvec) : R :=
  let '(x, y, z) := v in sqrt (x * x + y * y + z * z).

(** [v / np.linalg.norm(v)]: a zero vector divided by its zero norm is
    [0/0 = nan] in every entry. *)
Definition divide_by_norm (v : rvec) : frow :=
  let '(x, y, z) := v in
  if Req_dec_T (norm v) 0 then NanRow
  else Row (x / norm v) (y / norm v) (z / norm v).

Definition to_frow (v : rvec) : frow := let '(x, y, z) := v in Row x y z.

Definition is_zero_row (v : rvec) : bool :=
  let '(x, y, z) := v in
  if Req_dec_T x 0 then if Req_dec_T y 0 then if Req_dec_T z 0 then true
  else false else false else false.

(** Lines 102-108: swap the rows when row 0 has the smaller first channel,
    then divide the rows by their norms unless row 1 is [[0, 0, 0]]. *)
Definition swap_rows (W : rvec * rvec) : rvec * rvec :=
  let '(w0, w1) := W in
  if Rlt_dec (w0.1.1) (w1.1.1) then (w1, w0) else (w0, w1).

Definition normalize_rows (W : rvec * rvec) : frow * frow :=
  let '(w0, w1) := W in
  if is_zero_row w1 then
    (to_frow w0, to_frow w1)
  else (divide_by_norm w0, divide_by_norm w1).

(** [img[img == 0] = 1] *)
Definition zeros_to_one (a : list Z) : list Z :=
  map (λ x, if x =? 0 then 1 else x) a.

(** [(-1) * np.log(img / 255)] followed by [reshape((-1, 3))] *)
Definition optical_density (x : Z) : R := (- ln (IZR x / 255))%R.

Fixpoint reshape3 {A} (a : list A) : list (A * A * A) :=
  match a with
  | x :: y :: z :: rest => (x, y, z) :: reshape3 rest
  | _ => []
  end.

Definition to_OD (a : list Z) : list rvec := reshape3 (map optical_density a).

(** [imgOD[mask]] *)
Fixpoint select_masked {A} (a : list A) (mask : list bool) : list A :=
  match a, mask with
  | x :: a', m :: mask' =>
      if m then x :: select_masked a' mask' else select_masked a' mask'
  | _, _ => []
  end.

Definition any_true (mask : list bool) : bool := existsb (λ m, m) mask.

Section Stain.
(** the L channel of [cv.cvtColor(img, cv.COLOR_RGB2LAB)], one value per
    pixel *)
Variable lab_lightness : list Z → list Z.
(** [spams.trainDL(X.T, K=2, lambda1=..., posAlpha, posD).T]: the learned
    2x3 matrix *)
Variable trainDL : list rvec → Q → rvec * rvec.
(** [spams.lasso(X.T, D=W.T, lambda1=0.01, pos=True).toarray().T] *)
Variable lasso : list rvec → frow * frow → list (R * R).
(** [np.percentile(tile, 90)] *)
Variable percentile_90 : list Z → Q.

Definition dark_mask (img : list Z) (thresh : Q) : list bool :=
  map (λ L, Py.Qlt_bool (inject_Z L / 255) thresh) (lab_lightness img).

Definition luminance_mask (img : list Z) (thresh : Q) : list bool :=
  let mask := dark_mask img thresh in
  if any_true mask then mask
  else
    let mask := dark_mask img (thresh + (1 # 10)) in
    if any_true mask then mask else dark_mask img 1000.

(** The dictionary learned inside [_stain_dict_Vahadane], before the swap. *)
Definition learned (pixels : list Z) (thresh vlambda : Q) : rvec * rvec :=
  trainDL
    (select_masked (to_OD (zeros_to_one pixels))
       (luminance_mask pixels thresh))
    vlambda.

(** [_stain_dict_Vahadane(img)]: [img] is a reference into the store; the
    result is the dictionary and the store as the call leaves it. *)
Definition _stain_dict_Vahadane (img : loc) (thresh vlambda : Q) (h : heap)
    : option ((frow * frow) * heap) :=
  pixels ← h !! img;
  let mask := luminance_mask pixels thresh in
  (* imgOD = img; imgOD[(img == 0)] = 1 *)
  let imgOD := img in
  let h := <[imgOD := zeros_to_one pixels]> h in
  pixels ← h !! imgOD;
  (* imgOD = (-1) * np.log(imgOD / 255), a new array *)
  let imgOD := select_masked (to_OD pixels) mask in
  let WisHisHisv := trainDL imgOD vlambda in
  Some (normalize_rows (swap_rows WisHisHisv), h).

(** [np.clip(tile * 255.0 / p, 0, 255).astype(np.uint8)] *)
Definition rescale (tile : list Z) (p : Q) : list Z :=
  map (λ x, Qfloor (Qmax 0 (Qmin 255 (inject_Z x * 255 / p)))) tile.

(** [_write_normalized_image] up to the concentration fit: the tile is
    rescaled into a fresh array [img2t], whose dictionary is fitted; the
    result holds the location of [img2t], the optical densities handed to
    [spams.lasso], the fitted concentrations and the final store. *)
Definition _write_normalized_image (tile : list Z) (h : heap)
    : option (loc * list rvec * list (R * R) * heap) :=
  let p := percentile_90 tile in
  let p := if Qeq_bool p 0 then 1%Q else p in
  let '(img2t, h) := alloc h (rescale tile p) in
  '(WisHisHisv2, h) ← _stain_dict_Vahadane img2t (8 # 10) (1 # 10) h;
  (* imgOD2 = img2t; imgOD2[(img2t == 0)] = 1 *)
  let imgOD2 := img2t in
  pixels ← h !! img2t;
  let h := <[imgOD2 := zeros_to_one pixels]> h in
  pixels ← h !! imgOD2;
  let imgOD2 := to_OD pixels in
  let start_values := lasso imgOD2 WisHisHisv2 in
  Some (img2t, imgOD2, start_values, h).

End Stain.

(** What the specification says of the rows after the swap: each row divided
    by its Euclidean norm, a zero row left as zero.  Compared with
    [normalize_rows], which follows the code. *)
Definition normalize_rows_spec (W : rvec * rvec) : frow * frow :=
  let per_row (v : rvec) :=
    if is_zero_row v then Row 0 0 0 else divide_by_norm v in
  (per_row W.1, per_row W.2).

Definition first_channel (r : frow) : option R :=
  match r with Row x _ _ => Some x | NanRow => None end.

(** [r0[0] >= r1[0]] on floats: false as soon as one side is [nan]. *)
Definition first_channel_ge (W : frow * frow) : Prop :=
  match first_channel W.1, first_channel W.2 with
  | Some x, Some y => (y <= x)%R
  | _, _ => False
  end.

Definition is_unit_row (r : frow) : Prop :=
  match r with Row x y z => norm (x, y, z) = 1%R | NanRow => False end.

(** Sample inputs. *)
Definition unequal_atoms : rvec * rvec :=
  ((3 / 10, 4 / 10, 0)%R, (2 / 10, 0, 0)%R).
Definition single_atom : rvec * rvec :=
  ((3 / 10, 4 / 10, 0)%R, (0, 0, 0)%R).
Definition zero_first_atom : rvec * rvec :=
  ((0, 0, 0)%R, (0, 3 / 5, 4 / 5)%R).
Definition mean_lightness (img : list Z) : list Z :=
  map (λ '(r, g, b), (r + g + b) / 3) (reshape3 img).
Definition sample_heap : heap := {[ 0%nat := [0; 120; 200; 30; 0; 90] ]}.

Definition skewed_counts : gmap string Z := <["A" := 1]> (<["B" := 100]> ∅).

Definition three_slides : list string := ["a.svs"; "b.svs"; "c.svs"].

Definition ten_slides : list string :=
  ["s0"; "s1"; "s2"; "s3"; "s4"; "s5"; "s6"; "s7"; "s8"; "s9"].

(** ** Tile filter and worker loop ([TileWorker.run]) *)

Module TileWorker.

(** The tuple put on the job queue. *)
Record TileJob := {
  associated : option string;
  level : nat;
  address : nat * nat;
  outfile : string;
  format : string;
  outfile_bw : string;
  PercentMasked : Q;
  SaveMasks : bool;
  TileMask : list (list Z)
}.

(** How a call of [_write_normalized_image] ends. *)
Inductive write_outcome :=
  | Written
  | RaisedWarning
  | RaisedError.

Inductive log_entry :=
  | Skipping (outfile : string)
  | FailedAtGetTile (slidepath : string) (level : nat) (address : nat * nat).

(** What a worker changes: files on disk, the result queue, its log and
    the number of [task_done] calls on the job queue. *)
Record state := {
  files : gset string;
  out_queue : list string;
  warnings : list log_entry;
  tasks_done : nat
}.

(** [gray.point(lambda x: 0 if x < 220 else 1, "F")] *)
Definition point (x : Z) : Z := if x <? 220 then 0 else 1.

(** [np.average(bw)]; the code reads it only once the tile is known to have
    more than 10 distinct values, so never on an empty tile. *)
Definition avgBkg (gray : list Z) : Q :=
  (inject_Z (foldr Z.add 0%Z (map point gray))
   / inject_Z (Z.of_nat (length gray)))%Q.

(** [count_unique.size] of [np.unique(data, return_counts=True)] *)
Definition count_unique (gray : list Z) : nat := length (remove_dups gray).

(** The fraction of the specification: pixels below 220. *)
Definition foreground_fraction (gray : list Z) : Q :=
  (inject_Z (Z.of_nat (length (filter (λ x, (x < 220)%Z) gray)))
   / inject_Z (Z.of_nat (length gray)))%Q.

(** Pixels at or above 220. *)
Definition background_fraction (gray : list Z) : Q :=
  (inject_Z (Z.of_nat (length (filter (λ x, (220 ≤ x)%Z) gray)))
   / inject_Z (Z.of_nat (length gray)))%Q.

(** The three conditions of [run], on the fraction of pixels at or above
    220. *)
Definition passes (Bkg ROIpc : Q) (data : TileJob) (gray : list Z) : Prop :=
  (10 < count_unique gray)%nat ∧
  (background_fraction gray <= Bkg / 100)%Q ∧
  (ROIpc / 100 <= PercentMasked data)%Q.

Section Run.
Variable Tile : Type.
(** [self._get_dz(associated).get_tile(level, address)], [None] when it
    raises *)
Variable get_tile : option string → nat → nat * nat → option Tile.
(** [np.asarray(tile.convert("L"))], flattened *)
Variable convert_L : Tile → list Z.
Variable _write_normalized_image : Tile → string → write_outcome.
(** the mask branch: [true] when [imwrite(outfile_bw, ...)] is reached and
    returns, [false] when the branch raises *)
Variable write_mask : TileJob → bool.
Variables (slidepath : string) (Bkg ROIpc : Q).

Definition task_done (st : state) : state :=
  {| files := files st; out_queue := out_queue st;
     warnings := warnings st; tasks_done := S (tasks_done st) |}.

Definition warn (e : log_entry) (st : state) : state :=
  {| files := files st; out_queue := out_queue st;
     warnings := warnings st ++ [e]; tasks_done := tasks_done st |}.

Definition save (path : string) (st : state) : state :=
  {| files := {[path]} ∪ files st; out_queue := out_queue st;
     warnings := warnings st; tasks_done := tasks_done st |}.

Definition put (path : string) (st : state) : state :=
  {| files := files st; out_queue := out_queue st ++ [path];
     warnings := warnings st; tasks_done := tasks_done st |}.

(** The body of the [try] for a tile that was fetched. *)
Definition filter_and_write (data : TileJob) (tile : Tile) (st : state) : state :=
  let gray := convert_L tile in
  if (10 <? count_unique gray)%nat && Qle_bool (avgBkg gray) (Bkg / 100) then
    if Qle_bool (ROIpc / 100) (PercentMasked data) then
      match _write_normalized_image tile (outfile data) with
      | Written =>
          let st := put (outfile data) (save (outfile data) st) in
          if SaveMasks data then
            if write_mask data then save (outfile_bw data) st
            else warn (FailedAtGetTile slidepath (level data) (address data)) st
          else st
      | RaisedWarning => warn (Skipping (outfile data)) st
      | RaisedError =>
          warn (FailedAtGetTile slidepath (level data) (address data)) st
      end
    else st
  else st.

(** One iteration of the loop for a real job; [task_done] is the
    [finally] clause. *)
Definition run_job (data : TileJob) (st : state) : state :=
  task_done
    match get_tile (associated data) (level data) (address data) with
    | Some tile => filter_and_write data tile st
    | None => warn (FailedAtGetTile slidepath (level data) (address data)) st
    end.

(** The loop over the job queue up to the [None] sentinel. *)
Fixpoint run (queue : list (option TileJob)) (st : state) : state :=
  match queue with
  | [] => st
  | None :: _ => task_done st
  | Some data :: rest => run rest (run_job data st)
  end.

End Run.

(** Sample inputs: a tile of eleven distinct dark pixels, and a job. *)
Definition dark_tile : list Z := [0; 1; 2; 3; 4; 5; 6; 7; 8; 9; 10].

Definition sample_job : TileJob :=
  {| associated := None; level := 0%nat; address := (0, 0)%nat;
     outfile := "out/L/s/s_0_0.jpeg"; format := "jpeg";
     outfile_bw := "out/L/s/s_0_0_mask.jpeg"; PercentMasked := 1;
     SaveMasks := false; TileMask := [] |}.

Definition idle : state :=
  {| files := ∅; out_queue := []; warnings := []; tasks_done := 0%nat |}.

End TileWorker.

(** ** Tile enumeration ([DeepZoomImageTiler._write_tiles]) *)

Module DeepZoomImageTiler.
Import TileWorker.

(** What the tiler reads of the slide and of its Deep Zoom generator. *)
Record Slide := {
  (** [slide.level_downsamples] *)
  level_downsamples : list Q;
  (** [float(slide.properties[PROPERTY_NAME_OBJECTIVE_POWER])], [None] when
      the lookup or the conversion raises *)
  objective_power : option Q
}.

Record DeepZoomGenerator := {
  (** [dz.level_tiles]: (cols, rows) per Deep Zoom level *)
  level_tiles : list (nat * nat)
}.

Definition level_count (dz : DeepZoomGenerator) : nat := length (level_tiles dz).

(** The tiler's own fields, and what it mutates: the job queue, the result
    queue and [_processed]. *)
Record Tiler := {
  _dz : DeepZoomGenerator;
  _basename : string;
  _format : string;
  _associated : option string;
  _slide : Slide;
  _ImgExtension : string;
  _SaveMasks : bool;
  _Mag : Q
}.

Record state := {
  _queue : list TileJob;
  out_queue : list string;
  _processed : nat
}.

(** [needle in hay] on strings *)
Fixpoint contains (needle hay : string) : bool :=
  String.prefix needle hay ||
  match hay with
  | EmptyString => false
  | String _ rest => contains needle rest
  end.

(** ["%s_%d_%d.%s" % (basename, col, row, format)] and its mask variant *)
Definition tilename (basename : string) (col row : nat) (format : string) : string :=
  basename +:+ "_" +:+ pretty col +:+ "_" +:+ pretty row +:+ "." +:+ format.

Definition tilename_bw (basename : string) (col row : nat) (format : string) : string :=
  basename +:+ "_" +:+ pretty col +:+ "_" +:+ pretty row +:+ "_mask." +:+ format.

(** [lacks c s]: the character [c] does not occur in [s]. *)
Fixpoint lacks (c : ascii) (s : string) : Prop :=
  match s with
  | EmptyString => True
  | String a s' => a ≠ c ∧ lacks c s'
  end.

(** No decimal digit of ["%d"] is the character [c]. *)
Definition not_a_digit (c : ascii) : Prop := ∀ d, pretty_N_char d ≠ c.

(** The [try]/[except] that settles [Objective]; [None] is the bare
    [return]. *)
Definition Objective (t : Tiler) : option Q :=
  match objective_power (_slide t) with
  | Some o => Some o
  | None =>
      if contains "jpg" (_ImgExtension t) || contains "dcm" (_ImgExtension t)
      then Some 1%Q
      else if contains "tiff" (_ImgExtension t) || contains "btf" (_ImgExtension t)
      then Some 20%Q
      else None
  end.

(** [Available = tuple(Objective / x for x in Factors)] *)
Definition Available (objective : Q) (Factors : list Q) : list Q :=
  map (λ x, (objective / x)%Q) Factors.

(** [Available[0] / pow(2, level_count - (level + 1))] *)
Definition ThisMag (available0 : Q) (count level : nat) : Q :=
  (available0 / inject_Z (2 ^ Z.of_nat (count - (level + 1))))%Q.

(** The downsample factor of a Deep Zoom level with respect to the slide:
    the factor of the slide's first level, doubled for every level below
    the top one. *)
Definition level_downsample (t : Tiler) (level : nat) : Q :=
  (hd 0 (level_downsamples (_slide t))
   * inject_Z (2 ^ Z.of_nat (level_count (_dz t) - (level + 1))))%Q.

(** [if self._Mag > 0: if ThisMag != self._Mag: continue] *)
Definition level_selected (t : Tiler) (available0 : Q) (level : nat) : bool :=
  if Py.Qlt_bool 0 (_Mag t)
  then Qeq_bool (ThisMag available0 (level_count (_dz t)) level) (_Mag t)
  else true.

Definition job_of (t : Tiler) (level col row : nat) : TileJob :=
  {| associated := _associated t;
     level := level;
     address := (col, row);
     outfile := tilename (_basename t) col row (_format t);
     format := _format t;
     outfile_bw := tilename_bw (_basename t) col row (_format t);
     PercentMasked := 1;
     SaveMasks := _SaveMasks t;
     TileMask := [] |}.

Section WriteTiles.
(** [os.path.exists(path)] as the tiler sees it when it has handled
    [_processed] addresses: workers write files while it runs. *)
Variable path_exists : nat → string → bool.

(** The body of the innermost loop, with [_tile_done]. *)
Definition visit (t : Tiler) (level row col : nat) (st : state) : state :=
  let name := tilename (_basename t) col row (_format t) in
  if negb (path_exists (_processed st) name) then
    {| _queue := _queue st ++ [job_of t level col row];
       out_queue := out_queue st;
       _processed := S (_processed st) |}
  else
    {| _queue := _queue st;
       out_queue := out_queue st ++ [name];
       _processed := S (_processed st) |}.

Definition visit_address (t : Tiler) (st : state) (a : nat * nat * nat) : state :=
  let '(level, row, col) := a in visit t level row col st.

Definition visit_level (t : Tiler) (level : nat) (st : state) : state :=
  let '(cols, rows) := default (0, 0)%nat (level_tiles (_dz t) !! level) in
  foldl (λ st row, foldl (λ st col, visit t level row col st) st (seq 0 cols))
    st (seq 0 rows).

(** [_write_tiles]; the outer [None] is a [ZeroDivisionError] in
    [Objective / x]. *)
Definition _write_tiles (t : Tiler) (st : state) : option state :=
  let Factors := level_downsamples (_slide t) in
  match Objective t with
  | None => Some st
  | Some objective =>
      if existsb (λ x, Qeq_bool x 0) Factors then None
      else
        match Available objective Factors with
        | [] => Some st
        | available0 :: _ =>
            Some (foldl
                    (λ st level,
                       if level_selected t available0 level
                       then visit_level t level st else st)
                    st (reverse (seq 0 (level_count (_dz t)))))
        end
  end.

End WriteTiles.

(** The addresses [_write_tiles] visits, in order. *)
Definition level_addresses (t : Tiler) (level : nat) : list (nat * nat * nat) :=
  let '(cols, rows) := default (0, 0)%nat (level_tiles (_dz t) !! level) in
  row ← seq 0 rows; col ← seq 0 cols; [(level, row, col)].

Definition selected_levels (t : Tiler) (available0 : Q) : list nat :=
  filter (λ level, level_selected t available0 level = true)
    (reverse (seq 0 (level_count (_dz t)))).

Definition addresses (t : Tiler) (available0 : Q) : list (nat * nat * nat) :=
  level ← selected_levels t available0; level_addresses t level.

Definition job_at (t : Tiler) (a : nat * nat * nat) : TileJob :=
  let '(level, row, col) := a in job_of t level col row.

Definition name_at (t : Tiler) (a : nat * nat * nat) : string :=
  let '(_, row, col) := a in tilename (_basename t) col row (_format t).

(** Sample input: a two-level pyramid of one tile per level, tiled without
    a target magnification. *)
Definition two_levels : Tiler :=
  {| _dz := {| level_tiles := [(1, 1); (1, 1)]%nat |};
     _basename := "out/L/s/s"; _format := "jpeg"; _associated := None;
     _slide := {| level_downsamples := [1%Q]; objective_power := Some 20%Q |};
     _ImgExtension := "svs"; _SaveMasks := false; _Mag := 0 |}.

Definition empty_queues : state :=
  {| _queue := []; out_queue := []; _processed := 0 |}.

(** Sample input: a slide with the two levels of downsample 1 and 4, whose
    Deep Zoom pyramid has three levels of one tile each, tiled at a target
    magnification of 10 with an objective power of 20. *)
Definition coarse_levels : Tiler :=
  {| _dz := {| level_tiles := [(1, 1); (1, 1); (1, 1)]%nat |};
     _basename := "out/L/s/s"; _format := "jpeg"; _associated := None;
     _slide := {| level_downsamples := [1%Q; 4%Q]; objective_power := Some 20%Q |};
     _ImgExtension := "svs"; _SaveMasks := false; _Mag := 10 |}.

End DeepZoomImageTiler.

(** ** Augmentation ([augment_tiles_based_on_factor]) *)

Module Augmentation.

(** What a path on disk holds, as PIL sees it: an image whose data load, a
    file that [Image.open] identifies but whose data fail to load (so that
    [rotate] raises), or a file that [Image.open] rejects. *)
Inductive file_kind := Readable | Truncated | Unidentified.

(** The disk: the files by path, and the paths handed to [save] so far, in
    order. *)
Record disk := Disk {
  files : gmap string file_kind;
  saved : list string
}.

(** Code that reads and writes the files on disk and may raise: a state
    and error monad over the disk. *)
Definition FS (A : Type) : Type := disk → option (disk * A).

Definition ret {A} (a : A) : FS A := λ d, Some (d, a).

Definition bind {A B} (m : FS A) (k : A → FS B) : FS B :=
  λ d, match m d with
       | Some (d', a) => k a d'
       | None => None
       end.

Definition raise {A} : FS A := λ _, None.

Definition lift {A} (o : option A) : FS A :=
  match o with Some a => ret a | None => raise end.

(** [os.path.exists(path)] *)
Definition path_exists (path : string) : FS bool :=
  λ d, Some (d, bool_decide (is_Some (files d !! path))).

(** [Image.open(path)]: raises when there is no such file or when the file
    is not identified as an image; the data are not loaded yet, the image
    handed back remembers whether they will. *)
Definition open (path : string) : FS file_kind :=
  λ d, match files d !! path with
       | Some Readable => Some (d, Readable)
       | Some Truncated => Some (d, Truncated)
       | Some Unidentified => None
       | None => None
       end.

(** [rotate_and_mirror_tile(img, degrees, mirror)]: [img.rotate] loads the
    data of the image and raises when they do not load. *)
Definition rotate_and_mirror_tile (img : file_kind) (degrees : Z) (mirror : bool)
    : FS unit :=
  λ d, match img with
       | Readable => Some (d, ())
       | Truncated => None
       | Unidentified => None
       end.

Fixpoint foldM {A S} (body : S → A → FS S) (s : S) (l : list A) : FS S :=
  match l with
  | [] => ret s
  | x :: l' => bind (body s x) (λ s', foldM body s' l')
  end.

Fixpoint mapM {A B} (body : A → FS B) (l : list A) : FS (list B) :=
  match l with
  | [] => ret []
  | x :: l' => bind (body x) (λ y, bind (mapM body l') (λ ys, ret (y :: ys)))
  end.

(** [s.rfind(c)], -1 when [c] does not occur *)
Fixpoint rfind (c : ascii) (s : string) : Z :=
  match s with
  | EmptyString => -1
  | String a s' =>
      let i := rfind c s' in
      if 0 <=? i then i + 1 else if Ascii.eqb a c then 0 else -1
  end.

(** The position a slice index stands for in a string of length [len]. *)
Definition slice_index (idx : Z) (len : nat) : nat :=
  if idx <? 0 then Z.to_nat (Z.of_nat len + idx) else Z.to_nat idx.

(** [s[:idx]] and [s[idx:]] *)
Definition str_to (idx : Z) (s : string) : string :=
  String.substring 0 (slice_index idx (String.length s)) s.

Definition str_from (idx : Z) (s : string) : string :=
  String.substring (slice_index idx (String.length s))
    (String.length s - slice_index idx (String.length s)) s.

(** The derived file name of iteration [i]. *)
Definition augment_file_name (file_name : string) (i : Z) : string :=
  let rotate := (90 * i) `mod` 360 in
  let idx := rfind "." file_name in
  let mirror := if 3 <? i then "_mirror" else "" in
  str_to idx file_name +:+ "_" +:+ pretty rotate +:+ mirror +:+ str_from idx file_name.

Section Save.
(** Whether [new_img.save(path)] succeeds: PIL finds a format for the
    extension of the name and can create the file. *)
Variable can_save : string → bool.

(** [new_img.save(path)]: the file is written, whether or not it was
    there. *)
Definition save (path : string) : FS unit :=
  λ d, if can_save path
       then Some (Disk (<[path := Readable]> (files d)) (saved d ++ [path]), ())
       else None.

(** The body of [for i in range(1, augmentation_factor)]. *)
Definition augment_step (img : file_kind) (file_name : string)
    (new_list : list string) (i : Z) : FS (list string) :=
  let rotate := (90 * i) `mod` 360 in
  let name := augment_file_name file_name i in
  bind (path_exists name) (λ present,
  bind (if present then ret ()
        else bind (rotate_and_mirror_tile img rotate (3 <? i)) (λ _, save name))
    (λ _,
  ret (new_list ++ [name]))).

(** The body of [for file_name in tiles_list]. *)
Definition augment_file (class_by_tile_count_dict : gmap string (Z * Z))
    (label : string) (new_list : list string) (file_name : string)
    : FS (list string) :=
  bind (open file_name) (λ img,
  bind (lift (class_by_tile_count_dict !! label)) (λ entry,
  let augmentation_factor := entry.2 in
  foldM (augment_step img file_name) new_list (seqZ 1 (augmentation_factor - 1)))).

(** The body of [for _slide, tiles_list in slides.items()]: the slide with
    its extended list. *)
Definition augment_slide (class_by_tile_count_dict : gmap string (Z * Z))
    (label : string) (entry : string * list string)
    : FS (string * list string) :=
  let '(slide, tiles_list) := entry in
  bind (foldM (augment_file class_by_tile_count_dict label) [] tiles_list)
    (λ new_list, ret (slide, tiles_list ++ new_list)).

Definition augment_tiles_based_on_factor
    (tiles_dict : list (string * list (string * list string)))
    (class_by_tile_count_dict : gmap string (Z * Z))
    : FS (list (string * list (string * list string))) :=
  mapM (λ '(label, slides),
          bind (mapM (augment_slide class_by_tile_count_dict label) slides)
            (λ slides', ret (label, slides')))
    tiles_dict.

End Save.

(** [reruns_as m m']: whenever [m] returns it has only added files, and
    [m'], started from any disk that holds the files [m] left, returns the
    same value and leaves that disk as it is: no file is written and
    nothing is handed to [save]. *)
Definition reruns_as {A} (m m' : FS A) : Prop :=
  ∀ d d1 a, m d = Some (d1, a) →
    files d ⊆ files d1 ∧ ∀ d', files d1 ⊆ files d' → m' d' = Some (d', a).

(** A computation returns on [S] with [P] when, from every disk that holds
    the files [S], it returns a value that satisfies [P], adding files
    only. *)
Definition returns_on {A} (S : gmap string file_kind) (m : FS A) (P : A → Prop)
    : Prop :=
  ∀ d, S ⊆ files d → ∃ d1 a, m d = Some (d1, a) ∧ files d ⊆ files d1 ∧ P a.

(** Sample input: one tile of one slide, augmented by a factor of 2, on a
    disk where every name can be saved. *)
Definition one_tile : list (string * list (string * list string)) :=
  [("L", [("s", ["a.jpeg"])])].
Definition factor_two : gmap string (Z * Z) := {[ "L" := (1, 2) ]}.
Definition one_file : disk := Disk {[ "a.jpeg" := Readable ]} [].
Definition any_name (path : string) : bool := true.
Definition no_name (path : string) : bool := false.

End Augmentation.

(** ** Slide-level aggregation ([slide_aucroc.py]) *)

Module SlideAucRoc.

(** A prediction or label vector. *)
Abbreviation vec := (list Q) (only parsing).

(** Row-wise addition inside [np.vstack(x).mean(axis=0)]; rows of different
    lengths cannot be stacked. *)
Definition vadd (u v : vec) : option vec :=
  if (length u =? length v)%nat then Some (zip_with Qplus u v) else None.

Fixpoint vsum (rows : list vec) : option vec :=
  match rows with
  | [] => None
  | [r] => Some r
  | r :: rest => s ← vsum rest; vadd r s
  end.

(** [np.vstack(x).mean(axis=0)] *)
Definition vstack_mean (rows : list vec) : option vec :=
  s ← vsum rows;
  Some (map (λ x, (x / inject_Z (Z.of_nat (length rows)))%Q) s).

(** [np.stack(rows)]: at least one row, all of one shape *)
Definition stack (rows : list vec) : option (list vec) :=
  match rows with
  | [] => None
  | r :: rest =>
      if forallb (λ r', (length r' =? length r)%nat) rest then Some rows else None
  end.

(** [groupby("slides")] sorts the group keys and keeps the rows of a group
    in their order. *)
Fixpoint insert_sorted (k : string) (l : list string) : list string :=
  match l with
  | [] => [k]
  | x :: l' => if String.leb k x then k :: l else x :: insert_sorted k l'
  end.

Definition group_keys (slides : list string) : list string :=
  foldr insert_sorted [] (remove_dups slides).

Definition group_rows {A} (key : string) (slides : list string) (column : list A)
    : list A :=
  snd <$> filter (λ row, row.1 = key) (zip slides column).

Definition aggregate_to_slides
    (slides : list string) (prediction actual : list vec)
    : option (list vec * list vec) :=
  if (length prediction =? length slides)%nat && (length actual =? length slides)%nat
  then
    let keys := group_keys slides in
    pred_slide ← mapM (λ key, vstack_mean (group_rows key slides prediction)) keys;
    actual_slide ← mapM (λ key, vstack_mean (group_rows key slides actual)) keys;
    pred_aggregate ← stack pred_slide;
    actual_aggregate ← stack actual_slide;
    Some (pred_aggregate, actual_aggregate)
  else None.

Inductive multi_class := ovr | ovo | raise_.

Section ComputeRocAuc.
Variable Pixels : Type.
(** [model.predict(pixels).tolist()] *)
Variable predict : list Pixels → list vec.
(** [sklearn.metrics.roc_auc_score(y_true, y_score, multi_class=...)] *)
Variable roc_auc_score : list vec → list vec → multi_class → option Q.

Definition compute_roc_auc (dataset : list (string * Pixels * list vec))
    : option Q :=
  let files := (λ e, e.1.1) <$> dataset in
  let pixels := (λ e, e.1.2) <$> dataset in
  let labels := (λ e, e.2) <$> dataset in
  let y_pred := predict pixels in
  labels ← mapM head labels;
  '(pred, actual) ← aggregate_to_slides files y_pred labels;
  roc_auc_score actual pred ovr.

End ComputeRocAuc.

(** The componentwise mean in the words of the specification: entry [j] is
    the sum of the entries [j] of the rows, divided by their number. *)
Definition Qsum (l : list Q) : Q := foldr Qplus 0%Q l.

Definition column (j : nat) (rows : list vec) : list Q :=
  (λ r, default 0%Q (r !! j)) <$> rows.

Definition is_mean (rows : list vec) (m : vec) : Prop :=
  ∀ j x, m !! j = Some x →
         (x == Qsum (column j rows) / inject_Z (Z.of_nat (length rows)))%Q.

(** In the words of the specification, without the grouping of the code:
    the positions of the tiles that share a slide-id, the entry [j] of the
    vector of tile [i], and the entry [j] of the componentwise mean of the
    vectors at given positions. *)
Definition tiles_of_slide (key : string) (slides : list string) : list nat :=
  filter (λ i, slides !! i = Some key) (seq 0 (length slides)).

Definition entry (vectors : list (list Q)) (i j : nat) : Q :=
  default 0%Q (vectors !! i ≫= λ v, v !! j).

Definition mean_over (vectors : list (list Q)) (positions : list nat) (j : nat) : Q :=
  (Qsum ((λ i, entry vectors i j) <$> positions)
   / inject_Z (Z.of_nat (length positions)))%Q.

(** A result row is the mean over the tiles of a slide, entry by entry. *)
Definition mean_of_slide (slides : list string) (vectors : list (list Q))
    (width : nat) (key : string) (m : list Q) : Prop :=
  length m = width ∧
  ∀ j x, m !! j = Some x →
         (x == mean_over vectors (tiles_of_slide key slides) j)%Q.

(** Sample input: three tiles of two slides. *)
Definition sample_slides : list string := ["s2"; "s1"; "s2"].
Definition sample_prediction : list (list Q) :=
  [[1 # 2; 1 # 2]; [1 # 4; 3 # 4]; [1 # 1; 0 # 1]]%Q.
Definition sample_actual : list (list Q) := [[1; 0]; [0; 1]; [1; 0]]%Q.
(** The same tiles as a dataset of (file, pixels, labels) and a model that
    predicts from the pixels. *)
Definition sample_dataset : list (string * nat * list (list Q)) :=
  [("s2", 0%nat, [[1; 0]]); ("s1", 1%nat, [[0; 1]]); ("s2", 2%nat, [[1; 0]])]%Q.
Definition sample_predict (pixels : list nat) : list (list Q) :=
  (λ p, default [] (sample_prediction !! p)) <$> pixels.

End SlideAucRoc.

(** ** Augmentation: the names and lists a run produces *)

Module AugmentationResult.
Import Augmentation.

(** What iteration [i] inserts before the extension. *)
Definition augment_tag (i : Z) : string :=
  pretty ((90 * i) `mod` 360) +:+ (if 3 <? i then "_mirror" else "").

(** The names derived from one file for a factor, in loop order. *)
Definition derived_names (file_name : string) (augmentation_factor : Z) : list string :=
  augment_file_name file_name <$> seqZ 1 (augmentation_factor - 1).

(** [class_by_tile_count_dict[label][1]], for a label that has an entry *)
Definition factor_of (class_by_tile_count_dict : gmap string (Z * Z)) (label : string) : Z :=
  (default (0, 0) (class_by_tile_count_dict !! label)).2.

(** [new_list] at the end of the loop over a slide's tiles. *)
Definition new_list_of (class_by_tile_count_dict : gmap string (Z * Z))
    (label : string) (tiles_list : list string) : list string :=
  file_name ← tiles_list;
  derived_names file_name (factor_of class_by_tile_count_dict label).

(** The dictionary as a run leaves it. *)
Definition augmented (tiles_dict : list (string * list (string * list string)))
    (class_by_tile_count_dict : gmap string (Z * Z))
    : list (string * list (string * list string)) :=
  (λ entry : string * list (string * list string),
     (entry.1,
      (λ slide : string * list string,
         (slide.1, slide.2 ++ new_list_of class_by_tile_count_dict entry.1 slide.2))
        <$> entry.2))
    <$> tiles_dict.

(** Every derived name of a run, in the order of their creation. *)
Definition all_derived (tiles_dict : list (string * list (string * list string)))
    (class_by_tile_count_dict : gmap string (Z * Z)) : list string :=
  entry ← tiles_dict;
  slide ← entry.2;
  new_list_of class_by_tile_count_dict entry.1 slide.2.

End AugmentationResult.

(** Sample input: the two-level pyramid tiled at a magnification no level has. *)
Definition two_levels_at_3 : DeepZoomImageTiler.Tiler :=
  {| DeepZoomImageTiler._dz := {| DeepZoomImageTiler.level_tiles := [(1, 1); (1, 1)]%nat |};
     DeepZoomImageTiler._basename := "out/L/s/s";
     DeepZoomImageTiler._format := "jpeg";
     DeepZoomImageTiler._associated := None;
     DeepZoomImageTiler._slide :=
       {| DeepZoomImageTiler.level_downsamples := [1%Q];
          DeepZoomImageTiler.objective_power := Some 20%Q |};
     DeepZoomImageTiler._ImgExtension := "svs";
     DeepZoomImageTiler._SaveMasks := false;
     DeepZoomImageTiler._Mag := 3 |}.

(** ** The label file ([slides_to_tiles], lines 703-712) *)

Module LabelFile.

(** What the loop over the label file can raise. *)
Inductive error :=
  | ValueError
  | UnknownLabel (sample label : string).

Section ReadLabels.
(** [line.split(maxsplit=1)] with [strip()] applied to the second field: the
    sample and the label of a line; [None] when the line has fewer than two
    fields, where unpacking into [sample, label] raises [ValueError]. *)
Variable fields : string → option (string * string).
Context {V : Type}.
Variable labels_map : gmap string V.

(** The loop body: one line added to [sample_labels]. *)
Definition read_line (sample_labels : list (string * list string)) (line : string)
    : error + list (string * list string) :=
  match fields line with
  | None => inl ValueError
  | Some (sample, label) =>
      if decide (is_Some (labels_map !! label))
      then inr (setdefault_append label sample sample_labels)
      else inl (UnknownLabel sample label)
  end.

Definition read_labels (lines : list string) : error + list (string * list string) :=
  foldl
    (λ acc line,
       match acc with
       | inl e => inl e
       | inr sample_labels => read_line sample_labels line
       end)
    (inr []) lines.

(** The samples that the lines give a label, in file order. *)
Definition samples_of (lines : list string) (label : string) : list string :=
  omap (λ line,
          match fields line with
          | Some (sample, label') =>
              if decide (label' = label) then Some sample else None
          | None => None
          end) lines.

End ReadLabels.

(** A line made of a sample, one blank and a label, without other white
    space, as Python splits it. *)
Fixpoint fields_of_clean_line (line : string) : option (string * string) :=
  match line with
  | EmptyString => None
  | String c rest =>
      if Ascii.eqb c " "%char then
        match rest with EmptyString => None | _ => Some (EmptyString, rest) end
      else
        match fields_of_clean_line rest with
        | Some (sample, label) => Some (String c sample, label)
        | None => None
        end
  end.

Definition sample_lines : list string := ["s1 LMS"; "s2 MFS"; "s3 LMS"].
Definition sample_labels_map : gmap string Z := <["LMS" := 0]> (<["MFS" := 1]> ∅).

End LabelFile.

(** ** Tiling the slides of a split ([get_labelled_tiles]) *)

Module LabelledTiles.

(** Python dictionaries as lists of entries in insertion order. *)
Fixpoint dict_get {K A} `{EqDecision K} (k : K) (d : list (K * A)) : option A :=
  match d with
  | [] => None
  | (k', a) :: rest => if decide (k = k') then Some a else dict_get k rest
  end.

(** [d[k] = a] *)
Fixpoint dict_set {K A} `{EqDecision K} (k : K) (a : A) (d : list (K * A))
    : list (K * A) :=
  match d with
  | [] => [(k, a)]
  | (k', a') :: rest =>
      if decide (k = k') then (k', a) :: rest else (k', a') :: dict_set k a rest
  end.

(** [d.setdefault(k, [])] followed by appending [vs] to the list, one by
    one. *)
Fixpoint setdefault_extend {B} (k : string) (vs : list B) (d : list (string * list B))
    : list (string * list B) :=
  match d with
  | [] => [(k, vs)]
  | (k', old) :: rest =>
      if decide (k = k') then (k', old ++ vs) :: rest
      else (k', old) :: setdefault_extend k vs rest
  end.

(** How a call ends: it returns, [get_sample_label] raises outside the
    [try], or [worker_queue.get()] waits on a queue that stays empty. *)
Inductive outcome (A : Type) :=
  | Returned (a : A)
  | NoLabel (sample : string)
  | Blocked.
Arguments Returned {A} a.
Arguments NoLabel {A} sample.
Arguments Blocked {A}.

(** The loop [tile_path = get(); while tile_path: append; tile_path = get()]:
    the paths appended and the rest of the queue.  [None] and the empty
    string end the loop. *)
Fixpoint drain (queue : list (option string))
    : option (list string * list (option string)) :=
  match queue with
  | [] => None
  | None :: rest => Some ([], rest)
  | Some tile_path :: rest =>
      if decide (tile_path = EmptyString) then Some ([], rest)
      else
        match drain rest with
        | Some (paths, rest') => Some (tile_path :: paths, rest')
        | None => None
        end
  end.

Section GetLabelledTiles.
Context {V : Type} `{EqDecision V}.
(** [os.path.splitext(os.path.basename(filename))[0]] *)
Variable basenameJPG : string → string.
(** [os.path.join(output_dir, sample_class, basenameJPG)] *)
Variable join : string → string → string → string.
(** [DeepZoomStaticTiler(filename, output, ...).run()] as its caller sees
    it: what the tiler and its workers put on [worker_queue], [None] being
    the end marker of [_shutdown], and whether the constructor or [run]
    raised. *)
Variable tile_slide : string → string → list (option string) * bool.

Record state := State {
  tile_dict : list (V * list (string * list string));
  worker_queue : list (option string)
}.

(** [{v: {} for _, v in labels_map.items()}] *)
Definition empty_tile_dict (labels_map : list (string * V))
    : list (V * list (string * list string)) :=
  foldl (λ d entry, dict_set entry.2 [] d) [] labels_map.

(** The body of [for filename in slide_list]. *)
Definition process_slide
    (output_dir : string) (sample_labels : list (string * list string))
    (labels_map : list (string * V)) (st : state) (filename : string)
    : outcome state :=
  let base := basenameJPG filename in
  match get_sample_label base sample_labels with
  | None => NoLabel base
  | Some sample_class =>
      let output := join output_dir sample_class base in
      let '(puts, raised) := tile_slide filename output in
      let queue := worker_queue st ++ puts in
      if (raised : bool) then Returned (State (tile_dict st) queue)
      else
        (* tile_path = worker_queue.get() *)
        match queue with
        | [] => Blocked
        | _ :: after_first =>
            (* tile_dict[labels_map[sample_class]]: a KeyError is caught *)
            match dict_get sample_class labels_map with
            | None => Returned (State (tile_dict st) after_first)
            | Some v =>
                match dict_get v (tile_dict st) with
                | None => Returned (State (tile_dict st) after_first)
                | Some slides =>
                    match drain queue with
                    | None => Blocked
                    | Some (paths, rest) =>
                        Returned
                          (State
                             (dict_set v (setdefault_extend base paths slides)
                                (tile_dict st))
                             rest)
                    end
                end
            end
        end
  end.

Definition process_slides
    (output_dir : string) (sample_labels : list (string * list string))
    (labels_map : list (string * V)) (st : state) (slide_list : list string)
    : outcome state :=
  foldl
    (λ acc filename,
       match acc with
       | Returned st => process_slide output_dir sample_labels labels_map st filename
       | NoLabel sample => NoLabel sample
       | Blocked => Blocked
       end)
    (Returned st) slide_list.

Definition get_labelled_tiles
    (slide_list : list string) (output_dir : string)
    (sample_labels : list (string * list string)) (labels_map : list (string * V))
    : outcome (list (V * list (string * list string))) :=
  match process_slides output_dir sample_labels labels_map
          (State (empty_tile_dict labels_map) []) slide_list with
  | Returned st => Returned (tile_dict st)
  | NoLabel sample => NoLabel sample
  | Blocked => Blocked
  end.

(** The class of a slide and the tiles that belong under a slide name of a
    class: those of the slides of that name and class, in list order. *)
Definition class_of (sample_labels : list (string * list string))
    (labels_map : list (string * V)) (filename : string) : option V :=
  match get_sample_label (basenameJPG filename) sample_labels with
  | Some sample_class => dict_get sample_class labels_map
  | None => None
  end.

Definition tiles_of (paths_of : string → list string)
    (sample_labels : list (string * list string)) (labels_map : list (string * V))
    (slide_list : list string) (v : V) (name : string) : list string :=
  concat (paths_of <$>
          filter (λ filename, class_of sample_labels labels_map filename = Some v ∧
                              basenameJPG filename = name) slide_list).

(** A slide is well tiled when its sample has a label that [labels_map]
    knows, and the tiler puts its non-empty tile paths and then the end
    marker on the queue without raising. *)
Definition well_tiled (paths_of : string → list string) (output_dir : string)
    (sample_labels : list (string * list string)) (labels_map : list (string * V))
    (filename : string) : Prop :=
  ∃ sample_class,
    get_sample_label (basenameJPG filename) sample_labels = Some sample_class ∧
    is_Some (dict_get sample_class labels_map) ∧
    tile_slide filename (join output_dir sample_class (basenameJPG filename))
    = ((Some <$> paths_of filename) ++ [None], false) ∧
    Forall (λ p, p ≠ EmptyString) (paths_of filename).

End GetLabelledTiles.

(** Sample input: two slides of two classes, tiled without error. *)
Definition sample_tiler (filename output : string) : list (option string) * bool :=
  ([Some (output +:+ "/0_0.jpeg"); Some (output +:+ "/0_1.jpeg"); None], false).
Definition sample_join (a b c : string) : string := a +:+ "/" +:+ b +:+ "/" +:+ c.
(** A tiler that raises on slide [s1] after one path was put on the queue. *)
Definition failing_tiler (filename output : string) : list (option string) * bool :=
  if String.eqb filename "s1" then ([Some (output +:+ "/0_0.jpeg")], true)
  else sample_tiler filename output.
Definition sample_labels : list (string * list string) :=
  [("LMS", ["s1"; "s3"]); ("MFS", ["s2"])].
Definition sample_labels_map : list (string * Z) := [("LMS", 0); ("MFS", 1)].

End LabelledTiles.

(** * Properties *)

(** ** Rounding *)

Lemma round_half_even_bounds p q :
  0 < q →
  2 * q * Py.round_half_even p q - q ≤ 2 * p ≤ 2 * q * Py.round_half_even p q + q.
Proof.
  intros Hq. unfold Py.round_half_even.
  pose proof (Z.div_mod p q ltac:(lia)) as Hdm.
  pose proof (Z.mod_pos_bound p q Hq) as Hr.
  repeat case_match; rewrite ?Z.ltb_lt, ?Z.ltb_ge in *; nia.
Qed.

Lemma round_half_even_nonneg p q : 0 < q → 0 ≤ p → 0 ≤ Py.round_half_even p q.
Proof.
  intros Hq Hp. pose proof (round_half_even_bounds p q Hq). nia.
Qed.

Lemma round_half_even_ge_1 p q :
  0 < q → 0 ≤ p → 1 ≤ Py.round_half_even p q ↔ q < 2 * p.
Proof.
  intros Hq Hp. unfold Py.round_half_even.
  pose proof (Z.div_mod p q ltac:(lia)) as Hdm.
  pose proof (Z.mod_pos_bound p q Hq) as Hr.
  pose proof (Z.div_pos p q Hp Hq) as Hf.
  destruct (decide (p / q = 0)) as [H0|H0].
  - rewrite H0 in *. simpl.
    repeat case_match; rewrite ?Z.ltb_lt, ?Z.ltb_ge in *; lia.
  - repeat case_match; rewrite ?Z.ltb_lt, ?Z.ltb_ge in *; nia.
Qed.

Lemma round_half_even_le p q k :
  0 < q → p ≤ k * q → Py.round_half_even p q ≤ k.
Proof.
  intros Hq Hp. unfold Py.round_half_even.
  pose proof (Z.div_mod p q ltac:(lia)) as Hdm.
  pose proof (Z.mod_pos_bound p q Hq) as Hr.
  repeat case_match; rewrite ?Z.ltb_lt, ?Z.ltb_ge in *; nia.
Qed.

Lemma round_div_pos p q :
  0 < q → Py.round_div p q = Some (Py.round_half_even p q).
Proof.
  intros Hq. unfold Py.round_div.
  destruct (Z.eqb_spec q 0); [lia|].
  rewrite Z.sgn_pos, Z.abs_eq, Z.mul_1_r by lia. done.
Qed.

(** ** Augmentation factors *)

Section AugmentationFactorFacts.
Context `{Countable K}.
Implicit Types (d : gmap K Z) (m n : Z).

(** The loop of [calc_augmentation_factor] maps every entry through
    [augmentation_entry], and raises exactly when one entry does. *)
Lemma calc_augmentation_factor_spec d m :
  match calc_augmentation_factor d m with
  | Some new => ∀ key, new !! key = d !! key ≫= augmentation_entry m
  | None => ∃ key n, d !! key = Some n ∧ augmentation_entry m n = None
  end.
Proof.
  unfold calc_augmentation_factor.
  apply (map_fold_weak_ind (λ r d',
    match r with
    | Some new => ∀ key, new !! key = d' !! key ≫= augmentation_entry m
    | None => ∃ key n, d' !! key = Some n ∧ augmentation_entry m n = None
    end)).
  - intros key. by rewrite !lookup_empty.
  - intros i x d' r Hi IH. destruct r as [new|]; simpl.
    + destruct (augmentation_entry m x) as [e|] eqn:He; simpl.
      * intros key. destruct (decide (i = key)) as [->|Hne].
        -- rewrite !lookup_insert_eq. simpl. by rewrite He.
        -- rewrite !lookup_insert_ne by done. apply IH.
      * exists i, x. by rewrite lookup_insert_eq.
    + destruct IH as (key & n & Hk & Hn). exists key, n. split; [|done].
      rewrite lookup_insert_ne; [done|]. intros ->. congruence.
Qed.

Lemma augmentation_entry_min m n :
  0 ≤ m ≤ n →
  augmentation_entry m n
  = Some (n, if n =? m then 8 else Py.round_half_even (m * 8) n).
Proof.
  intros Hmn. unfold augmentation_entry.
  destruct (Z.eqb_spec n m) as [->|Hne]; [done|].
  rewrite round_div_pos by lia. done.
Qed.

(** The value [slides_to_tiles] passes as [smallest_num_tiles] is a lower
    bound of the counts. *)
Lemma smallest_num_tiles_of_lower_bound d :
  map_Forall (λ _ n, 0 ≤ n) d →
  map_Forall (λ _ n, 0 ≤ smallest_num_tiles_of d ≤ n) d.
Proof.
  intros Hd.
  assert (map_Forall (λ _ n, 0 ≤ n) d →
          0 ≤ smallest_num_tiles_of d ∧
          map_Forall (λ _ n, 0 ≤ smallest_num_tiles_of d ≤ n) d) as Hboth;
    [|by apply Hboth].
  clear Hd. unfold smallest_num_tiles_of.
  apply (map_fold_weak_ind (λ r d',
    map_Forall (λ _ n, 0 ≤ n) d' →
    0 ≤ r ∧ map_Forall (λ _ n, 0 ≤ r ≤ n) d')).
  - intros _. split; [by vm_compute|]. apply map_Forall_empty.
  - intros i x d' r Hi IH Hnn.
    apply map_Forall_insert in Hnn as [Hx Hnn]; [|done].
    destruct (IH Hnn) as [Hr Hall].
    destruct (Z.ltb_spec x r).
    + split; [done|]. apply map_Forall_insert; [done|]. split; [lia|].
      intros k n Hk. specialize (Hall k n Hk). simpl in *. lia.
    + split; [done|]. apply map_Forall_insert; [done|]. split; [lia|done].
Qed.

End AugmentationFactorFacts.

(** C3 (as stated, refuted): the factor is not at least 1 for every class.
    With counts {A:1, B:100} the minimum is 1 and class B receives
    round(1*8/100) = round(0.08) = 0. *)
Lemma calc_augmentation_factor_zero_factor :
  ¬ (∀ (d : gmap string Z) (m : Z),
       map_Forall (λ _ n, 0 ≤ m ≤ n) d →
       (∃ key, d !! key = Some m) →
       ∀ new key n f,
         calc_augmentation_factor d m = Some new →
         new !! key = Some (n, f) → 1 ≤ f).
Proof.
  intros Hclaim.
  specialize (Hclaim skewed_counts 1).
  assert (calc_augmentation_factor skewed_counts 1
          = Some (<["A" := (1, 8)]> (<["B" := (100, 0)]> ∅))) as Hrun
    by (vm_compute; reflexivity).
  assert (map_Forall (λ _ n, 0 ≤ 1 ≤ n) skewed_counts) as Hmin
    by (by apply (bool_decide_unpack _); vm_compute).
  assert (∃ key, skewed_counts !! key = Some 1) as Hattained by (by exists "A").
  specialize (Hclaim Hmin Hattained _ "B" 100 0 Hrun eq_refl).
  lia.
Qed.

(** C3 (amended): for every class-to-tile-count mapping whose counts are
    bounded below by [m >= 0] (in particular when [m] is the minimum count),
    [calc_augmentation_factor] returns a mapping that gives every class with
    count [n] the pair [(n, factor)], where the factor is 8 when [n = m] and
    round-half-even of [m*8/n] otherwise; the factor lies between 0 and 8, and
    it is at least 1 exactly when [n = m] or [n < 16*m].  Counts
    {A:483, B:1120, C:197} yield 3 for A, 1 for B and 8 for C. *)
Theorem calc_augmentation_factor_factors `{Countable K} (d : gmap K Z) (m : Z) :
  map_Forall (λ _ n, 0 ≤ m ≤ n) d →
  (∃ new,
     calc_augmentation_factor d m = Some new ∧
     ∀ key n, d !! key = Some n →
       ∃ f, new !! key = Some (n, f) ∧
            f = (if n =? m then 8 else Py.round_half_even (m * 8) n) ∧
            0 ≤ f ≤ 8 ∧
            (1 ≤ f ↔ n = m ∨ n < 16 * m)) ∧
  calc_augmentation_factor example_counts 197
  = Some (<["A" := (483, 3)]> (<["B" := (1120, 1)]> (<["C" := (197, 8)]> ∅))).
Proof.
  intros Hmin. split; [|vm_compute; reflexivity].
  pose proof (calc_augmentation_factor_spec d m) as Hspec.
  destruct (calc_augmentation_factor d m) as [new|].
  - exists new. split; [done|]. intros key n Hkey.
    pose proof (Hmin key n Hkey) as Hmn. simpl in Hmn.
    exists (if n =? m then 8 else Py.round_half_even (m * 8) n).
    split; [|split; [done|]].
    { rewrite Hspec, Hkey. simpl. by apply augmentation_entry_min. }
    destruct (Z.eqb_spec n m) as [->|Hne]; [simpl; lia|].
    assert (0 < n) by lia.
    pose proof (round_half_even_nonneg (m * 8) n).
    pose proof (round_half_even_le (m * 8) n 8).
    pose proof (round_half_even_ge_1 (m * 8) n).
    lia.
  - destruct Hspec as (key & n & Hkey & Hnone).
    rewrite augmentation_entry_min in Hnone by (by apply (Hmin key n)). done.
Qed.

Lemma calc_augmentation_factor_factors_witness :
  map_Forall (λ _ n, 0 ≤ 197 ≤ n) example_counts ∧
  ∃ new, calc_augmentation_factor example_counts 197 = Some new ∧
         new !! "B" = Some (1120, 1).
Proof.
  assert (map_Forall (λ _ n, 0 ≤ 197 ≤ n) example_counts) as Hmin
    by (by apply (bool_decide_unpack _); vm_compute).
  split; [exact Hmin|].
  destruct (calc_augmentation_factor_factors example_counts 197 Hmin)
    as [(new & Hrun & Hall) _].
  exists new. split; [exact Hrun|].
  destruct (Hall "B" 1120 eq_refl) as (f & Hf & -> & _). exact Hf.
Defined.

(** ** Train/validation split *)

Section TrainValidSplitFacts.
Variable basenameJPG : string → string.
Variable shuffle : list string → list string.
Hypothesis shuffle_perm : ∀ l, Permutation (shuffle l) l.

Lemma shuffle_length l : length (shuffle l) = length l.
Proof. apply Permutation_length, shuffle_perm. Qed.

(** When [int(k*v)] is between 1 and [k], the two slices cut the shuffled
    list in two: the claim of the specification holds for such labels. *)
Lemma split_label_partition v l num_val :
  num_val_of v (length l) = Some num_val →
  1 ≤ num_val ≤ Z.of_nat (length l) →
  ∃ t va,
    split_label shuffle v l = Some (t, va) ∧
    t ++ va = shuffle l ∧
    Z.of_nat (length va) = num_val ∧
    Z.of_nat (length t) = Z.of_nat (length l) - num_val.
Proof.
  intros Hnv Hrange. unfold split_label. rewrite Hnv. simpl.
  eexists _, _. split; [reflexivity|].
  unfold Py.slice_to, Py.slice_from.
  destruct (Z.ltb_spec (Z.of_nat (length l) - num_val) 0); [lia|].
  destruct (Z.ltb_spec (- num_val) 0); [|lia].
  rewrite shuffle_length.
  replace (Z.of_nat (length l) + - num_val) with (Z.of_nat (length l) - num_val) by lia.
  rewrite take_drop. split; [done|].
  rewrite length_drop, length_take, shuffle_length. lia.
Qed.

(** When [int(k*v)] is 0 the slice [label_files[-0:]] is the whole list:
    every slide of the label lands in both outputs. *)
Lemma split_label_zero v l :
  num_val_of v (length l) = Some 0 →
  split_label shuffle v l = Some (shuffle l, shuffle l).
Proof.
  intros Hnv. unfold split_label. rewrite Hnv. simpl.
  unfold Py.slice_to, Py.slice_from. simpl.
  destruct (Z.ltb_spec (Z.of_nat (length l) - 0) 0); [lia|].
  rewrite Z.sub_0_r, Nat2Z.id, <- shuffle_length, firstn_all. done.
Qed.

End TrainValidSplitFacts.

(** C5 (code defect): a label with 3 slides at [validation_split = 0.2] has
    [int(3 * 0.2) = 0]; the slice [[-0:]] then hands all 3 slides to
    validation while train also keeps all 3, whatever order the shuffle
    leaves them in: the label contributes 3 validation slides instead of 0
    and every slide appears in both outputs. *)
Theorem get_train_valid_split_zero_val
    (basenameJPG : string → string) (shuffle : list string → list string) :
  (∀ l, Permutation (shuffle l) l) →
  ∃ train_files validation_files,
    get_train_valid_split basenameJPG shuffle three_slides
      [("L", map basenameJPG three_slides)] one_fifth
    = Some (train_files, validation_files) ∧
    int_of_float (PrimFloat.mul (float_of_nat 3) one_fifth) = Some 0 ∧
    length train_files = 3%nat ∧ length validation_files = 3%nat ∧
    ∀ slide, slide ∈ three_slides →
             slide ∈ train_files ∧ slide ∈ validation_files.
Proof.
  intros Hperm. exists (shuffle three_slides), (shuffle three_slides).
  split; [|split; [by vm_compute|]].
  - unfold get_train_valid_split, group_by_label, three_slides.
    cbn -[split_label].
    rewrite !bool_decide_eq_true_2 by (rewrite !elem_of_cons; auto).
    cbn -[split_label].
    repeat (rewrite decide_True by done; cbn -[split_label]).
    rewrite (split_label_zero shuffle Hperm) by (by vm_compute). done.
  - rewrite (shuffle_length shuffle Hperm).
    split; [done|]. split; [done|].
    intros slide Hin. by rewrite (Hperm three_slides).
Qed.

Lemma get_train_valid_split_zero_val_witness :
  (∀ l : list string, Permutation (reverse l) l) ∧
  ∃ train_files validation_files,
    get_train_valid_split (λ file, file) reverse three_slides
      [("L", three_slides)] one_fifth
    = Some (train_files, validation_files) ∧
    length validation_files = 3%nat.
Proof.
  assert (∀ l : list string, Permutation (reverse l) l) as Hperm
    by (intros l; rewrite reverse_Permutation; reflexivity).
  split; [exact Hperm|].
  destruct (get_train_valid_split_zero_val (λ file, file) reverse Hperm)
    as (t & va & Hrun & _ & _ & Hlen & _).
  exists t, va. split; [|exact Hlen].
  rewrite <- Hrun. reflexivity.
Defined.

(** With 10 slides and 0.2 the split is the intended 8 / 2. *)
Example get_train_valid_split_ten :
  get_train_valid_split (λ file, file) (λ l, l) ten_slides [("L", ten_slides)] one_fifth
  = Some (take 8 ten_slides, drop 8 ten_slides).
Proof. vm_compute. reflexivity. Qed.

(** The count is that of the rounded float product: [int(50 * 0.58)] is 28,
    [int(90 * 0.7)] is 62 and [int(100 * 0.03)] is 3, where the exact
    products of the decimal fractions are 29, 63 and 3; an infinite or nan
    fraction makes [int] raise. *)
Example num_val_of_float_product :
  num_val_of 0x1.28f5c28f5c28fp-1%float 50 = Some 28 ∧
  num_val_of 0x1.6666666666666p-1%float 90 = Some 62 ∧
  num_val_of 0x1.eb851eb851eb8p-6%float 100 = Some 3 ∧
  num_val_of infinity 3 = None ∧ num_val_of nan 3 = None.
Proof. repeat split; vm_compute; reflexivity. Qed.

(** ** Stain dictionary *)

Lemma norm_nonneg v : (0 <= norm v)%R.
Proof. destruct v as [[x y] z]. apply sqrt_pos. Qed.

Lemma norm_sqr x y z : (norm (x, y, z) * norm (x, y, z) = x * x + y * y + z * z)%R.
Proof. unfold norm. apply sqrt_sqrt. nra. Qed.

Lemma norm_zero_iff v : norm v = 0%R ↔ v = (0, 0, 0)%R.
Proof.
  destruct v as [[x y] z]. split.
  - intros Hn. pose proof (norm_sqr x y z) as Hs. rewrite Hn in Hs.
    assert (x = 0 ∧ y = 0 ∧ z = 0)%R as (-> & -> & ->) by nra. done.
  - intros [= -> -> ->]. unfold norm.
    replace (0 * 0 + 0 * 0 + 0 * 0)%R with 0%R by lra. apply sqrt_0.
Qed.

Lemma is_zero_row_true v : is_zero_row v = true ↔ v = (0, 0, 0)%R.
Proof.
  destruct v as [[x y] z]. unfold is_zero_row.
  repeat destruct (Req_dec_T _ _); split; try done; try congruence.
Qed.

Lemma is_zero_row_false v : is_zero_row v = false ↔ norm v ≠ 0%R.
Proof.
  rewrite norm_zero_iff, <- is_zero_row_true. by destruct (is_zero_row v).
Qed.

Lemma norm_scaled x y z n :
  n ≠ 0%R → (n * n = x * x + y * y + z * z)%R →
  norm (x / n, y / n, z / n)%R = 1%R.
Proof.
  intros Hn Hs. unfold norm.
  replace (x / n * (x / n) + y / n * (y / n) + z / n * (z / n))%R
    with ((x * x + y * y + z * z) / (n * n))%R by (field; done).
  rewrite <- Hs. replace (n * n / (n * n))%R with 1%R by (field; done).
  apply sqrt_1.
Qed.

Lemma divide_by_norm_unit v :
  norm v ≠ 0%R →
  divide_by_norm v = Row (v.1.1 / norm v) (v.1.2 / norm v) (v.2 / norm v) ∧
  is_unit_row (divide_by_norm v).
Proof.
  destruct v as [[x y] z]. intros Hn. unfold divide_by_norm.
  destruct (Req_dec_T _ _) as [|_]; [done|]. split; [done|].
  apply norm_scaled; [done|]. apply norm_sqr.
Qed.

Lemma swap_rows_ordered W :
  ((swap_rows W).2.1.1 <= (swap_rows W).1.1.1)%R.
Proof.
  destruct W as [w0 w1]. unfold swap_rows.
  destruct (Rlt_dec _ _); simpl; lra.
Qed.

Lemma norm_3_4 : norm (3 / 10, 4 / 10, 0)%R = (1 / 2)%R.
Proof.
  unfold norm.
  replace (3 / 10 * (3 / 10) + 4 / 10 * (4 / 10) + 0 * 0)%R
    with ((1 / 2) * (1 / 2))%R by lra.
  apply sqrt_square. lra.
Qed.

Lemma norm_2_0 : norm (2 / 10, 0, 0)%R = (2 / 10)%R.
Proof.
  unfold norm.
  replace (2 / 10 * (2 / 10) + 0 * 0 + 0 * 0)%R
    with ((2 / 10) * (2 / 10))%R by lra.
  apply sqrt_square. lra.
Qed.

Lemma zeros_to_one_no_zero a : 0 ∉ zeros_to_one a.
Proof.
  unfold zeros_to_one. rewrite list_elem_of_fmap. intros (x & Hx & _).
  destruct (Z.eqb_spec x 0); lia.
Qed.

Lemma zeros_to_one_fixed a : 0 ∉ a → zeros_to_one a = a.
Proof.
  induction a as [|x a IH]; [done|].
  rewrite not_elem_of_cons. intros [Hx Ha]. simpl.
  destruct (Z.eqb_spec x 0); [done|]. by rewrite IH.
Qed.

Lemma zeros_to_one_changes a : 0 ∈ a → zeros_to_one a ≠ a.
Proof.
  intros Hin Heq. apply (zeros_to_one_no_zero a). by rewrite Heq.
Qed.

Section StainFacts.
Variable lab_lightness : list Z → list Z.
Variable trainDL : list rvec → Q → rvec * rvec.
Variable lasso : list rvec → frow * frow → list (R * R).
Variable percentile_90 : list Z → Q.

Lemma stain_dict_Vahadane_run img thresh vlambda h pixels :
  h !! img = Some pixels →
  _stain_dict_Vahadane lab_lightness trainDL img thresh vlambda h
  = Some (normalize_rows
            (swap_rows (learned lab_lightness trainDL pixels thresh vlambda)),
          <[img := zeros_to_one pixels]> h).
Proof.
  intros Hin. unfold _stain_dict_Vahadane, learned.
  rewrite Hin. simpl. rewrite lookup_insert_eq. done.
Qed.

End StainFacts.

(** C2 (as stated, refuted): when dictionary learning returns the atoms
    (0.3, 0.4, 0) and (0.2, 0, 0), no swap takes place (0.3 >= 0.2), and row
    normalisation turns them into (0.6, 0.8, 0) and (1, 0, 0): the returned
    row 0 has the smaller first channel. *)
Lemma stain_dict_rows_out_of_order :
  ∃ W h',
    _stain_dict_Vahadane mean_lightness (λ _ _, unequal_atoms)
      0%nat (8 # 10) (1 # 10) sample_heap = Some (W, h') ∧
    W = (Row (3 / 5) (4 / 5) 0, Row 1 0 0) ∧
    ¬ first_channel_ge W.
Proof.
  eexists _, _. split; [by apply stain_dict_Vahadane_run|].
  unfold learned.
  assert (normalize_rows (swap_rows unequal_atoms)
          = (Row (3 / 5) (4 / 5) 0, Row 1 0 0)) as ->.
  { unfold unequal_atoms, swap_rows. simpl.
    destruct (Rlt_dec _ _) as [Hlt|_]; [lra|].
    unfold normalize_rows.
    assert (is_zero_row (2 / 10, 0, 0)%R = false) as ->
      by (apply is_zero_row_false; rewrite norm_2_0; lra).
    unfold divide_by_norm. rewrite norm_3_4, norm_2_0.
    repeat destruct (Req_dec_T _ _); try lra.
    f_equal; f_equal; lra. }
  split; [done|]. unfold first_channel_ge. simpl. lra.
Qed.

(** C2 (amended): for every reference pixel array, the rows are ordered by
    first channel after the swap, that is before row normalisation; the
    returned dictionary keeps row-0 first channel >= row-1 first channel when
    normalisation is skipped (row 1 is the zero vector) or when the two
    learned rows have the same non-zero Euclidean norm, as unit-norm atoms
    have. *)
Theorem stain_dict_row_order
    (lab_lightness : list Z → list Z) (trainDL : list rvec → Q → rvec * rvec)
    (img : loc) (thresh vlambda : Q) (h : heap) (pixels : list Z) :
  h !! img = Some pixels →
  ∃ w0 w1 h',
    swap_rows (learned lab_lightness trainDL pixels thresh vlambda) = (w0, w1) ∧
    _stain_dict_Vahadane lab_lightness trainDL img thresh vlambda h
    = Some (normalize_rows (w0, w1), h') ∧
    (w1.1.1 <= w0.1.1)%R ∧
    (w1 = (0, 0, 0)%R ∨ (norm w0 = norm w1 ∧ norm w1 ≠ 0%R) →
     first_channel_ge (normalize_rows (w0, w1))).
Proof.
  intros Hin.
  pose proof (swap_rows_ordered (learned lab_lightness trainDL pixels thresh vlambda))
    as Hord.
  destruct (swap_rows _) as [w0 w1] eqn:Hswap.
  exists w0, w1, (<[img := zeros_to_one pixels]> h).
  split; [done|]. split.
  { rewrite (stain_dict_Vahadane_run _ _ _ _ _ _ pixels Hin), Hswap. done. }
  split; [done|]. simpl in Hord.
  intros [Hzero | [Heq Hnz]]; unfold normalize_rows, first_channel_ge.
  - assert (is_zero_row w1 = true) as -> by (by apply is_zero_row_true).
    destruct w0 as [[x y] z], w1 as [[x' y'] z']. done.
  - assert (is_zero_row w1 = false) as -> by (by apply is_zero_row_false).
    destruct (divide_by_norm_unit w0) as [-> _]; [congruence|].
    destruct (divide_by_norm_unit w1) as [-> _]; [done|].
    simpl. rewrite Heq.
    pose proof (norm_nonneg w1).
    apply Rmult_le_compat_r; [|done].
    apply Rlt_le, Rinv_0_lt_compat. lra.
Qed.

Lemma stain_dict_row_order_witness :
  sample_heap !! 0%nat = Some [0; 120; 200; 30; 0; 90] ∧
  ∃ w0 w1 h',
    _stain_dict_Vahadane mean_lightness (λ _ _, single_atom)
      0%nat (8 # 10) (1 # 10) sample_heap
    = Some (normalize_rows (w0, w1), h') ∧
    (w1.1.1 <= w0.1.1)%R.
Proof.
  split; [reflexivity|].
  destruct (stain_dict_row_order mean_lightness (λ _ _, single_atom)
              0%nat (8 # 10) (1 # 10) sample_heap _ eq_refl)
    as (w0 & w1 & h' & _ & Hrun & Hord & _).
  exists w0, w1, h'. split; [exact Hrun | exact Hord].
Defined.

(** C8 (as stated, refuted): when the learned rows are (0.3, 0.4, 0) and the
    zero vector, the guard on row 1 skips the normalisation as a whole and
    row 0 is returned as learned, with norm 0.5, not divided by its norm. *)
Lemma stain_dict_row_not_normalized :
  ∃ W h',
    _stain_dict_Vahadane mean_lightness (λ _ _, single_atom)
      0%nat (8 # 10) (1 # 10) sample_heap = Some (W, h') ∧
    W = (Row (3 / 10) (4 / 10) 0, Row 0 0 0) ∧
    W ≠ normalize_rows_spec (swap_rows single_atom) ∧
    ¬ is_unit_row W.1.
Proof.
  eexists _, _. split; [by apply stain_dict_Vahadane_run|].
  assert (swap_rows single_atom = single_atom) as Hswap.
  { unfold single_atom, swap_rows. simpl.
    destruct (Rlt_dec _ _) as [Hlt|_]; [lra|done]. }
  assert (is_zero_row (0, 0, 0)%R = true) as Hz by (by apply is_zero_row_true).
  assert (is_zero_row (3 / 10, 4 / 10, 0)%R = false) as Hnz
    by (apply is_zero_row_false; rewrite norm_3_4; lra).
  unfold learned. rewrite Hswap.
  unfold normalize_rows_spec, normalize_rows, single_atom. cbn [fst snd].
  rewrite Hz, Hnz. split; [done|]. split.
  - unfold divide_by_norm. rewrite norm_3_4.
    destruct (Req_dec_T _ _); [lra|]. intros [= Hx _]. lra.
  - unfold is_unit_row, to_frow. cbn [fst]. rewrite norm_3_4. lra.
Qed.

(** A zero row 0 above a non-zero row 1 with first channel 0 is not swapped
    and is then divided by its zero norm: the returned row 0 is [nan]. *)
Lemma stain_dict_nan_row :
  normalize_rows (swap_rows zero_first_atom) = (NanRow, Row 0 (3 / 5) (4 / 5)).
Proof.
  assert (norm (0, 3 / 5, 4 / 5)%R = 1%R) as Hn.
  { unfold norm.
    replace (0 * 0 + 3 / 5 * (3 / 5) + 4 / 5 * (4 / 5))%R with 1%R by lra.
    apply sqrt_1. }
  assert (norm (0, 0, 0)%R = 0%R) as Hz by (by apply norm_zero_iff).
  unfold zero_first_atom, swap_rows. cbn [fst snd].
  destruct (Rlt_dec _ _) as [Hlt|_]; [lra|].
  unfold normalize_rows.
  assert (is_zero_row (0, 3 / 5, 4 / 5)%R = false) as ->
    by (apply is_zero_row_false; rewrite Hn; lra).
  unfold divide_by_norm. rewrite Hn, Hz.
  repeat destruct (Req_dec_T _ _); try lra.
  f_equal. f_equal; lra.
Qed.

(** C8 (amended): for every reference input, after the row swap: when row 1
    is the zero vector the dictionary is returned as learned (row 1 stays
    zero, row 0 is not divided by its norm); otherwise row 1 is divided by
    its Euclidean norm and is a unit vector, and so is row 0 when it is not
    the zero vector. *)
Theorem stain_dict_row_normalization
    (lab_lightness : list Z → list Z) (trainDL : list rvec → Q → rvec * rvec)
    (img : loc) (thresh vlambda : Q) (h : heap) (pixels : list Z) :
  h !! img = Some pixels →
  ∃ w0 w1 r0 r1 h',
    swap_rows (learned lab_lightness trainDL pixels thresh vlambda) = (w0, w1) ∧
    _stain_dict_Vahadane lab_lightness trainDL img thresh vlambda h
    = Some ((r0, r1), h') ∧
    (w1 = (0, 0, 0)%R → r0 = to_frow w0 ∧ r1 = Row 0 0 0) ∧
    (w1 ≠ (0, 0, 0)%R →
       r1 = Row (w1.1.1 / norm w1) (w1.1.2 / norm w1) (w1.2 / norm w1) ∧
       is_unit_row r1 ∧
       (w0 ≠ (0, 0, 0)%R →
          r0 = Row (w0.1.1 / norm w0) (w0.1.2 / norm w0) (w0.2 / norm w0) ∧
          is_unit_row r0)).
Proof.
  intros Hin.
  destruct (swap_rows _) as [w0 w1] eqn:Hswap.
  exists w0, w1, (normalize_rows (w0, w1)).1, (normalize_rows (w0, w1)).2,
    (<[img := zeros_to_one pixels]> h).
  split; [done|]. split.
  { rewrite (stain_dict_Vahadane_run _ _ _ _ _ _ pixels Hin), Hswap.
    by destruct (normalize_rows _). }
  unfold normalize_rows. split.
  - intros ->.
    assert (is_zero_row (0, 0, 0)%R = true) as -> by (by apply is_zero_row_true).
    done.
  - intros Hnz.
    assert (norm w1 ≠ 0%R) as Hn1 by (by rewrite norm_zero_iff).
    assert (is_zero_row w1 = false) as -> by (by apply is_zero_row_false).
    simpl. destruct (divide_by_norm_unit w1 Hn1) as [Heq1 Hunit1].
    split; [done|]. split; [done|].
    intros Hnz0. apply divide_by_norm_unit. by rewrite norm_zero_iff.
Qed.

Lemma stain_dict_row_normalization_witness :
  sample_heap !! 0%nat = Some [0; 120; 200; 30; 0; 90] ∧
  ∃ r0 r1 h',
    _stain_dict_Vahadane mean_lightness (λ _ _, unequal_atoms)
      0%nat (8 # 10) (1 # 10) sample_heap
    = Some ((r0, r1), h').
Proof.
  split; [reflexivity|].
  destruct (stain_dict_row_normalization mean_lightness (λ _ _, unequal_atoms)
              0%nat (8 # 10) (1 # 10) sample_heap _ eq_refl)
    as (w0 & w1 & r0 & r1 & h' & _ & Hrun & _).
  exists r0, r1, h'. exact Hrun.
Defined.

(** ** Aliasing of the pixel array *)

Lemma zeros_to_one_idemp a : zeros_to_one (zeros_to_one a) = zeros_to_one a.
Proof. apply zeros_to_one_fixed, zeros_to_one_no_zero. Qed.

Lemma zeros_to_one_lookup (a : list Z) i x :
  a !! i = Some x → zeros_to_one a !! i = Some (if x =? 0 then 1 else x).
Proof. intros Hi. unfold zeros_to_one. by rewrite list_lookup_fmap, Hi. Qed.

Lemma alloc_fresh (h : heap) a : h !! (alloc h a).1 = None.
Proof. simpl. apply not_elem_of_dom, is_fresh. Qed.

(** C10: [_stain_dict_Vahadane] writes through its argument.  For every store
    in which [img] names an array, the call leaves every zero entry of that
    very array overwritten with 1 (so the array differs from what it was as
    soon as it held a zero), touches no other array, and fits the dictionary
    on the optical densities of the overwritten array.  Inside
    [_write_normalized_image] the rescaled tile [img2t] is that argument: the
    store left by the dictionary fit already holds [img2t] with its zeros
    overwritten, the later overwrite changes nothing, and the concentration
    fit reads the optical densities of the overwritten array. *)
Theorem stain_dict_Vahadane_mutates_argument
    (lab_lightness : list Z → list Z) (trainDL : list rvec → Q → rvec * rvec)
    (lasso : list rvec → frow * frow → list (R * R)) (percentile_90 : list Z → Q)
    (img : loc) (thresh vlambda : Q) (h : heap) (pixels tile : list Z) :
  h !! img = Some pixels →
  (∃ W h',
     _stain_dict_Vahadane lab_lightness trainDL img thresh vlambda h = Some (W, h') ∧
     h' !! img = Some (zeros_to_one pixels) ∧
     (∀ i x, pixels !! i = Some x →
             zeros_to_one pixels !! i = Some (if x =? 0 then 1 else x)) ∧
     (0 ∈ pixels → h' !! img ≠ h !! img) ∧
     (∀ l, l ≠ img → h' !! l = h !! l) ∧
     W = normalize_rows (swap_rows (trainDL
           (select_masked (to_OD (zeros_to_one pixels))
              (luminance_mask lab_lightness pixels thresh)) vlambda))) ∧
  (let p := if Qeq_bool (percentile_90 tile) 0 then 1%Q else percentile_90 tile in
   ∃ img2t od start_values W2 h2,
     _write_normalized_image lab_lightness trainDL lasso percentile_90 tile h
     = Some (img2t, od, start_values, h2) ∧
     h !! img2t = None ∧
     _stain_dict_Vahadane lab_lightness trainDL img2t (8 # 10) (1 # 10)
       (<[img2t := rescale tile p]> h) = Some (W2, h2) ∧
     h2 !! img2t = Some (zeros_to_one (rescale tile p)) ∧
     (0 ∈ rescale tile p → h2 !! img2t ≠ Some (rescale tile p)) ∧
     od = to_OD (zeros_to_one (rescale tile p)) ∧
     start_values = lasso od W2).
Proof.
  intros Hin. split.
  - eexists _, _. split; [by apply stain_dict_Vahadane_run|].
    split; [by rewrite lookup_insert_eq|].
    split; [apply zeros_to_one_lookup|].
    split; [|split; [|done]].
    + intros H0. rewrite lookup_insert_eq, Hin. intros [= Heq].
      by apply (zeros_to_one_changes pixels).
    + intros l Hl. by rewrite lookup_insert_ne.
  - intros p.
    set (img2t := fresh (dom h)).
    assert (h !! img2t = None) as Hfresh by apply not_elem_of_dom, is_fresh.
    pose proof (stain_dict_Vahadane_run lab_lightness trainDL img2t (8 # 10) (1 # 10)
                  (<[img2t := rescale tile p]> h) (rescale tile p)
                  (lookup_insert_eq _ _ _)) as Hfit.
    rewrite insert_insert_eq in Hfit.
    eexists img2t, _, _, _, _. split; [|split; [done|split; [exact Hfit|]]].
    + unfold _write_normalized_image, alloc. fold p. fold img2t.
      rewrite Hfit. simpl. rewrite lookup_insert_eq. simpl.
      rewrite insert_insert_eq, lookup_insert_eq, zeros_to_one_idemp. simpl.
      reflexivity.
    + split; [by rewrite lookup_insert_eq|].
      split; [|done].
      intros H0. rewrite lookup_insert_eq. intros [= Heq].
      by apply (zeros_to_one_changes (rescale tile p)).
Qed.

Lemma stain_dict_Vahadane_mutates_argument_witness :
  sample_heap !! 0%nat = Some [0; 120; 200; 30; 0; 90] ∧
  ∃ W h',
    _stain_dict_Vahadane mean_lightness (λ _ _, unequal_atoms)
      0%nat (8 # 10) (1 # 10) sample_heap = Some (W, h') ∧
    h' !! 0%nat = Some [1; 120; 200; 30; 1; 90].
Proof.
  split; [reflexivity|].
  destruct (stain_dict_Vahadane_mutates_argument mean_lightness
              (λ _ _, unequal_atoms) (λ _ _, []) (λ _, 0%Q)
              0%nat (8 # 10) (1 # 10) sample_heap _ [] eq_refl)
    as [(W & h' & Hrun & Hlook & _) _].
  exists W, h'. split; [exact Hrun | exact Hlook].
Defined.

(** ** Tile filter *)

Module TileWorkerFacts.
Import TileWorker.

Lemma sum_point gray :
  foldr Z.add 0 (map point gray)
  = Z.of_nat (length (filter (λ x, 220 ≤ x) gray)).
Proof.
  induction gray as [|x gray IH]; [done|].
  rewrite filter_cons. simpl. rewrite IH. unfold point.
  destruct (Z.ltb_spec x 220); case_decide; simpl; lia.
Qed.

(** [avgBkg] is the fraction of pixels at or above 220. *)
Lemma avgBkg_background gray : avgBkg gray = background_fraction gray.
Proof. unfold avgBkg, background_fraction. by rewrite sum_point. Qed.

Lemma dark_bright_split gray :
  (length (filter (λ x, x < 220) gray)
   + length (filter (λ x, 220 ≤ x) gray) = length gray)%nat.
Proof.
  induction gray as [|x gray IH]; [done|].
  rewrite !filter_cons. repeat case_decide; simpl; lia.
Qed.

Lemma count_unique_single gray x :
  (∀ y, y ∈ gray → y = x) → (count_unique gray ≤ 1)%nat.
Proof.
  intros Hall. unfold count_unique.
  assert (∀ y, y ∈ remove_dups gray → y = x) as Hall'
    by (intros y Hy; apply Hall; by rewrite <- elem_of_remove_dups).
  pose proof (NoDup_remove_dups gray) as Hnd.
  destruct (remove_dups gray) as [|a [|b l]]; simpl; [lia..|].
  exfalso. apply NoDup_cons in Hnd as [Hnotin _]. apply Hnotin.
  rewrite (Hall' a), (Hall' b); set_solver.
Qed.

Lemma passes_or_not Bkg ROIpc data gray :
  passes Bkg ROIpc data gray ∨ ¬ passes Bkg ROIpc data gray.
Proof.
  unfold passes.
  destruct (Nat.lt_ge_cases 10 (count_unique gray)); [|right; lia].
  destruct (Qlt_le_dec (Bkg / 100) (background_fraction gray)) as [Hlt|Hle].
  { right. intros (_ & Hle & _). by apply Qlt_not_le in Hlt. }
  destruct (Qlt_le_dec (PercentMasked data) (ROIpc / 100)) as [Hlt|Hle'].
  { right. intros (_ & _ & Hle'). by apply Qlt_not_le in Hlt. }
  by left.
Qed.

Section RunFacts.
Variable Tile : Type.
Variable get_tile : option string → nat → nat * nat → option Tile.
Variable convert_L : Tile → list Z.
Variable _write_normalized_image : Tile → string → write_outcome.
Variable write_mask : TileJob → bool.
Variables (slidepath : string) (Bkg ROIpc : Q).

Lemma filter_and_write_rejected data tile st :
  ¬ passes Bkg ROIpc data (convert_L tile) →
  filter_and_write Tile convert_L _write_normalized_image write_mask
    slidepath Bkg ROIpc data tile st = st.
Proof.
  intros Hno. unfold filter_and_write. rewrite avgBkg_background.
  destruct (Nat.ltb_spec 10 (count_unique (convert_L tile))); [|done].
  destruct (Qle_bool _ _) eqn:Hbg; [|done]. simpl.
  destruct (Qle_bool (ROIpc / 100) _) eqn:Hroi; [|done].
  exfalso. apply Hno. split; [done|]. by split; apply Qle_bool_iff.
Qed.

Lemma filter_and_write_passed data tile st :
  passes Bkg ROIpc data (convert_L tile) →
  filter_and_write Tile convert_L _write_normalized_image write_mask
    slidepath Bkg ROIpc data tile st
  = match _write_normalized_image tile (outfile data) with
    | Written =>
        let st := put (outfile data) (save (outfile data) st) in
        if SaveMasks data then
          if write_mask data then save (outfile_bw data) st
          else warn (FailedAtGetTile slidepath (level data) (address data)) st
        else st
    | RaisedWarning => warn (Skipping (outfile data)) st
    | RaisedError =>
        warn (FailedAtGetTile slidepath (level data) (address data)) st
    end.
Proof.
  intros (Hn & Hbg & Hroi). unfold filter_and_write.
  rewrite avgBkg_background.
  apply Nat.ltb_lt in Hn. apply Qle_bool_iff in Hbg, Hroi.
  by rewrite Hn, Hbg, Hroi.
Qed.

End RunFacts.

(** C1 (as stated, refuted): a tile of eleven distinct dark pixels has all
    its pixels below 220, so the fraction below the threshold is 1 and
    exceeds a background threshold of 50%; the worker nevertheless writes
    the tile and reports its path, because it compares the fraction of
    pixels at or above 220 (here 0) with the threshold. *)
Lemma dark_tile_accepted :
  let st' :=
    run_job (list Z) (λ _ _ _, Some dark_tile) (λ tile, tile)
      (λ _ _, Written) (λ _, true) "s.svs" 50 0 sample_job idle in
  (10 < count_unique dark_tile)%nat ∧
  ¬ (foreground_fraction dark_tile <= 50 / 100)%Q ∧
  (0 / 100 <= PercentMasked sample_job)%Q ∧
  out_queue st' = [outfile sample_job] ∧
  outfile sample_job ∈ files st'.
Proof.
  simpl. split; [vm_compute; lia|]. split; [by vm_compute|].
  split; [by vm_compute|]. split; [done|]. set_solver.
Qed.

(** C1 (amended): for every decoded tile processed by a TileWorker, with bg
    the fraction of the tile's luminance pixels at or above 220 (the value
    the code averages), the tile is handed to normalisation exactly when the
    number of distinct luminance values exceeds 10, bg is at most Bkg/100
    and the job's ROI-mask fraction is at least ROIpc/100; its path is
    reported exactly when, in addition, the write returns normally, and the
    file is then on disk; a tile failing a condition changes nothing but
    the task counter (no file, no report, no log entry); a tile with a
    single luminance value is rejected whatever the thresholds. *)
Theorem tile_acceptance
    (Tile : Type) (get_tile : option string → nat → nat * nat → option Tile)
    (convert_L : Tile → list Z)
    (_write_normalized_image : Tile → string → write_outcome)
    (write_mask : TileJob → bool) (slidepath : string) (Bkg ROIpc : Q)
    (data : TileJob) (tile : Tile) (st : state) :
  get_tile (associated data) (level data) (address data) = Some tile →
  let gray := convert_L tile in
  let st' :=
    run_job Tile get_tile convert_L _write_normalized_image write_mask
      slidepath Bkg ROIpc data st in
  avgBkg gray = background_fraction gray ∧
  (out_queue st' = out_queue st ++ [outfile data]
   ↔ passes Bkg ROIpc data gray ∧
     _write_normalized_image tile (outfile data) = Written) ∧
  (passes Bkg ROIpc data gray →
   _write_normalized_image tile (outfile data) = Written →
   outfile data ∈ files st') ∧
  (¬ passes Bkg ROIpc data gray → st' = task_done st) ∧
  ((∃ x, ∀ y, y ∈ gray → y = x) → st' = task_done st).
Proof.
  intros Hget gray st'. split; [apply avgBkg_background|].
  assert (∀ (l : list string) x, l ≠ l ++ [x]) as Hneq.
  { intros l x Heq. apply (f_equal length) in Heq.
    rewrite length_app in Heq. simpl in Heq. lia. }
  assert (¬ passes Bkg ROIpc data gray → st' = task_done st) as Hrej.
  { intros Hno. unfold st', run_job. rewrite Hget.
    by rewrite filter_and_write_rejected. }
  split; [|split; [|split; [done|]]].
  - destruct (passes_or_not Bkg ROIpc data gray) as [Hyes|Hno].
    + unfold st', run_job. rewrite Hget.
      rewrite filter_and_write_passed by done.
      destruct (_write_normalized_image tile (outfile data)); simpl.
      * split; [done|intros _].
        by destruct (SaveMasks data), (write_mask data).
      * split; [intros Heq; by apply Hneq in Heq | by intros [_ ?]].
      * split; [intros Heq; by apply Hneq in Heq | by intros [_ ?]].
    + rewrite (Hrej Hno). simpl.
      split; [intros Heq; by apply Hneq in Heq | by intros [? _]].
  - intros Hyes Hw. unfold st', run_job. rewrite Hget.
    rewrite filter_and_write_passed, Hw by done.
    destruct (SaveMasks data), (write_mask data); simpl; set_solver.
  - intros [x Hall]. apply Hrej. intros (Hn & _).
    pose proof (count_unique_single gray x Hall). lia.
Qed.

Lemma tile_acceptance_witness :
  (λ _ _ _, Some dark_tile) (associated sample_job) (level sample_job)
    (address sample_job) = Some dark_tile ∧
  avgBkg dark_tile = background_fraction dark_tile.
Proof.
  split; [reflexivity|].
  exact (proj1 (tile_acceptance (list Z) (λ _ _ _, Some dark_tile)
                  (λ tile, tile) (λ _ _, Written) (λ _, true) "s.svs" 50 0
                  sample_job dark_tile idle eq_refl)).
Defined.

End TileWorkerFacts.

(** ** Tile names *)

Module TileNameFacts.
Import DeepZoomImageTiler.

Lemma append_inv_head (s a b : string) : s +:+ a = s +:+ b → a = b.
Proof. induction s as [|ch s IH]; simpl; [done|]. intros [= ?]. auto. Qed.

Lemma split_unique c s s' t t' :
  lacks c s → lacks c s' →
  s +:+ String c t = s' +:+ String c t' → s = s' ∧ t = t'.
Proof.
  revert s'. induction s as [|a s IH]; intros [|a' s']; simpl.
  - by intros _ _ [= ->].
  - intros _ [Hne _] [= <- _]. done.
  - intros [Hne _] _ [= -> _]. done.
  - intros [_ Hs] [_ Hs'] [= -> Heq].
    destruct (IH s' Hs Hs' Heq) as [-> ->]. done.
Qed.

Lemma pretty_N_go_lacks c x s :
  not_a_digit c → lacks c s → lacks c (pretty_N_go x s).
Proof.
  intros Hc. revert s.
  induction (N.lt_wf_0 x) as [x _ IH]. intros s Hs.
  destruct (decide (x = 0)%N) as [->|Hx].
  - by rewrite pretty_N_go_0.
  - rewrite pretty_N_go_step by lia.
    apply IH; [apply N.div_lt; lia|]. simpl. split; [apply Hc | done].
Qed.

Lemma pretty_nat_lacks c (n : nat) : not_a_digit c → lacks c (pretty n).
Proof.
  intros Hc. unfold pretty, pretty_nat, pretty, pretty_N.
  case_decide.
  - simpl. split; [apply (Hc 0%N) | done].
  - by apply pretty_N_go_lacks.
Qed.

Lemma underscore_not_a_digit : not_a_digit "_"%char.
Proof. intros d. unfold pretty_N_char. by repeat case_match. Qed.

Lemma dot_not_a_digit : not_a_digit "."%char.
Proof. intros d. unfold pretty_N_char. by repeat case_match. Qed.

(** Within one image the tile name determines the address. *)
Lemma tilename_inj basename format col row col' row' :
  tilename basename col row format = tilename basename col' row' format →
  col = col' ∧ row = row'.
Proof.
  unfold tilename. intros Heq.
  apply append_inv_head in Heq. simpl in Heq. injection Heq as Heq.
  apply split_unique in Heq as [Hcol Heq];
    [|by apply pretty_nat_lacks, underscore_not_a_digit..].
  apply (inj pretty) in Hcol.
  apply split_unique in Heq as [Hrow _];
    [|by apply pretty_nat_lacks, dot_not_a_digit..].
  apply (inj pretty) in Hrow. done.
Qed.

End TileNameFacts.

(** ** Tile enumeration *)

Lemma foldl_bind {A B S} (f : S → B → S) (g : A → list B) (l : list A) (st : S) :
  foldl f st (l ≫= g) = foldl (λ st x, foldl f st (g x)) st l.
Proof.
  revert st. induction l as [|x l IH]; intros st; [done|].
  rewrite bind_cons, foldl_app. simpl. apply IH.
Qed.

Lemma foldl_ext_eq {A S} (f g : S → A → S) (l : list A) (st : S) :
  (∀ st x, f st x = g st x) → foldl f st l = foldl g st l.
Proof.
  intros Hfg. revert st. induction l as [|x l IH]; intros st; [done|].
  simpl. rewrite Hfg. apply IH.
Qed.

Lemma foldl_filter_bool {A S} (f : S → A → S) (sel : A → bool) (l : list A) (st : S) :
  foldl (λ st x, if sel x then f st x else st) st l
  = foldl f st (filter (λ x, sel x = true) l).
Proof.
  revert st. induction l as [|x l IH]; intros st; [done|].
  rewrite filter_cons. simpl. destruct (sel x) eqn:Hsel.
  - rewrite decide_True by done. simpl. apply IH.
  - rewrite decide_False by done. apply IH.
Qed.

Module TilerFacts.
Import TileWorker DeepZoomImageTiler TileNameFacts.

Section Enumeration.
Variable path_exists : nat → string → bool.
Implicit Types (t : Tiler) (st : state).

Lemma visit_level_addresses t level st :
  visit_level path_exists t level st
  = foldl (visit_address path_exists t) st (level_addresses t level).
Proof.
  unfold visit_level, level_addresses.
  destruct (default _ _) as [cols rows].
  rewrite foldl_bind. apply foldl_ext_eq. intros st' row.
  rewrite foldl_bind. apply foldl_ext_eq. intros st'' col. done.
Qed.

Lemma write_tiles_addresses t st o f0 rest :
  Objective t = Some o →
  level_downsamples (_slide t) = f0 :: rest →
  Forall (λ x, ¬ (x == 0)%Q) (f0 :: rest) →
  _write_tiles path_exists t st
  = Some (foldl (visit_address path_exists t) st (addresses t (o / f0)%Q)).
Proof.
  intros Hobj Hf Hnz. unfold _write_tiles. rewrite Hobj, Hf.
  assert (existsb (λ x, Qeq_bool x 0) (f0 :: rest) = false) as ->.
  { apply not_true_is_false. rewrite existsb_exists.
    intros (x & Hin & Hx). rewrite Forall_forall in Hnz.
    apply Qeq_bool_iff in Hx. apply (Hnz x); [|done].
    by apply list_elem_of_In. }
  simpl. f_equal. unfold addresses, selected_levels.
  rewrite foldl_bind, <- foldl_filter_bool.
  apply foldl_ext_eq. intros st' level.
  by rewrite visit_level_addresses.
Qed.

(** What a run over a list of addresses leaves: the jobs of the
    addresses whose file was missing when visited, the names of the
    others, in order. *)
Lemma visits_run t addrs st :
  ∃ enqueued reported,
    foldl (visit_address path_exists t) st addrs
    = {| _queue := _queue st ++ (job_at t <$> enqueued);
         out_queue := out_queue st ++ (name_at t <$> reported);
         _processed := (_processed st + length addrs)%nat |} ∧
    enqueued `sublist_of` addrs ∧ reported `sublist_of` addrs ∧
    (length enqueued + length reported = length addrs)%nat ∧
    ((∀ p a, a ∈ addrs → path_exists p (name_at t a) = true) →
     enqueued = [] ∧ reported = addrs) ∧
    ((∀ p a, a ∈ addrs → path_exists p (name_at t a) = false) →
     enqueued = addrs ∧ reported = []).
Proof.
  revert st. induction addrs as [|a addrs IH]; intros st.
  { exists [], []. simpl. rewrite !app_nil_r, Nat.add_0_r.
    destruct st. done. }
  simpl.
  destruct (IH (visit_address path_exists t st a))
    as (enq & rep & -> & Henq & Hrep & Hlen & Hall & Hnone).
  destruct a as [[level row] col]. unfold visit_address at 1 2 3, visit.
  destruct (path_exists (_processed st) _) eqn:Hex; simpl.
  - exists enq, ((level, row, col) :: rep). simpl.
    rewrite <- !app_assoc. simpl. split; [f_equal; lia|].
    split; [by apply sublist_cons|]. split; [by apply sublist_skip|].
    split; [lia|]. split.
    + intros Hp. destruct Hall as [-> ->]; [|done].
      intros p a Ha. apply Hp. by right.
    + intros Hp. specialize (Hp (_processed st) (level, row, col)).
      simpl in Hp. rewrite Hp in Hex; [done|by left].
  - exists ((level, row, col) :: enq), rep. simpl.
    rewrite <- !app_assoc. simpl. split; [f_equal; lia|].
    split; [by apply sublist_skip|]. split; [by apply sublist_cons|].
    split; [lia|]. split.
    + intros Hp. specialize (Hp (_processed st) (level, row, col)).
      simpl in Hp. rewrite Hp in Hex; [done|by left].
    + intros Hp. destruct Hnone as [-> ->]; [|done].
      intros p a Ha. apply Hp. by right.
Qed.

End Enumeration.

Lemma level_addresses_elem t level l r c :
  (l, r, c) ∈ level_addresses t level ↔
  l = level ∧
  ∃ cols rows, level_tiles (_dz t) !! level = Some (cols, rows) ∧
               (r < rows)%nat ∧ (c < cols)%nat.
Proof.
  unfold level_addresses.
  destruct (level_tiles (_dz t) !! level) as [[cols rows]|] eqn:Hl; simpl.
  - rewrite list_elem_of_bind. split.
    + intros (row & Hin & Hrow). apply list_elem_of_bind in Hin as (col & Hin & Hcol).
      apply list_elem_of_singleton in Hin as [= -> -> ->].
      apply elem_of_seq in Hrow, Hcol. split; [done|].
      exists cols, rows. split; [done|lia].
    + intros (-> & cols' & rows' & [= <- <-] & Hr & Hc).
      exists r. split; [|apply elem_of_seq; lia].
      apply list_elem_of_bind. exists c. split; [|apply elem_of_seq; lia].
      by apply list_elem_of_singleton.
  - split; [by intros ?%elem_of_nil|]. by intros (_ & ? & ? & ? & _).
Qed.

Lemma NoDup_level_addresses t level : NoDup (level_addresses t level).
Proof.
  unfold level_addresses. destruct (default _ _) as [cols rows].
  apply NoDup_bind; [| |apply NoDup_seq].
  - intros r1 r2 a _ _ H1 H2.
    apply list_elem_of_bind in H1 as (c1 & ->%list_elem_of_singleton & _).
    apply list_elem_of_bind in H2 as (c2 & [= -> _]%list_elem_of_singleton & _).
    done.
  - intros r _. apply NoDup_bind; [| |apply NoDup_seq].
    + intros c1 c2 a _ _ ->%list_elem_of_singleton [= ->]%list_elem_of_singleton.
      done.
    + intros c _. apply NoDup_singleton.
Qed.

Lemma selected_levels_elem t a0 level :
  level ∈ selected_levels t a0 ↔
  (level < level_count (_dz t))%nat ∧ level_selected t a0 level = true.
Proof.
  unfold selected_levels.
  rewrite list_elem_of_filter, elem_of_reverse, elem_of_seq. split.
  - intros [? ?]. split; [lia|done].
  - intros [? ?]. split; [done|lia].
Qed.

Lemma NoDup_addresses t a0 : NoDup (addresses t a0).
Proof.
  unfold addresses. apply NoDup_bind.
  - intros l1 l2 [[l r] c] _ _ [-> _]%level_addresses_elem
      [-> _]%level_addresses_elem. done.
  - intros l _. apply NoDup_level_addresses.
  - unfold selected_levels. apply NoDup_filter.
    rewrite reverse_Permutation. apply NoDup_seq.
Qed.

Lemma addresses_elem t a0 l r c :
  (l, r, c) ∈ addresses t a0 ↔
  (l < level_count (_dz t))%nat ∧ level_selected t a0 l = true ∧
  ∃ cols rows, level_tiles (_dz t) !! l = Some (cols, rows) ∧
               (r < rows)%nat ∧ (c < cols)%nat.
Proof.
  unfold addresses. rewrite list_elem_of_bind. split.
  - intros (level & [-> Hgrid]%level_addresses_elem & [? ?]%selected_levels_elem).
    done.
  - intros (Hlt & Hsel & Hgrid). exists l.
    split; [by apply level_addresses_elem | by apply selected_levels_elem].
Qed.

(** A job is identified by its level and its output path. *)
Lemma job_key_inj t a a' :
  (level (job_at t a), outfile (job_at t a))
  = (level (job_at t a'), outfile (job_at t a')) → a = a'.
Proof.
  destruct a as [[l r] c], a' as [[l' r'] c']. simpl.
  intros [= -> [-> ->]%tilename_inj]. done.
Qed.

(** ** Magnification of a level *)

Lemma Qlt_bool_iff x y : Py.Qlt_bool x y = true ↔ (x < y)%Q.
Proof.
  unfold Py.Qlt_bool. rewrite negb_true_iff, <- not_true_iff_false, Qle_bool_iff.
  split; [apply Qnot_le_lt | apply Qlt_not_le].
Qed.

Lemma pow2_nonzero (k : nat) : ¬ (inject_Z (2 ^ Z.of_nat k) == 0)%Q.
Proof.
  change 0%Q with (inject_Z 0). rewrite inject_Z_injective.
  pose proof (Z.pow_pos_nonneg 2 (Z.of_nat k)). lia.
Qed.

(** [ThisMag] is the objective power divided by the level's downsample
    factor. *)
Lemma ThisMag_downsample t o f0 rest level :
  level_downsamples (_slide t) = f0 :: rest →
  (ThisMag (o / f0) (level_count (_dz t)) level
   == o / level_downsample t level)%Q.
Proof.
  intros Hf. unfold ThisMag, level_downsample. rewrite Hf. simpl.
  unfold Qdiv. rewrite Qinv_mult_distr. ring.
Qed.

Lemma level_selected_iff t o f0 rest level :
  level_downsamples (_slide t) = f0 :: rest →
  level_selected t (o / f0) level = true ↔
  ((0 < _Mag t)%Q → (o / level_downsample t level == _Mag t)%Q).
Proof.
  intros Hf. unfold level_selected.
  destruct (Py.Qlt_bool 0 (_Mag t)) eqn:Hmag.
  - rewrite Qeq_bool_iff, (ThisMag_downsample t o f0 rest level Hf).
    apply Qlt_bool_iff in Hmag. naive_solver.
  - split; [|done]. intros _ Hpos. apply Qlt_bool_iff in Hpos. congruence.
Qed.

(** With a target magnification at most one level is selected. *)
Lemma selected_level_unique t a0 l1 l2 :
  (0 < _Mag t)%Q →
  l1 ∈ selected_levels t a0 → l2 ∈ selected_levels t a0 → l1 = l2.
Proof.
  intros Hmag [Hl1 Hs1]%selected_levels_elem [Hl2 Hs2]%selected_levels_elem.
  unfold level_selected in *. apply Qlt_bool_iff in Hmag as Hb.
  rewrite Hb in Hs1, Hs2. apply Qeq_bool_iff in Hs1, Hs2.
  unfold ThisMag in *.
  set (k1 := (level_count (_dz t) - (l1 + 1))%nat) in *.
  set (k2 := (level_count (_dz t) - (l2 + 1))%nat) in *.
  pose proof (pow2_nonzero k1) as Hp1. pose proof (pow2_nonzero k2) as Hp2.
  assert (a0 == _Mag t * inject_Z (2 ^ Z.of_nat k1))%Q as H1
    by (rewrite <- Hs1; field; done).
  assert (a0 == _Mag t * inject_Z (2 ^ Z.of_nat k2))%Q as H2
    by (rewrite <- Hs2; field; done).
  rewrite H1 in H2. apply Qmult_inj_l in H2.
  - rewrite inject_Z_injective in H2.
    apply Z.pow_inj_r in H2; [|lia..]. lia.
  - intros Hz. rewrite Hz in Hmag. by apply Qlt_irrefl in Hmag.
Qed.

(** ** The whole run *)

Lemma write_tiles_visits path_exists t st :
  Forall (λ x, ¬ (x == 0)%Q) (level_downsamples (_slide t)) →
  ∃ visited,
    _write_tiles path_exists t st
    = Some (foldl (visit_address path_exists t) st visited) ∧
    NoDup visited ∧
    ((0 < _Mag t)%Q → ∀ a a', a ∈ visited → a' ∈ visited → a.1.1 = a'.1.1).
Proof.
  intros Hnz.
  destruct (Objective t) as [o|] eqn:Hobj;
    [destruct (level_downsamples (_slide t)) as [|f0 rest] eqn:Hf|].
  - exists []. unfold _write_tiles. rewrite Hobj, Hf. simpl.
    split; [done|]. split; [constructor|]. by intros _ a a' ?%elem_of_nil.
  - exists (addresses t (o / f0)%Q).
    split; [by eapply write_tiles_addresses|].
    split; [apply NoDup_addresses|].
    intros Hmag [[l r] c] [[l' r'] c'] Ha Ha'. simpl.
    apply addresses_elem in Ha as (Hl & Hs & _).
    apply addresses_elem in Ha' as (Hl' & Hs' & _).
    apply (selected_level_unique t (o / f0)%Q); [done|..];
      by apply selected_levels_elem.
  - exists []. unfold _write_tiles. rewrite Hobj. simpl.
    split; [done|]. split; [constructor|]. by intros _ a a' ?%elem_of_nil.
Qed.

(** C4 (as stated, refuted): without a target magnification every level is
    tiled, and the tile name does not hold the level: on a two-level
    pyramid whose files do not exist yet, the path of address (0, 0) is
    enqueued twice, once per level. *)
Lemma tile_job_enqueued_twice :
  ∃ st',
    _write_tiles (λ _ _, false) two_levels empty_queues = Some st' ∧
    outfile <$> _queue st' = ["out/L/s/s_0_0.jpeg"; "out/L/s/s_0_0.jpeg"] ∧
    level <$> _queue st' = [1; 0]%nat ∧
    ¬ NoDup (outfile <$> _queue st').
Proof.
  eexists. split; [vm_compute; reflexivity|]. simpl.
  split; [done|]. split; [done|].
  intros Hnd. apply NoDup_cons in Hnd as [Hnotin _]. apply Hnotin. by left.
Qed.

(** C4 (amended): for every tile address the tiler visits, if a file exists
    at the address's output path when it is visited, no TileJob is enqueued
    and the path is put on the result queue; otherwise exactly one TileJob
    for that path is enqueued.  Over a whole run a TileJob is enqueued at
    most once per level and output path, hence at most once per output path
    when a target magnification > 0 is configured (a single level is
    tiled); when all the output files exist the run enqueues nothing and
    reports every visited path. *)
Theorem tile_enqueued_or_reported
    (path_exists : nat → string → bool) (t : Tiler) (st : state) :
  Forall (λ x, ¬ (x == 0)%Q) (level_downsamples (_slide t)) →
  (∀ level row col,
     let name := tilename (_basename t) col row (_format t) in
     let st1 := visit path_exists t level row col st in
     outfile (job_of t level col row) = name ∧
     (path_exists (_processed st) name = true →
      _queue st1 = _queue st ∧ out_queue st1 = out_queue st ++ [name]) ∧
     (path_exists (_processed st) name = false →
      _queue st1 = _queue st ++ [job_of t level col row] ∧
      out_queue st1 = out_queue st)) ∧
  ∃ st' jobs outs,
    _write_tiles path_exists t st = Some st' ∧
    _queue st' = _queue st ++ jobs ∧
    out_queue st' = out_queue st ++ outs ∧
    (length jobs + length outs = _processed st' - _processed st)%nat ∧
    NoDup ((λ j, (level j, outfile j)) <$> jobs) ∧
    ((0 < _Mag t)%Q → NoDup (outfile <$> jobs)) ∧
    ((∀ p col row,
        path_exists p (tilename (_basename t) col row (_format t)) = true) →
     jobs = []).
Proof.
  intros Hnz. split.
  { intros level row col name st1. split; [done|]. unfold st1, visit. fold name.
    split; intros ->; done. }
  destruct (write_tiles_visits path_exists t st Hnz)
    as (visited & Hrun & Hnd & Hone).
  destruct (visits_run path_exists t visited st)
    as (enq & rep & Hfold & Henq & Hrep & Hlen & Hall & _).
  rewrite Hfold in Hrun.
  eexists _, (job_at t <$> enq), (name_at t <$> rep).
  split; [exact Hrun|]. simpl. split; [done|]. split; [done|].
  split; [rewrite !length_fmap; lia|].
  assert (NoDup enq) as Hnd' by (by eapply sublist_NoDup).
  assert (NoDup ((λ j, (level j, outfile j)) <$> (job_at t <$> enq))) as Hkeys.
  { rewrite <- list_fmap_compose.
    apply NoDup_fmap_2_strong; [|done].
    intros a a' _ _ Heq. by apply (job_key_inj t). }
  split; [done|]. split.
  - intros Hmag. destruct enq as [|a0 enq0] eqn:Henq0; [constructor|].
    rewrite <- Henq0 in *.
    apply (NoDup_fmap_1 (λ path, (a0.1.1, path))).
    assert ((λ path, (a0.1.1, path)) <$> (outfile <$> (job_at t <$> enq))
            = (λ j, (level j, outfile j)) <$> (job_at t <$> enq)) as ->;
      [|exact Hkeys].
    rewrite <- !list_fmap_compose. apply list_fmap_ext.
    intros i a Hi. simpl.
    assert (a ∈ enq) as Ha by (by eapply list_elem_of_lookup_2).
    assert (a0 ∈ enq) as Ha0 by (rewrite Henq0; by left).
    rewrite <- (Hone Hmag a a0) by (by eapply elem_of_sublist).
    by destruct a as [[l r] c].
  - intros Hp. destruct Hall as [-> _]; [|done].
    intros p [[l r] c] _. apply Hp.
Qed.

Lemma tile_enqueued_or_reported_witness :
  Forall (λ x, ¬ (x == 0)%Q) (level_downsamples (_slide two_levels)) ∧
  ∃ st', _write_tiles (λ _ _, true) two_levels empty_queues = Some st'.
Proof.
  assert (Forall (λ x, ¬ (x == 0)%Q) (level_downsamples (_slide two_levels)))
    as Hnz by (repeat constructor; by vm_compute).
  split; [exact Hnz|].
  destruct (tile_enqueued_or_reported (λ _ _, true) two_levels empty_queues Hnz)
    as [_ (st' & _ & _ & Hrun & _)].
  exists st'. exact Hrun.
Defined.

(** What a run over a list of addresses leaves: every address gives one job
    or one reported name. *)
Lemma visits_partition path_exists t addrs st :
  ∃ enqueued reported,
    foldl (visit_address path_exists t) st addrs
    = {| _queue := _queue st ++ (job_at t <$> enqueued);
         out_queue := out_queue st ++ (name_at t <$> reported);
         _processed := (_processed st + length addrs)%nat |} ∧
    enqueued ++ reported ≡ₚ addrs.
Proof.
  revert st. induction addrs as [|a addrs IH]; intros st.
  { exists [], []. simpl. rewrite !app_nil_r, Nat.add_0_r.
    destruct st. done. }
  simpl.
  destruct (IH (visit_address path_exists t st a)) as (enq & rep & -> & Hperm).
  destruct a as [[level row] col]. unfold visit_address at 1 2 3, visit.
  destruct (path_exists (_processed st) _) eqn:Hex; simpl.
  - exists enq, ((level, row, col) :: rep). simpl.
    rewrite <- !app_assoc. simpl. split; [f_equal; lia|].
    by rewrite <- Permutation_middle, Hperm.
  - exists ((level, row, col) :: enq), rep. simpl.
    rewrite <- !app_assoc. simpl. split; [f_equal; lia|].
    by rewrite Hperm.
Qed.

(** C6 (as stated, refuted): the magnifications [objective / downsample] of
    the slide's own levels are the code's [Available], of which only the
    first entry is used.  A slide with the levels of downsample 1 and 4 and
    an objective power of 20 has the magnifications 20 and 5; tiled at a
    target of 10, no level of the slide has the target magnification, yet
    the tile of Deep Zoom level 1 (magnification [20 / 2]) is enqueued. *)
Lemma level_tiled_without_slide_level :
  ∃ st',
    _write_tiles (λ _ _, false) coarse_levels empty_queues = Some st' ∧
    level <$> _queue st' = [1%nat] ∧
    Objective coarse_levels = Some 20%Q ∧
    Available 20 (level_downsamples (_slide coarse_levels)) = [20 / 1; 20 / 4]%Q ∧
    Forall (λ magnification, ¬ (magnification == _Mag coarse_levels)%Q)
      (Available 20 (level_downsamples (_slide coarse_levels))).
Proof.
  eexists. split; [vm_compute; reflexivity|].
  split; [reflexivity|]. split; [reflexivity|]. split; [reflexivity|].
  repeat constructor; by vm_compute.
Qed.

(** C6 (amended): the objective power is the slide's metadata value when
    present, else 1.0 when the extension holds jpg or dcm, else 20.0 when
    it holds tiff or btf; when none applies the run returns with no job and
    no report.  Otherwise the run visits exactly the tiles (row, col) of the
    grid of every Deep Zoom level whose magnification, the objective power
    divided by [level_downsamples[0] * 2^(level_count - 1 - level)], equals
    the target [_Mag] when [_Mag > 0], and of every level when it is not;
    each visited tile gives exactly one job on the queue, carrying its
    level, or one path on the result queue, and [_processed] counts the
    visited tiles: no other level yields a job or a report. *)
Theorem levels_tiled
    (path_exists : nat → string → bool) (t : Tiler) (st : state) :
  Forall (λ x, ¬ (x == 0)%Q) (level_downsamples (_slide t)) →
  (∀ o, objective_power (_slide t) = Some o → Objective t = Some o) ∧
  (objective_power (_slide t) = None →
   Objective t =
     if contains "jpg" (_ImgExtension t) || contains "dcm" (_ImgExtension t)
     then Some 1%Q
     else if contains "tiff" (_ImgExtension t) || contains "btf" (_ImgExtension t)
     then Some 20%Q else None) ∧
  (Objective t = None → _write_tiles path_exists t st = Some st) ∧
  (∀ o f0 rest,
     Objective t = Some o →
     level_downsamples (_slide t) = f0 :: rest →
     ∃ visited enqueued reported st',
       _write_tiles path_exists t st = Some st' ∧
       _queue st' = _queue st ++ (job_at t <$> enqueued) ∧
       out_queue st' = out_queue st ++ (name_at t <$> reported) ∧
       _processed st' = (_processed st + length visited)%nat ∧
       enqueued ++ reported ≡ₚ visited ∧
       NoDup visited ∧
       (∀ level row col,
          (level, row, col) ∈ visited ↔
          (level < level_count (_dz t))%nat ∧
          ((0 < _Mag t)%Q →
           (o / (f0 * inject_Z (2 ^ Z.of_nat (level_count (_dz t) - (level + 1))))
            == _Mag t)%Q) ∧
          ∃ cols rows, level_tiles (_dz t) !! level = Some (cols, rows) ∧
                       (row < rows)%nat ∧ (col < cols)%nat) ∧
       (∀ level row col,
          (level, row, col) ∈ enqueued →
          job_at t (level, row, col) ∈ drop (length (_queue st)) (_queue st') ∧
          TileWorker.level (job_at t (level, row, col)) = level ∧
          address (job_at t (level, row, col)) = (col, row)) ∧
       (∀ job, job ∈ drop (length (_queue st)) (_queue st') →
          (TileWorker.level job < level_count (_dz t))%nat ∧
          ((0 < _Mag t)%Q →
           (o / (f0 * inject_Z (2 ^ Z.of_nat (level_count (_dz t)
                                               - (TileWorker.level job + 1))))
            == _Mag t)%Q))).
Proof.
  intros Hnz. split; [|split; [|split]].
  - intros o Ho. unfold Objective. by rewrite Ho.
  - intros Ho. unfold Objective. by rewrite Ho.
  - intros Hobj. unfold _write_tiles. by rewrite Hobj.
  - intros o f0 rest Hobj Hf.
    assert (∀ level row col,
              (level, row, col) ∈ addresses t (o / f0)%Q ↔
              (level < level_count (_dz t))%nat ∧
              ((0 < _Mag t)%Q →
               (o / (f0 * inject_Z (2 ^ Z.of_nat (level_count (_dz t) - (level + 1))))
                == _Mag t)%Q) ∧
              ∃ cols rows, level_tiles (_dz t) !! level = Some (cols, rows) ∧
                           (row < rows)%nat ∧ (col < cols)%nat) as Hvisited.
    { intros level row col.
      rewrite addresses_elem, (level_selected_iff t o f0 rest level Hf).
      unfold level_downsample. rewrite Hf. done. }
    destruct (visits_partition path_exists t (addresses t (o / f0)%Q) st)
      as (enq & rep & Hfold & Hperm).
    exists (addresses t (o / f0)%Q), enq, rep. eexists.
    split.
    { rewrite (write_tiles_addresses path_exists t st o f0 rest Hobj Hf)
        by (by rewrite <- Hf).
      by rewrite Hfold. }
    simpl. split; [done|]. split; [done|]. split; [done|].
    split; [done|]. split; [apply NoDup_addresses|]. split; [exact Hvisited|].
    rewrite drop_app_length. split.
    + intros level row col Hin. split; [|done].
      apply list_elem_of_fmap. by exists (level, row, col).
    + intros job ([[level row] col] & -> & Hin)%list_elem_of_fmap. simpl.
      assert ((level, row, col) ∈ addresses t (o / f0)%Q) as Hv.
      { rewrite <- Hperm. apply elem_of_app. by left. }
      apply Hvisited in Hv as (Hlt & Hmag & _). done.
Qed.

Lemma levels_tiled_witness :
  Forall (λ x, ¬ (x == 0)%Q) (level_downsamples (_slide two_levels)) ∧
  Objective two_levels = Some 20%Q.
Proof.
  assert (Forall (λ x, ¬ (x == 0)%Q) (level_downsamples (_slide two_levels)))
    as Hnz by (repeat constructor; by vm_compute).
  split; [exact Hnz|].
  exact (proj1 (levels_tiled (λ _ _, true) two_levels empty_queues Hnz)
           20%Q eq_refl).
Defined.

End TilerFacts.

(** ** Augmentation *)

Module AugmentationFacts.
Import Augmentation.

Example augment_file_name_90 : augment_file_name "t/a_3_4.jpeg" 1 = "t/a_3_4_90.jpeg".
Proof. vm_compute. reflexivity. Qed.

Example augment_file_name_mirror : augment_file_name "t/a_3_4.jpeg" 5 = "t/a_3_4_90_mirror.jpeg".
Proof. vm_compute. reflexivity. Qed.

Section Rerun.
Variables can_save can_save' : string → bool.

Lemma reruns_ret {A} (a : A) : reruns_as (ret a) (ret a).
Proof. intros d d1 a' [= <- <-]. done. Qed.

Lemma reruns_lift {A} (o : option A) : reruns_as (lift o) (lift o).
Proof. destruct o; [apply reruns_ret | by intros d d1 a']. Qed.

Lemma reruns_bind {A B} (m m' : FS A) (k k' : A → FS B) :
  reruns_as m m' → (∀ a, reruns_as (k a) (k' a)) →
  reruns_as (bind m k) (bind m' k').
Proof.
  intros Hm Hk d d2 b. unfold bind.
  destruct (m d) as [[d1 a]|] eqn:Hrun; [|done]. intros Hk2.
  destruct (Hm _ _ _ Hrun) as [Hsub1 Hagain1].
  destruct (Hk a _ _ _ Hk2) as [Hsub2 Hagain2].
  split; [by etrans|]. intros d' Hd'.
  rewrite Hagain1 by (by etrans). by apply Hagain2.
Qed.

Lemma reruns_open path : reruns_as (open path) (open path).
Proof.
  intros d d1 img. unfold open.
  destruct (files d !! path) as [kind|] eqn:Hpath; [|done].
  destruct kind; try done; intros [= <- <-]; (split; [done|]);
    intros d' Hd'; by rewrite (lookup_weaken _ _ _ _ Hpath Hd').
Qed.

(** One derived name: written by the first run unless it was there, found
    by the second. *)
Lemma reruns_augment_step img file_name new_list i :
  reruns_as (augment_step can_save img file_name new_list i)
            (augment_step can_save' img file_name new_list i).
Proof.
  intros d d1 a. unfold augment_step, bind, path_exists, ret.
  case_bool_decide as Hin.
  - intros [= <- <-]. split; [done|]. intros d' Hd'.
    rewrite bool_decide_eq_true_2; [done|].
    destruct Hin as [kind Hkind]. exists kind. by eapply lookup_weaken.
  - unfold rotate_and_mirror_tile, save. destruct img; try done.
    destruct (can_save _); [|done]. intros [= <- <-]. simpl. split.
    + apply insert_subseteq. by apply eq_None_not_Some.
    + intros d' Hd'. rewrite bool_decide_eq_true_2; [done|].
      exists Readable. eapply lookup_weaken; [|exact Hd'].
      apply lookup_insert_eq.
Qed.

Lemma reruns_foldM {A S} (body body' : S → A → FS S) (s : S) (l : list A) :
  (∀ s x, reruns_as (body s x) (body' s x)) →
  reruns_as (foldM body s l) (foldM body' s l).
Proof.
  intros Hbody. revert s. induction l as [|x l IH]; intros s; simpl.
  - apply reruns_ret.
  - apply reruns_bind; [apply Hbody | apply IH].
Qed.

Lemma reruns_mapM {A B} (body body' : A → FS B) (l : list A) :
  (∀ x, reruns_as (body x) (body' x)) →
  reruns_as (mapM body l) (mapM body' l).
Proof.
  intros Hbody. induction l as [|x l IH]; simpl.
  - apply reruns_ret.
  - apply reruns_bind; [apply Hbody|]. intros y.
    apply reruns_bind; [apply IH|]. intros ys. apply reruns_ret.
Qed.

Lemma reruns_augment_tiles tiles_dict plan :
  reruns_as (augment_tiles_based_on_factor can_save tiles_dict plan)
            (augment_tiles_based_on_factor can_save' tiles_dict plan).
Proof.
  apply reruns_mapM. intros [label slides].
  apply reruns_bind; [|intros ?; apply reruns_ret].
  apply reruns_mapM. intros [slide tiles_list]. unfold augment_slide.
  apply reruns_bind; [|intros ?; apply reruns_ret].
  apply reruns_foldM. intros new_list file_name. unfold augment_file.
  apply reruns_bind; [apply reruns_open|]. intros img.
  apply reruns_bind; [apply reruns_lift|]. intros entry.
  apply reruns_foldM. intros s i. apply reruns_augment_step.
Qed.

End Rerun.

(** C7 (as stated, refuted): with one tile [a.jpeg] and a factor of 2, the
    first run creates [a_90.jpeg] and leaves the list
    [a.jpeg; a_90.jpeg].  Run again on that same dictionary, the code
    appends [a_90.jpeg] a second time and derives the new file
    [a_90_90.jpeg] from the first run's derived tile: a file is created, the
    list grows from 2 to 4 entries, and it holds a duplicate. *)
Lemma augment_twice_same_dictionary :
  ∃ d1 dict1 d2 dict2,
    augment_tiles_based_on_factor any_name one_tile factor_two one_file
    = Some (d1, dict1) ∧
    augment_tiles_based_on_factor any_name dict1 factor_two d1 = Some (d2, dict2) ∧
    dict1 = [("L", [("s", ["a.jpeg"; "a_90.jpeg"])])] ∧
    dict2 = [("L", [("s", ["a.jpeg"; "a_90.jpeg"; "a_90.jpeg"; "a_90_90.jpeg"])])] ∧
    files d1 !! "a_90_90.jpeg" = None ∧
    files d2 !! "a_90_90.jpeg" = Some Readable ∧
    saved d1 = ["a_90.jpeg"] ∧
    saved d2 = ["a_90.jpeg"; "a_90_90.jpeg"].
Proof.
  eexists _, _, _, _.
  split; [vm_compute; reflexivity|].
  split; [vm_compute; reflexivity|].
  split; [reflexivity|]. split; [reflexivity|].
  split; [by vm_compute|]. split; [by vm_compute|]. split; reflexivity.
Qed.

Section Returns.
Variable can_save : string → bool.

Lemma returns_ret {A} S (a : A) (P : A → Prop) : P a → returns_on S (ret a) P.
Proof. intros HP d Hd. by exists d, a. Qed.

Lemma returns_bind {A B} S (m : FS A) (k : A → FS B) (P : A → Prop) (Q : B → Prop) :
  returns_on S m P → (∀ a, P a → returns_on S (k a) Q) →
  returns_on S (bind m k) Q.
Proof.
  intros Hm Hk d Hd. destruct (Hm d Hd) as (d1 & a & Hrun & Hsub & HP).
  destruct (Hk a HP d1) as (d2 & b & Hrun2 & Hsub2 & HQ); [by etrans|].
  exists d2, b. unfold bind. rewrite Hrun. split; [done|]. split; [by etrans|done].
Qed.

Lemma returns_open S path :
  S !! path = Some Readable → returns_on S (open path) (λ img, img = Readable).
Proof.
  intros Hin d Hd. exists d, Readable. unfold open.
  by rewrite (lookup_weaken _ _ _ _ Hin Hd).
Qed.

Lemma returns_lift {A} S (o : option A) (a : A) :
  o = Some a → returns_on S (lift o) (λ a', a' = a).
Proof. intros ->. by apply returns_ret. Qed.

Lemma returns_augment_step S file_name new_list i :
  can_save (augment_file_name file_name i) = true →
  returns_on S (augment_step can_save Readable file_name new_list i) (λ _, True).
Proof.
  intros Hsave d Hd.
  unfold augment_step, bind, path_exists, rotate_and_mirror_tile, save, ret.
  case_bool_decide as Hin.
  - eexists _, _. done.
  - rewrite Hsave. eexists _, _. split; [done|]. split; [|done]. simpl.
    apply insert_subseteq. by apply eq_None_not_Some.
Qed.

Lemma returns_foldM {A St} S (body : St → A → FS St) (s : St) (l : list A) :
  (∀ s x, x ∈ l → returns_on S (body s x) (λ _, True)) →
  returns_on S (foldM body s l) (λ _, True).
Proof.
  revert s. induction l as [|x l IH]; intros s Hbody; simpl.
  - by apply returns_ret.
  - eapply returns_bind; [apply Hbody; by left|].
    intros s' _. apply IH. intros s'' y Hy. apply Hbody. by right.
Qed.

Lemma returns_mapM {A B} S (body : A → FS B) (l : list A) :
  (∀ x, x ∈ l → returns_on S (body x) (λ _, True)) →
  returns_on S (mapM body l) (λ _, True).
Proof.
  induction l as [|x l IH]; intros Hbody; simpl.
  - by apply returns_ret.
  - eapply returns_bind; [apply Hbody; by left|]. intros y _.
    eapply returns_bind; [|intros ys _; by apply returns_ret].
    apply IH. intros z Hz. apply Hbody. by right.
Qed.

(** When every tile of the dictionary is an image file whose data load,
    every label holding a tile has a factor, and every derived name the
    factor asks for can be saved, the run returns: the calls the code makes
    are [Image.open], the dictionary lookup, [os.path.exists], [rotate] and
    [save], and none of them raises. *)
Lemma augment_returns tiles_dict plan d :
  (∀ label slides slide tiles file_name,
     (label, slides) ∈ tiles_dict → (slide, tiles) ∈ slides →
     file_name ∈ tiles →
     files d !! file_name = Some Readable ∧
     ∃ entry, plan !! label = Some entry ∧
              ∀ i, 1 ≤ i < entry.2 →
                   can_save (augment_file_name file_name i) = true) →
  ∃ d1 dict1,
    augment_tiles_based_on_factor can_save tiles_dict plan d = Some (d1, dict1) ∧
    files d ⊆ files d1.
Proof.
  intros Hok.
  assert (returns_on (files d) (augment_tiles_based_on_factor can_save tiles_dict plan)
            (λ _, True)) as Hret.
  { apply returns_mapM. intros [label slides] Hlabel.
    eapply returns_bind; [|intros ? _; by apply returns_ret].
    apply returns_mapM. intros [slide tiles] Hslide. unfold augment_slide.
    eapply returns_bind; [|intros ? _; by apply returns_ret].
    apply returns_foldM. intros new_list file_name Hfile.
    destruct (Hok label slides slide tiles file_name)
      as (Hin & entry & Hplan & Hsave); [done..|].
    unfold augment_file.
    eapply returns_bind; [by apply returns_open|]. intros img ->.
    eapply returns_bind; [by apply returns_lift|]. intros entry' ->.
    apply returns_foldM. intros s i Hi. apply returns_augment_step.
    apply Hsave. apply elem_of_seqZ in Hi. lia. }
  destruct (Hret d) as (d1 & dict1 & Hrun & Hsub & _); [done|].
  by exists d1, dict1.
Qed.

End Returns.

(** C7 (amended): when a run of [augment_tiles_based_on_factor] returned,
    running it again with the same factors on a tile dictionary that holds
    the same tile lists as the first run started from (the dictionary
    rebuilt, not the one the first run extended), on the disk the first run
    left or any disk holding its files, returns the same lists as the first
    run and leaves the disk as it is: no file is created and nothing is
    handed to [save], so the second run returns even where nothing can be
    saved.  A derived file name that exists is skipped, not regenerated,
    and is appended to the list all the same; one that does not exist is
    generated: the tile is rotated, the name saved and appended. *)
Theorem augment_rerun
    (can_save : string → bool)
    (tiles_dict : list (string * list (string * list string)))
    (plan : gmap string (Z * Z)) (d d1 : disk)
    (dict1 : list (string * list (string * list string))) :
  augment_tiles_based_on_factor can_save tiles_dict plan d = Some (d1, dict1) →
  files d ⊆ files d1 ∧
  (∀ (can_save' : string → bool) d',
     files d1 ⊆ files d' →
     augment_tiles_based_on_factor can_save' tiles_dict plan d' = Some (d', dict1)) ∧
  (∀ (can_save' : string → bool) img file_name new_list i d0,
     is_Some (files d0 !! augment_file_name file_name i) →
     augment_step can_save' img file_name new_list i d0
     = Some (d0, new_list ++ [augment_file_name file_name i])) ∧
  (∀ img file_name new_list i d0 d0' new_list',
     files d0 !! augment_file_name file_name i = None →
     augment_step can_save img file_name new_list i d0 = Some (d0', new_list') →
     img = Readable ∧
     can_save (augment_file_name file_name i) = true ∧
     files d0' = <[augment_file_name file_name i := Readable]> (files d0) ∧
     saved d0' = saved d0 ++ [augment_file_name file_name i] ∧
     new_list' = new_list ++ [augment_file_name file_name i]).
Proof.
  intros Hrun. split; [|split; [|split]].
  - by destruct (reruns_augment_tiles can_save can_save tiles_dict plan _ _ _ Hrun).
  - intros can_save' d' Hd'.
    destruct (reruns_augment_tiles can_save can_save' tiles_dict plan _ _ _ Hrun)
      as [_ Hagain].
    by apply Hagain.
  - intros can_save' img file_name new_list i d0 Hin.
    unfold augment_step, bind, path_exists.
    rewrite bool_decide_eq_true_2 by done. done.
  - intros img file_name new_list i d0 d0' new_list' Hnone.
    unfold augment_step, bind, path_exists, rotate_and_mirror_tile, save, ret.
    rewrite bool_decide_eq_false_2 by (rewrite Hnone; by intros [? ?]).
    destruct img; try done.
    destruct (can_save _); [|done]. intros [= <- <-]. done.
Qed.

Lemma augment_rerun_witness :
  ∃ d1,
    augment_tiles_based_on_factor any_name one_tile factor_two one_file
    = Some (d1, [("L", [("s", ["a.jpeg"; "a_90.jpeg"])])]) ∧
    saved d1 = ["a_90.jpeg"] ∧
    augment_tiles_based_on_factor no_name one_tile factor_two d1
    = Some (d1, [("L", [("s", ["a.jpeg"; "a_90.jpeg"])])]).
Proof.
  destruct (augment_tiles_based_on_factor any_name one_tile factor_two one_file)
    as [[d1 dict1]|] eqn:Hrun; [|by vm_compute in Hrun].
  assert (dict1 = [("L", [("s", ["a.jpeg"; "a_90.jpeg"])])] ∧
          saved d1 = ["a_90.jpeg"]) as [-> Hsaved].
  { vm_compute in Hrun. injection Hrun as <- <-. split; reflexivity. }
  exists d1. split; [reflexivity|]. split; [exact Hsaved|].
  exact (proj1 (proj2 (augment_rerun any_name one_tile factor_two one_file d1 _ Hrun))
           no_name d1 (reflexivity _)).
Defined.

End AugmentationFacts.

(** ** Slide-level aggregation *)

Module SlideAucRocFacts.
Import SlideAucRoc.

Lemma insert_sorted_perm k l : insert_sorted k l ≡ₚ k :: l.
Proof.
  induction l as [|x l IH]; simpl; [done|].
  destruct (String.leb k x); [done|]. rewrite IH. apply perm_swap.
Qed.

Lemma group_keys_perm slides : group_keys slides ≡ₚ remove_dups slides.
Proof.
  unfold group_keys. induction (remove_dups slides) as [|k l IH]; simpl; [done|].
  by rewrite insert_sorted_perm, IH.
Qed.

Lemma group_keys_NoDup slides : NoDup (group_keys slides).
Proof. rewrite group_keys_perm. apply NoDup_remove_dups. Qed.

Lemma group_keys_elem slides s : s ∈ group_keys slides ↔ s ∈ slides.
Proof. rewrite group_keys_perm. apply elem_of_remove_dups. Qed.

Lemma vsum_columns rows c :
  rows ≠ [] → Forall (λ r, length r = c) rows →
  ∃ s, vsum rows = Some s ∧ length s = c ∧
       ∀ j x, s !! j = Some x → (x == Qsum (column j rows))%Q.
Proof.
  induction rows as [|r rows IH]; [done|]. intros _ Hlen.
  apply Forall_cons in Hlen as [Hr Hrows].
  destruct rows as [|r' rest].
  { exists r. split; [done|]. split; [done|]. intros j x Hj. simpl.
    rewrite Hj. simpl. by rewrite Qplus_0_r. }
  destruct (IH ltac:(done) Hrows) as (s & Hs & Hslen & Hcols).
  exists (zip_with Qplus r s).
  split.
  { change (vsum (r :: r' :: rest)) with (vsum (r' :: rest) ≫= vadd r).
    rewrite Hs. simpl. unfold vadd.
    rewrite (proj2 (Nat.eqb_eq _ _)) by congruence. done. }
  split; [rewrite length_zip_with; lia|].
  intros j x. rewrite lookup_zip_with_Some. intros (a & b & -> & Ha & Hb).
  change (column j (r :: r' :: rest))
    with (default 0%Q (r !! j) :: column j (r' :: rest)).
  unfold Qsum. simpl foldr. fold (Qsum (column j (r' :: rest))).
  rewrite Ha. simpl. by rewrite (Hcols j b Hb).
Qed.

(** [vstack_mean] of equally long rows is their componentwise mean. *)
Lemma vstack_mean_is_mean rows c :
  rows ≠ [] → Forall (λ r, length r = c) rows →
  ∃ m, vstack_mean rows = Some m ∧ length m = c ∧ is_mean rows m.
Proof.
  intros Hne Hlen. destruct (vsum_columns rows c Hne Hlen) as (s & Hs & Hslen & Hcols).
  eexists. unfold vstack_mean. rewrite Hs. simpl. split; [done|].
  split; [by rewrite length_map|].
  intros j x. rewrite list_lookup_fmap.
  destruct (s !! j) as [y|] eqn:Hy; [|done]. intros [= <-].
  by rewrite (Hcols j y Hy).
Qed.

Lemma group_rows_Forall {A} (P : A → Prop) key slides (col : list A) :
  Forall P col → Forall P (group_rows key slides col).
Proof.
  rewrite !Forall_forall. intros Hall x. unfold group_rows.
  rewrite list_elem_of_fmap. intros ([s y] & -> & Hin).
  apply list_elem_of_filter in Hin as [_ Hin].
  apply elem_of_zip_r in Hin. by apply Hall.
Qed.

Lemma group_rows_nonempty {A} key slides (col : list A) :
  length col = length slides → key ∈ slides → group_rows key slides col ≠ [].
Proof.
  intros Hlen [i Hi]%list_elem_of_lookup.
  destruct (col !! i) as [y|] eqn:Hy.
  - assert ((key, y) ∈ filter (λ row, row.1 = key) (zip slides col)) as Hin.
    { apply list_elem_of_filter. split; [done|].
      apply list_elem_of_lookup. exists i. by apply lookup_zip_Some. }
    unfold group_rows. intros Hnil. apply fmap_nil_inv in Hnil.
    rewrite Hnil in Hin. by apply elem_of_nil in Hin.
  - apply lookup_ge_None in Hy. apply lookup_lt_Some in Hi. lia.
Qed.

Lemma stack_same_length rows c :
  rows ≠ [] → Forall (λ r, length r = c) rows → stack rows = Some rows.
Proof.
  destruct rows as [|r rest]; [done|]. intros _ Hlen.
  apply Forall_cons in Hlen as [Hr Hrest]. unfold stack.
  rewrite (proj2 (forallb_forall _ _)); [done|].
  intros r' Hin. apply Nat.eqb_eq.
  rewrite Forall_forall in Hrest. rewrite Hr. apply Hrest.
  by apply list_elem_of_In.
Qed.

(** The groups of one column: a mean per key, all of one length. *)
Lemma aggregate_column slides (col : list (list Q)) c :
  length col = length slides → Forall (λ r, length r = c) col →
  ∃ means,
    mapM (λ key, vstack_mean (group_rows key slides col)) (group_keys slides)
    = Some means ∧
    Forall2 (λ key m, length m = c ∧ is_mean (group_rows key slides col) m)
      (group_keys slides) means.
Proof.
  intros Hlen Hc.
  assert (Forall (λ key, key ∈ slides) (group_keys slides)) as Hkeys
    by (apply Forall_forall; intros k; by rewrite group_keys_elem).
  induction Hkeys as [|key keys Hkey _ IH].
  { exists []. split; [done|constructor]. }
  destruct IH as (means & Hmeans & Hall).
  destruct (vstack_mean_is_mean (group_rows key slides col) c) as (m & Hm & Hml & Hmean).
  { by apply group_rows_nonempty. }
  { by apply group_rows_Forall. }
  exists (m :: means). split.
  - apply mapM_Some. constructor; [done|]. by apply mapM_Some.
  - by constructor.
Qed.

Lemma filter_ext_in {A} (P Q : A → Prop) `{∀ x, Decision (P x)}
    `{∀ x, Decision (Q x)} (l : list A) :
  (∀ x, x ∈ l → (P x ↔ Q x)) → filter P l = filter Q l.
Proof.
  induction l as [|x l IH]; intros Hext; [done|].
  rewrite !filter_cons.
  rewrite IH by (intros y Hy; apply Hext; by right).
  destruct (decide (P x)) as [HP|HP], (decide (Q x)) as [HQ|HQ]; try done.
  - exfalso. apply HQ, Hext; [by left|done].
  - exfalso. apply HP, Hext; [by left|done].
Qed.

(** The rows that the code groups under a key are the vectors at the
    positions of the key, in order. *)
Lemma group_rows_positions key slides (col : list (list Q)) :
  length col = length slides →
  group_rows key slides col
  = (λ i, default [] (col !! i)) <$> tiles_of_slide key slides.
Proof.
  unfold group_rows, tiles_of_slide. revert col.
  induction slides as [|s slides IH] using rev_ind; intros col Hlen.
  { destruct col; done. }
  rewrite length_app in Hlen. simpl in Hlen.
  destruct (decide (col = [])) as [->|Hcol]; [simpl in Hlen; lia|].
  destruct (exists_last Hcol) as (col' & r & ->).
  rewrite length_app in Hlen. simpl in Hlen.
  assert (length col' = length slides) as Hlen' by lia.
  rewrite zip_with_app by done.
  rewrite filter_app, fmap_app, (IH col' Hlen').
  rewrite length_app. simpl length.
  replace (length slides + 1)%nat with (S (length slides)) by lia.
  rewrite seq_S, filter_app, fmap_app. simpl app at 3. f_equal.
  - rewrite (filter_ext_in
               (λ i, (slides ++ [s]) !! i = Some key)
               (λ i, slides !! i = Some key) (seq 0 (length slides))).
    + apply list_fmap_ext. intros k i Hi.
      assert (i ∈ filter (λ i, slides !! i = Some key) (seq 0 (length slides)))
        as Hin by (by eapply list_elem_of_lookup_2).
      apply list_elem_of_filter in Hin as [_ Hin]. apply elem_of_seq in Hin.
      rewrite lookup_app_l by lia. done.
    + intros i Hi. apply elem_of_seq in Hi. rewrite lookup_app_l by lia. done.
  - simpl zip_with. rewrite !filter_cons, !filter_nil. simpl.
    rewrite (list_lookup_middle slides [] s (length slides) eq_refl).
    destruct (decide (s = key)) as [->|Hne].
    + rewrite decide_True by done. simpl.
      by rewrite (list_lookup_middle col' [] r (length slides) (eq_sym Hlen')).
    + rewrite decide_False by congruence. done.
Qed.

Lemma column_positions (col : list (list Q)) (positions : list nat) j :
  column j ((λ i, default [] (col !! i)) <$> positions)
  = (λ i, entry col i j) <$> positions.
Proof.
  unfold column. rewrite <- list_fmap_compose. apply list_fmap_ext.
  intros k i _. unfold entry. simpl. by destruct (col !! i).
Qed.

Lemma is_mean_positions key slides (col : list (list Q)) c m :
  length col = length slides →
  length m = c ∧ is_mean (group_rows key slides col) m →
  mean_of_slide slides col c key m.
Proof.
  intros Hlen [Hm Hmean]. split; [done|]. intros j x Hx.
  rewrite (Hmean j x Hx), group_rows_positions by done.
  unfold mean_over. by rewrite column_positions, length_fmap.
Qed.

(** The whole aggregation: it returns, one row per distinct slide-id, each
    row the mean over the tiles of its slide. *)
Lemma aggregate_to_slides_rows
    (slides : list string) (prediction actual : list (list Q)) (c c' : nat) :
  slides ≠ [] →
  length prediction = length slides →
  length actual = length slides →
  Forall (λ r, length r = c) prediction →
  Forall (λ r, length r = c') actual →
  ∃ keys pred_aggregate actual_aggregate,
    aggregate_to_slides slides prediction actual
    = Some (pred_aggregate, actual_aggregate) ∧
    NoDup keys ∧
    (∀ s, s ∈ keys ↔ s ∈ slides) ∧
    Forall2 (mean_of_slide slides prediction c) keys pred_aggregate ∧
    Forall2 (mean_of_slide slides actual c') keys actual_aggregate.
Proof.
  intros Hne Hlp Hla Hc Hc'.
  destruct (aggregate_column slides prediction c Hlp Hc) as (P & HP & HPall).
  destruct (aggregate_column slides actual c' Hla Hc') as (A & HA & HAall).
  exists (group_keys slides), P, A. unfold aggregate_to_slides.
  rewrite (proj2 (Nat.eqb_eq _ _) Hlp), (proj2 (Nat.eqb_eq _ _) Hla). simpl.
  rewrite HP, HA. simpl.
  assert (group_keys slides ≠ []) as Hkne.
  { destruct slides as [|s slides]; [done|]. intros Hnil.
    assert (s ∈ group_keys (s :: slides)) as Hin
      by (apply group_keys_elem; by left).
    rewrite Hnil in Hin. by apply elem_of_nil in Hin. }
  assert (P ≠ []) as HPne.
  { intros ->. apply Forall2_nil_inv_r in HPall. done. }
  assert (A ≠ []) as HAne.
  { intros ->. apply Forall2_nil_inv_r in HAall. done. }
  rewrite (stack_same_length P c), (stack_same_length A c'); try done.
  + simpl. split; [done|]. split; [apply group_keys_NoDup|].
    split; [apply group_keys_elem|]. split.
    * eapply Forall2_impl; [exact HPall|]. intros key m.
      by apply is_mean_positions.
    * eapply Forall2_impl; [exact HAall|]. intros key m.
      by apply is_mean_positions.
  + eapply Forall2_Forall_r; [exact HAall|].
    apply Forall_forall. by intros key _ m [? _].
  + eapply Forall2_Forall_r; [exact HPall|].
    apply Forall_forall. by intros key _ m [? _].
Qed.

(** C9: for every sequence of triples, given as three lists of one length
    whose prediction vectors have one length and whose label vectors have
    one length, [aggregate_to_slides] returns one row per distinct slide-id:
    the componentwise mean of the prediction vectors of the tiles whose
    slide-id it is, and the componentwise mean of their label vectors.  For
    a dataset of such tiles [compute_roc_auc] returns what
    [roc_auc_score] makes, in one-vs-rest mode, of these slide-level means
    of the first label row of every tile and of the model's predictions,
    labels first. *)
Theorem aggregate_to_slides_means
    (slides : list string) (prediction actual : list (list Q)) (c c' : nat) :
  slides ≠ [] →
  length prediction = length slides →
  length actual = length slides →
  Forall (λ r, length r = c) prediction →
  Forall (λ r, length r = c') actual →
  (∃ keys pred_aggregate actual_aggregate,
     aggregate_to_slides slides prediction actual
     = Some (pred_aggregate, actual_aggregate) ∧
     NoDup keys ∧
     (∀ s, s ∈ keys ↔ s ∈ slides) ∧
     Forall2 (mean_of_slide slides prediction c) keys pred_aggregate ∧
     Forall2 (mean_of_slide slides actual c') keys actual_aggregate) ∧
  (∀ (Pixels : Type) (predict : list Pixels → list (list Q))
     (roc_auc_score : list (list Q) → list (list Q) → multi_class → option Q)
     (dataset : list (string * Pixels * list (list Q))),
     (λ e, e.1.1) <$> dataset = slides →
     predict ((λ e, e.1.2) <$> dataset) = prediction →
     (λ e, head e.2) <$> dataset = Some <$> actual →
     ∃ keys pred_aggregate actual_aggregate,
       compute_roc_auc Pixels predict roc_auc_score dataset
       = roc_auc_score actual_aggregate pred_aggregate ovr ∧
       NoDup keys ∧
       (∀ s, s ∈ keys ↔ s ∈ slides) ∧
       Forall2 (mean_of_slide slides prediction c) keys pred_aggregate ∧
       Forall2 (mean_of_slide slides actual c') keys actual_aggregate).
Proof.
  intros Hne Hlp Hla Hc Hc'.
  destruct (aggregate_to_slides_rows slides prediction actual c c'
              Hne Hlp Hla Hc Hc') as (keys & P & A & Hrun & Hrest).
  split; [by exists keys, P, A|].
  intros Pixels predict roc dataset Hfiles Hpred Hlabels.
  exists keys, P, A. split; [|done].
  unfold compute_roc_auc.
  assert (mapM head ((λ e : string * Pixels * list (list Q), e.2) <$> dataset)
          = Some actual) as ->.
  { apply mapM_Some.
    apply Forall2_fmap_l, Forall2_same_length_lookup.
    split.
    - apply (f_equal length) in Hlabels. by rewrite !length_fmap in Hlabels.
    - intros i e a He Ha. apply (f_equal (.!! i)) in Hlabels.
      rewrite !list_lookup_fmap, He, Ha in Hlabels. simpl in Hlabels.
      by injection Hlabels. }
  simpl. rewrite Hfiles, Hpred, Hrun. done.
Qed.

Lemma aggregate_to_slides_means_witness :
  sample_slides ≠ [] ∧
  length sample_prediction = length sample_slides ∧
  length sample_actual = length sample_slides ∧
  Forall (λ r, length r = 2%nat) sample_prediction ∧
  Forall (λ r, length r = 2%nat) sample_actual ∧
  (∃ keys pred_aggregate actual_aggregate,
     aggregate_to_slides sample_slides sample_prediction sample_actual
     = Some (pred_aggregate, actual_aggregate) ∧
     Forall2 (mean_of_slide sample_slides sample_prediction 2) keys pred_aggregate) ∧
  ∃ keys pred_aggregate actual_aggregate,
    compute_roc_auc nat sample_predict (λ _ _ _, Some 1%Q) sample_dataset
    = Some 1%Q ∧
    Forall2 (mean_of_slide sample_slides sample_actual 2) keys actual_aggregate ∧
    Forall2 (mean_of_slide sample_slides sample_prediction 2) keys pred_aggregate.
Proof.
  assert (sample_slides ≠ []) as H1 by done.
  assert (Forall (λ r, length r = 2%nat) sample_prediction) as H2
    by (repeat constructor).
  assert (Forall (λ r, length r = 2%nat) sample_actual) as H3
    by (repeat constructor).
  split; [exact H1|]. split; [reflexivity|]. split; [reflexivity|].
  split; [exact H2|]. split; [exact H3|].
  destruct (aggregate_to_slides_means sample_slides sample_prediction
              sample_actual 2 2 H1 eq_refl eq_refl H2 H3)
    as [(keys & P & A & Hrun & _ & _ & HP & _) Hroc].
  split; [by exists keys, P, A|].
  destruct (Hroc nat sample_predict (λ _ _ _, Some 1%Q) sample_dataset
              eq_refl eq_refl eq_refl)
    as (keys' & P' & A' & Hauc & _ & _ & HP' & HA').
  exists keys', P', A'. split; [exact Hauc|]. split; [exact HA'|exact HP'].
Defined.

Example aggregate_sample :
  aggregate_to_slides sample_slides sample_prediction sample_actual
  = Some ([[1 # 4; 3 # 4]; [3 # 4; 1 # 4]], [[0; 1]; [2 # 2; 0 # 2]])%Q.
Proof. vm_compute. reflexivity. Qed.

End SlideAucRocFacts.

(** * Further properties of the code *)

(** ** Sample labels and the per-label groups *)

(** [get_sample_label] returns the first label, in dictionary order, whose
    sample list holds the sample, and raises exactly when no list holds it. *)
Theorem get_sample_label_first sample sample_labels :
  match get_sample_label sample sample_labels with
  | Some label =>
      ∃ before samples after,
        sample_labels = before ++ (label, samples) :: after ∧
        sample ∈ samples ∧
        Forall (λ entry, sample ∉ entry.2) before
  | None => Forall (λ entry, sample ∉ entry.2) sample_labels
  end.
Proof.
  induction sample_labels as [|[label samples] rest IH]; simpl; [constructor|].
  case_bool_decide as Hin.
  - exists [], samples, rest. split; [done|]. split; [done|constructor].
  - destruct (get_sample_label sample rest) as [label'|].
    + destruct IH as (before & samples' & after & -> & Hin' & Hbefore).
      exists ((label, samples) :: before), samples', after.
      split; [done|]. split; [done|]. by constructor.
    + by constructor.
Qed.

Lemma setdefault_append_keys {V} k (v : V) d :
  (setdefault_append k v d).*1 = if decide (k ∈ d.*1) then d.*1 else d.*1 ++ [k].
Proof.
  induction d as [|[k' vs] d IH].
  - cbn. destruct (decide (k ∈ [])) as [Hin|_]; [by apply elem_of_nil in Hin|].
    reflexivity.
  - cbn. destruct (decide (k = k')) as [->|Hne]; cbn.
    + destruct (decide (k' ∈ k' :: d.*1)) as [_|Hin]; [reflexivity|].
      exfalso. apply Hin. by left.
    + rewrite IH.
      destruct (decide (k ∈ d.*1)) as [Hin|Hin],
        (decide (k ∈ k' :: d.*1)) as [Hin'|Hin']; try reflexivity.
      * exfalso. apply Hin'. by right.
      * exfalso. apply elem_of_cons in Hin' as [?|?]; done.
Qed.

Lemma setdefault_append_NoDup {V} k (v : V) d :
  NoDup d.*1 → NoDup (setdefault_append k v d).*1.
Proof.
  intros Hnd. rewrite setdefault_append_keys. case_decide; [done|].
  apply NoDup_app. split; [done|]. split; [|apply NoDup_singleton].
  intros x Hx ->%list_elem_of_singleton. done.
Qed.

Lemma setdefault_append_concat {V} k (v : V) d :
  concat (setdefault_append k v d).*2 ≡ₚ v :: concat d.*2.
Proof.
  induction d as [|[k' vs] d IH]; simpl; [done|].
  destruct (decide (k = k')) as [->|Hne]; simpl.
  - rewrite <- app_assoc. simpl. by rewrite <- Permutation_middle.
  - rewrite IH. by rewrite <- Permutation_middle.
Qed.

Lemma setdefault_append_groups {V} (P : string → list V → Prop) k (v : V) d :
  Forall (λ g, P g.1 g.2) d →
  (∀ vs, P k vs → P k (vs ++ [v])) → P k [v] →
  Forall (λ g, P g.1 g.2) (setdefault_append k v d).
Proof.
  intros Hd Hext Hnew. induction Hd as [|[k' vs] d Hg Hd IH]; simpl.
  - by repeat constructor.
  - destruct (decide (k = k')) as [->|Hne]; constructor; simpl in *; auto.
Qed.

Section GroupFacts.
Variable basenameJPG : string → string.
Variable shuffle : list string → list string.

Lemma group_by_label_groups files sample_labels :
  match group_by_label basenameJPG files sample_labels with
  | Some file_labels =>
      NoDup file_labels.*1 ∧
      concat file_labels.*2 ≡ₚ files ∧
      Forall (λ g, g.2 ≠ [] ∧
                   Forall (λ file, get_sample_label (basenameJPG file) sample_labels
                                   = Some g.1) g.2) file_labels
  | None =>
      Exists (λ file, get_sample_label (basenameJPG file) sample_labels = None) files
  end.
Proof.
  unfold group_by_label.
  induction files as [|file files IH] using rev_ind; simpl.
  { split; [constructor|]. split; [done|constructor]. }
  rewrite foldl_app. simpl.
  destruct (foldl _ (Some []) files) as [file_labels|]; simpl.
  - destruct IH as (Hnd & Hperm & Hgroups).
    destruct (get_sample_label (basenameJPG file) sample_labels) as [label|] eqn:Hl;
      simpl.
    + split; [by apply setdefault_append_NoDup|]. split.
      * rewrite setdefault_append_concat, Hperm.
        by rewrite <- Permutation_cons_append.
      * apply (setdefault_append_groups
                 (λ l fs, fs ≠ [] ∧
                          Forall (λ f, get_sample_label (basenameJPG f) sample_labels
                                       = Some l) fs)); [done|..].
        -- intros vs [Hne Hall]. split; [by destruct vs|].
           apply Forall_app. split; [done|]. by repeat constructor.
        -- split; [done|]. by repeat constructor.
    + apply Exists_app. right. by constructor.
  - apply Exists_app. by left.
Qed.

(** [group_by_label] raises exactly when some file has no label; otherwise
    its groups have distinct labels, none is empty, every file sits in the
    group of its own label and the groups together hold the files, each as
    often as the input does. *)
Theorem group_by_label_partition files sample_labels :
  match group_by_label basenameJPG files sample_labels with
  | Some file_labels =>
      NoDup file_labels.*1 ∧
      concat file_labels.*2 ≡ₚ files ∧
      Forall (λ g, g.2 ≠ [] ∧
                   Forall (λ file, get_sample_label (basenameJPG file) sample_labels
                                   = Some g.1) g.2) file_labels
  | None =>
      Exists (λ file, get_sample_label (basenameJPG file) sample_labels = None) files
  end.
Proof. exact (group_by_label_groups files sample_labels). Qed.

End GroupFacts.

(** ** The split as a whole *)

Section SplitFacts.
Variable basenameJPG : string → string.
Variable shuffle : list string → list string.
Hypothesis shuffle_perm : ∀ l, Permutation (shuffle l) l.

(** Whatever integer [num_val] is, the two slices are parts of the shuffled
    list and leave no element out: the validation slice starts no later
    than the train slice ends. *)
Lemma split_label_Some v l t va :
  split_label shuffle v l = Some (t, va) →
  t ⊆+ l ∧ va ⊆+ l ∧ ∀ file, file ∈ l ↔ file ∈ t ∨ file ∈ va.
Proof.
  unfold split_label. destruct (num_val_of v (length l)) as [nv|]; [|done].
  simpl. intros [= <- <-].
  assert (shuffle l ⊆+ l) as Hsub by (by rewrite (shuffle_perm l)).
  assert (length (shuffle l) = length l) as Hlen
    by apply Permutation_length, shuffle_perm.
  set (s := shuffle l) in *.
  assert (∃ T D, Py.slice_to (Z.of_nat (length l) - nv) s = take T s ∧
                 Py.slice_from (- nv) s = drop D s ∧ (D ≤ T)%nat)
    as (T & D & -> & -> & HDT).
  { unfold Py.slice_to, Py.slice_from. rewrite Hlen.
    destruct (Z.ltb_spec (Z.of_nat (length l) - nv) 0),
      (Z.ltb_spec (- nv) 0); eexists _, _;
      (split; [reflexivity|]; split; [reflexivity|]; lia). }
  split; [etrans; [apply submseteq_take|done]|].
  split; [etrans; [apply submseteq_drop|done]|].
  intros file. rewrite <- (shuffle_perm l). fold s. split.
  - intros Hin. rewrite <- (take_drop T s) in Hin.
    apply elem_of_app in Hin as [Hin|Hin]; [by left|right].
    replace T with (D + (T - D))%nat in Hin by lia.
    rewrite <- drop_drop in Hin.
    eapply elem_of_submseteq; [exact Hin|apply submseteq_drop].
  - intros [Hin|Hin].
    + eapply elem_of_submseteq; [exact Hin|apply submseteq_take].
    + eapply elem_of_submseteq; [exact Hin|apply submseteq_drop].
Qed.

Lemma split_label_None v l :
  split_label shuffle v l = None ↔ num_val_of v (length l) = None.
Proof.
  unfold split_label. by destruct (num_val_of v (length l)) as [nv|].
Qed.

Lemma split_fold_None v (groups : list (string * list string)) :
  foldl
    (λ acc '(_, label_files),
       '(train_files, validation_files) ← acc;
       '(t, va) ← split_label shuffle v label_files;
       Some (train_files ++ t, validation_files ++ va))
    None groups = None.
Proof. induction groups as [|[label l] groups IH]; [done|]. simpl. exact IH. Qed.

(** The loop over the labels: one split per label, in order. *)
Lemma split_fold v (groups : list (string * list string)) train validation :
  foldl
    (λ acc '(_, label_files),
       '(train_files, validation_files) ← acc;
       '(t, va) ← split_label shuffle v label_files;
       Some (train_files ++ t, validation_files ++ va))
    (Some (train, validation)) groups
  = parts ← mapM (λ g : string * list string, split_label shuffle v g.2) groups;
    Some (train ++ concat parts.*1, validation ++ concat parts.*2).
Proof.
  revert train validation.
  induction groups as [|[label l] groups IH]; intros train validation.
  { simpl. by rewrite !app_nil_r. }
  cbn -[split_label].
  destruct (split_label shuffle v l) as [[t va]|] eqn:Hsplit; cbn -[split_label].
  - rewrite IH. destruct (mapM _ groups) as [parts|]; simpl; [|done].
    by rewrite <- !app_assoc.
  - apply split_fold_None.
Qed.

(** [get_train_valid_split] raises exactly when some file has no label or
    [int] raises on the float product of some label (an infinite or nan
    [validation_split]); otherwise, whatever the validation fraction, every
    input file lands in the train or in the validation output, and each
    output holds input files only, none more often than the input does. *)
Theorem get_train_valid_split_cover files sample_labels v :
  match get_train_valid_split basenameJPG shuffle files sample_labels v with
  | Some (train_files, validation_files) =>
      Forall (λ file, is_Some (get_sample_label (basenameJPG file) sample_labels))
        files ∧
      (∃ file_labels,
         group_by_label basenameJPG files sample_labels = Some file_labels ∧
         Forall (λ g : string * list string,
                   is_Some (num_val_of v (length g.2))) file_labels) ∧
      (∀ file, file ∈ files ↔ file ∈ train_files ∨ file ∈ validation_files) ∧
      train_files ⊆+ files ∧ validation_files ⊆+ files
  | None =>
      Exists (λ file, get_sample_label (basenameJPG file) sample_labels = None)
        files ∨
      ∃ file_labels,
        group_by_label basenameJPG files sample_labels = Some file_labels ∧
        Exists (λ g : string * list string,
                  num_val_of v (length g.2) = None) file_labels
  end.
Proof.
  unfold get_train_valid_split.
  pose proof (group_by_label_groups basenameJPG files sample_labels) as Hgroups.
  destruct (group_by_label basenameJPG files sample_labels) as [groups|];
    cbn -[split_label]; [|by left].
  destruct Hgroups as (_ & Hperm & Hlabels). rewrite split_fold.
  destruct (mapM _ groups) as [parts|] eqn:Hparts; cbn -[split_label].
  - apply mapM_Some in Hparts.
    assert (Forall (λ file, is_Some (get_sample_label (basenameJPG file)
                                       sample_labels)) (concat groups.*2))
      as Hall.
    { clear Hperm Hparts. induction Hlabels as [|g groups [_ Hg] _ IH]; simpl;
        [constructor|].
      apply Forall_app. split; [|done].
      eapply Forall_impl; [exact Hg|]. intros file ->. by eexists. }
    assert (Forall (λ g : string * list string,
                      is_Some (num_val_of v (length g.2))) groups) as Hnum.
    { clear Hperm Hlabels Hall.
      induction Hparts as [|g p groups parts Hg _ IH]; constructor; [|done].
      destruct (num_val_of v (length g.2)) as [nv|] eqn:Hnv; [by eexists|].
      apply split_label_None in Hnv. congruence. }
    assert ((∀ file, file ∈ concat groups.*2 ↔
               file ∈ concat parts.*1 ∨ file ∈ concat parts.*2) ∧
            concat parts.*1 ⊆+ concat groups.*2 ∧
            concat parts.*2 ⊆+ concat groups.*2) as (Hcover & Ht & Hv).
    { clear Hperm Hlabels Hall Hnum.
      induction Hparts as [|[label l] [t va] groups parts Hg _ (IHc & IHt & IHv)];
        simpl.
      { split; [|done]. intros file. split; [by intros ?%elem_of_nil|].
        by intros [?%elem_of_nil|?%elem_of_nil]. }
      simpl in Hg. apply split_label_Some in Hg as (Ht & Hva & Hc).
      split; [|split; by apply submseteq_app].
      intros file. rewrite !elem_of_app, (Hc file), IHc. tauto. }
    split; [by rewrite <- Hperm|]. split; [by exists groups|].
    split; [|split].
    + intros file. rewrite <- Hperm. apply Hcover.
    + by rewrite <- Hperm.
    + by rewrite <- Hperm.
  - right. exists groups. split; [done|].
    apply mapM_None in Hparts. eapply Exists_impl; [exact Hparts|].
    intros g Hg. by apply split_label_None.
Qed.

(** When every label has between 1 and all of its slides in validation
    ([1 <= int(k*v) <= k] for the float product), the two outputs together
    are the input files, and the validation output has as many files as the
    counts [int(k*v)] add up to. *)
Theorem get_train_valid_split_partition files sample_labels v file_labels :
  group_by_label basenameJPG files sample_labels = Some file_labels →
  Forall (λ g : string * list string,
            ∃ num_val, num_val_of v (length g.2) = Some num_val ∧
                       1 ≤ num_val ≤ Z.of_nat (length g.2)) file_labels →
  ∃ train_files validation_files,
    get_train_valid_split basenameJPG shuffle files sample_labels v
    = Some (train_files, validation_files) ∧
    train_files ++ validation_files ≡ₚ files ∧
    Z.of_nat (length validation_files)
    = foldr Z.add 0
        ((λ g : string * list string,
            default 0 (num_val_of v (length g.2))) <$> file_labels).
Proof.
  intros Hgroups Hall. unfold get_train_valid_split. rewrite Hgroups.
  cbn -[split_label]. rewrite split_fold.
  pose proof (group_by_label_groups basenameJPG files sample_labels) as Hpart.
  rewrite Hgroups in Hpart. destruct Hpart as (_ & Hperm & _).
  assert (∃ parts,
            mapM (λ g : string * list string, split_label shuffle v g.2) file_labels
            = Some parts ∧
            concat parts.*1 ++ concat parts.*2 ≡ₚ concat file_labels.*2 ∧
            Z.of_nat (length (concat parts.*2))
            = foldr Z.add 0
                ((λ g : string * list string,
                    default 0 (num_val_of v (length g.2))) <$> file_labels))
    as (parts & -> & Hp & Hl).
  { clear Hperm Hgroups.
    induction Hall as [|[label l] groups (nv & Hnv & Hrange) _
                         (parts & Hparts & IHp & IHl)].
    { exists []. done. }
    simpl in Hnv, Hrange.
    destruct (split_label_partition shuffle shuffle_perm v l nv Hnv Hrange)
      as (t & va & Hsplit & Happ & Hva & _).
    exists ((t, va) :: parts). split.
    { apply mapM_Some. constructor; [done|]. by apply mapM_Some. }
    csimpl. split.
    - rewrite <- (shuffle_perm l), <- Happ, <- IHp.
      rewrite <- !app_assoc. apply Permutation_app_head.
      rewrite !app_assoc. apply Permutation_app_tail, Permutation_app_comm.
    - rewrite length_app, Nat2Z.inj_add, IHl, Hva, Hnv. done. }
  simpl. eexists _, _. split; [done|]. split; [by rewrite <- Hperm|done].
Qed.

End SplitFacts.

Lemma get_train_valid_split_cover_witness :
  (∀ l : list string, Permutation (reverse l) l) ∧
  ∃ train_files validation_files,
    get_train_valid_split (λ file, file) reverse three_slides
      [("L", three_slides)] one_fifth = Some (train_files, validation_files) ∧
    train_files ⊆+ three_slides.
Proof.
  assert (∀ l : list string, Permutation (reverse l) l) as Hperm
    by (intros l; rewrite reverse_Permutation; reflexivity).
  split; [exact Hperm|].
  pose proof (get_train_valid_split_cover (λ file, file) reverse Hperm
                three_slides [("L", three_slides)] one_fifth) as Hcover.
  destruct (get_train_valid_split (λ file, file) reverse three_slides
              [("L", three_slides)] one_fifth) as [[t va]|] eqn:Hrun.
  - exists t, va. split; [reflexivity|].
    exact (proj1 (proj2 (proj2 (proj2 Hcover)))).
  - exfalso. vm_compute in Hrun. discriminate Hrun.
Defined.

Lemma get_train_valid_split_partition_witness :
  (∀ l : list string, Permutation (reverse l) l) ∧
  group_by_label (λ file, file) ten_slides [("L", ten_slides)]
  = Some [("L", ten_slides)] ∧
  ∃ train_files validation_files,
    get_train_valid_split (λ file, file) reverse ten_slides
      [("L", ten_slides)] one_fifth = Some (train_files, validation_files) ∧
    Z.of_nat (length validation_files) = 2.
Proof.
  assert (∀ l : list string, Permutation (reverse l) l) as Hperm
    by (intros l; rewrite reverse_Permutation; reflexivity).
  assert (group_by_label (λ file, file) ten_slides [("L", ten_slides)]
          = Some [("L", ten_slides)]) as Hgroups by (vm_compute; reflexivity).
  split; [exact Hperm|]. split; [exact Hgroups|].
  destruct (get_train_valid_split_partition (λ file, file) reverse Hperm
              ten_slides [("L", ten_slides)] one_fifth _ Hgroups)
    as (t & va & Hrun & _ & Hlen).
  { repeat constructor. exists 2. split; [by vm_compute|]. simpl. lia. }
  exists t, va. split; [exact Hrun | exact Hlen].
Defined.

(** ** Augmentation factors: keys, errors and the caller's minimum *)

Section AugmentationFactorMore.
Context `{Countable K}.
Implicit Types (d : gmap K Z) (m n : Z).

Lemma augmentation_entry_None m n :
  augmentation_entry m n = None ↔ n = 0 ∧ m ≠ 0.
Proof.
  unfold augmentation_entry, Py.round_div.
  destruct (Z.eqb_spec n m) as [->|Hne].
  { split; [done|]. by intros [-> ?]. }
  destruct (Z.eqb_spec n 0) as [->|Hnz]; simpl.
  - split; [|done]. intros _. split; [done|]. by intros ->.
  - split; [done|]. by intros [? _].
Qed.

Lemma augmentation_entry_count m n e :
  augmentation_entry m n = Some e → e.1 = n.
Proof.
  unfold augmentation_entry. destruct (n =? m); [by intros [= <-]|].
  destruct (Py.round_div _ _); simpl; [by intros [= <-]|done].
Qed.

Lemma calc_augmentation_factor_entries d m new :
  calc_augmentation_factor d m = Some new →
  ∀ key n, d !! key = Some n →
    ∃ e, augmentation_entry m n = Some e ∧ new !! key = Some e.
Proof.
  unfold calc_augmentation_factor. revert new.
  apply (map_fold_weak_ind (λ r d',
    ∀ new, r = Some new →
      ∀ key n, d' !! key = Some n →
        ∃ e, augmentation_entry m n = Some e ∧ new !! key = Some e)).
  - intros new _ key n Hkey. by rewrite lookup_empty in Hkey.
  - intros i x d' r Hi IH new Hrun key n Hkey.
    destruct r as [new'|]; [|done]. simpl in Hrun.
    destruct (augmentation_entry m x) as [e|] eqn:He; [|done].
    simpl in Hrun. injection Hrun as <-.
    destruct (decide (i = key)) as [->|Hne].
    + rewrite lookup_insert_eq in Hkey. injection Hkey as <-.
      exists e. by rewrite lookup_insert_eq.
    + rewrite lookup_insert_ne in Hkey by done.
      destruct (IH new' eq_refl key n Hkey) as (e' & He' & Hlook).
      exists e'. by rewrite lookup_insert_ne.
Qed.

(** [calc_augmentation_factor] raises (a division by zero) exactly when a
    class has count 0 while [smallest_num_tiles] is not 0; otherwise the
    result has the classes of the input and holds each class's count
    unchanged beside its factor. *)
Theorem calc_augmentation_factor_keys d m :
  match calc_augmentation_factor d m with
  | Some new =>
      dom new = dom d ∧
      (∀ key n, d !! key = Some n → ∃ f, new !! key = Some (n, f)) ∧
      ¬ (∃ key, d !! key = Some 0 ∧ m ≠ 0)
  | None => ∃ key, d !! key = Some 0 ∧ m ≠ 0
  end.
Proof.
  pose proof (calc_augmentation_factor_spec d m) as Hspec.
  destruct (calc_augmentation_factor d m) as [new|] eqn:Hrun.
  - pose proof (calc_augmentation_factor_entries d m new Hrun) as Hentries.
    split; [|split].
    + apply set_eq. intros key. rewrite !elem_of_dom, Hspec.
      destruct (d !! key) as [n|] eqn:Hkey; simpl.
      * destruct (Hentries key n Hkey) as (e & -> & _). done.
      * split; by intros [? ?].
    + intros key n Hkey. destruct (Hentries key n Hkey) as ([n' f] & He & Hlook).
      apply augmentation_entry_count in He. simpl in He. subst n'. eauto.
    + intros (key & Hkey & Hm).
      destruct (Hentries key 0 Hkey) as (e & He & _).
      assert (augmentation_entry m 0 = None) as Hnone
        by (by apply augmentation_entry_None).
      congruence.
  - destruct Hspec as (key & n & Hkey & Hnone).
    apply augmentation_entry_None in Hnone as [-> Hm]. eauto.
Qed.

Lemma smallest_num_tiles_of_bounds d :
  smallest_num_tiles_of d ≤ maxsize ∧
  (∀ key n, d !! key = Some n → smallest_num_tiles_of d ≤ n) ∧
  (smallest_num_tiles_of d = maxsize ∨
   ∃ key, d !! key = Some (smallest_num_tiles_of d)).
Proof.
  unfold smallest_num_tiles_of.
  apply (map_fold_weak_ind (λ r d',
    r ≤ maxsize ∧ (∀ key n, d' !! key = Some n → r ≤ n) ∧
    (r = maxsize ∨ ∃ key, d' !! key = Some r))).
  - split; [done|]. split; [|by left]. intros key n Hkey.
    by rewrite lookup_empty in Hkey.
  - intros i x d' r Hi (Hmax & Hlow & Hatt).
    destruct (Z.ltb_spec x r).
    + split; [lia|]. split.
      * intros key n. destruct (decide (i = key)) as [->|Hne].
        -- rewrite lookup_insert_eq. intros [= <-]. lia.
        -- rewrite lookup_insert_ne by done. intros Hkey.
           specialize (Hlow key n Hkey). lia.
      * right. exists i. by rewrite lookup_insert_eq.
    + split; [done|]. split.
      * intros key n. destruct (decide (i = key)) as [->|Hne].
        -- rewrite lookup_insert_eq. intros [= <-]. lia.
        -- rewrite lookup_insert_ne by done. apply Hlow.
      * destruct Hatt as [?|[key Hkey]]; [by left|]. right. exists key.
        rewrite lookup_insert_ne; [done|]. intros ->. congruence.
Qed.

(** The minimum [slides_to_tiles] computes: a lower bound of the counts
    that is never above [sys.maxsize], and either [sys.maxsize] itself or
    the count of some class. *)
Theorem smallest_num_tiles_of_min d :
  smallest_num_tiles_of d ≤ maxsize ∧
  (∀ key n, d !! key = Some n → smallest_num_tiles_of d ≤ n) ∧
  (smallest_num_tiles_of d = maxsize ∨
   ∃ key, d !! key = Some (smallest_num_tiles_of d)).
Proof. exact (smallest_num_tiles_of_bounds d). Qed.

(** Composition in [slides_to_tiles]: for counts between 0 and
    [sys.maxsize] (exclusive), calling [calc_augmentation_factor] with the
    computed minimum never raises, every factor lies between 0 and 8, and
    when there is at least one class some class receives the factor 8. *)
Theorem calc_augmentation_factor_with_smallest d :
  map_Forall (λ _ n, 0 ≤ n < maxsize) d →
  ∃ new,
    calc_augmentation_factor d (smallest_num_tiles_of d) = Some new ∧
    (∀ key n f, new !! key = Some (n, f) → 0 ≤ f ≤ 8) ∧
    (d ≠ ∅ → ∃ key n, new !! key = Some (n, 8) ∧ n = smallest_num_tiles_of d).
Proof.
  intros Hrange.
  destruct (smallest_num_tiles_of_bounds d) as (_ & Hlow & Hatt).
  set (m := smallest_num_tiles_of d) in *.
  assert (d ≠ ∅ → ∃ key, d !! key = Some m) as Hattained.
  { intros Hne. destruct Hatt as [Hmax|?]; [|done].
    destruct (map_choose d Hne) as (key & n & Hkey).
    specialize (Hlow key n Hkey). specialize (Hrange key n Hkey). simpl in Hrange.
    lia. }
  assert (0 ≤ m) as Hm.
  { destruct (decide (d = ∅)) as [->|Hne]; [by vm_compute|].
    destruct (Hattained Hne) as (key & Hkey).
    specialize (Hrange key m Hkey). simpl in Hrange. lia. }
  pose proof (calc_augmentation_factor_spec d m) as Hspec.
  destruct (calc_augmentation_factor d m) as [new|] eqn:Hrun.
  - exists new. split; [done|]. split.
    + intros key n f Hnew. rewrite Hspec in Hnew.
      destruct (d !! key) as [n'|] eqn:Hkey; [|done]. simpl in Hnew.
      specialize (Hlow key n' Hkey).
      rewrite augmentation_entry_min in Hnew by lia.
      injection Hnew as <- <-.
      destruct (Z.eqb_spec n' m); [lia|].
      assert (0 < n') by lia.
      pose proof (round_half_even_nonneg (m * 8) n').
      pose proof (round_half_even_le (m * 8) n' 8). lia.
    + intros Hne. destruct (Hattained Hne) as (key & Hkey).
      exists key, m. split; [|done]. rewrite Hspec, Hkey. simpl.
      rewrite augmentation_entry_min by lia. by rewrite Z.eqb_refl.
  - destruct Hspec as (key & n & Hkey & Hnone).
    specialize (Hlow key n Hkey).
    rewrite augmentation_entry_min in Hnone by lia. done.
Qed.

End AugmentationFactorMore.

Lemma calc_augmentation_factor_with_smallest_witness :
  map_Forall (λ _ n, 0 ≤ n < maxsize) example_counts ∧
  smallest_num_tiles_of example_counts = 197 ∧
  ∃ new, calc_augmentation_factor example_counts
           (smallest_num_tiles_of example_counts) = Some new.
Proof.
  assert (map_Forall (λ _ n, 0 ≤ n < maxsize) example_counts) as Hrange
    by (by apply (bool_decide_unpack _); vm_compute).
  split; [exact Hrange|]. split; [vm_compute; reflexivity|].
  destruct (calc_augmentation_factor_with_smallest example_counts Hrange)
    as (new & Hrun & _).
  exists new. exact Hrun.
Defined.

(** ** Augmentation: derived names *)

Module AugmentationResultFacts.
Import Augmentation AugmentationResult.

Lemma string_length_app (a b : string) :
  String.length (a +:+ b) = (String.length a + String.length b)%nat.
Proof.
  induction a as [|c a IH]; [reflexivity|].
  change (S (String.length (a +:+ b)) = S (String.length a + String.length b)).
  by rewrite IH.
Qed.

Lemma string_app_assoc (a b c : string) : (a +:+ b) +:+ c = a +:+ (b +:+ c).
Proof.
  induction a as [|ch a IH]; [reflexivity|].
  change (String ch ((a +:+ b) +:+ c) = String ch (a +:+ (b +:+ c))).
  by rewrite IH.
Qed.

Lemma append_inv_tail (a b s : string) : a +:+ s = b +:+ s → a = b.
Proof.
  revert b. induction a as [|c a IH]; intros [|c' b] Heq.
  - done.
  - apply (f_equal String.length) in Heq.
    rewrite !string_length_app in Heq. simpl in Heq. lia.
  - apply (f_equal String.length) in Heq.
    rewrite !string_length_app in Heq. simpl in Heq. lia.
  - injection Heq as -> Heq. f_equal. by apply IH.
Qed.

Lemma augment_file_name_tag file_name i :
  augment_file_name file_name i
  = str_to (rfind "." file_name) file_name
    +:+ ("_" +:+ (augment_tag i +:+ str_from (rfind "." file_name) file_name)).
Proof.
  unfold augment_file_name, augment_tag. cbv zeta. by rewrite string_app_assoc.
Qed.

(** The derived name is longer than the file name it comes from whenever
    the two slices put the name back together, so it never names the
    original. *)
Lemma augment_file_name_tag_inj file_name i j :
  augment_file_name file_name i = augment_file_name file_name j →
  augment_tag i = augment_tag j.
Proof.
  rewrite !augment_file_name_tag. intros Heq.
  apply TileNameFacts.append_inv_head in Heq.
  injection Heq as Heq. apply (TileNameFacts.append_inv_head "") in Heq.
  by apply append_inv_tail in Heq.
Qed.

(** The seven names derived from one file ([i] from 1 to 7, the most a
    factor of 8 asks for) are pairwise distinct, whatever the file name;
    an eighth would repeat the fourth. *)
Theorem augment_file_names_distinct file_name i j :
  1 ≤ i ≤ 7 → 1 ≤ j ≤ 7 →
  (augment_file_name file_name i = augment_file_name file_name j → i = j) ∧
  augment_file_name file_name 8 = augment_file_name file_name 4.
Proof.
  intros Hi Hj. split; [|by rewrite !augment_file_name_tag].
  intros Heq%augment_file_name_tag_inj.
  assert (i = 1 ∨ i = 2 ∨ i = 3 ∨ i = 4 ∨ i = 5 ∨ i = 6 ∨ i = 7) as Hi' by lia.
  assert (j = 1 ∨ j = 2 ∨ j = 3 ∨ j = 4 ∨ j = 5 ∨ j = 6 ∨ j = 7) as Hj' by lia.
  clear Hi Hj.
  repeat (destruct Hi' as [->|Hi']); try subst i;
    repeat (destruct Hj' as [->|Hj']); try subst j;
    try reflexivity; exfalso; vm_compute in Heq; discriminate Heq.
Qed.

Lemma augment_file_names_distinct_witness :
  1 ≤ 2 ≤ 7 ∧ 1 ≤ 6 ≤ 7 ∧
  augment_file_name "t/a_3_4.jpeg" 2 ≠ augment_file_name "t/a_3_4.jpeg" 6.
Proof.
  assert (1 ≤ 2 ≤ 7) as H2 by lia. assert (1 ≤ 6 ≤ 7) as H6 by lia.
  split; [exact H2|]. split; [exact H6|].
  intros Heq.
  pose proof (proj1 (augment_file_names_distinct "t/a_3_4.jpeg" 2 6 H2 H6) Heq).
  lia.
Defined.

(** ** Augmentation: what a run leaves *)

Section Run.
Variable can_save : string → bool.

Lemma augment_step_run img file_name new_list i (d d1 : disk) new_list1 :
  augment_step can_save img file_name new_list i d = Some (d1, new_list1) →
  files d ⊆ files d1 ∧
  dom (files d1) = dom (files d) ∪ {[augment_file_name file_name i]} ∧
  new_list1 = new_list ++ [augment_file_name file_name i].
Proof.
  unfold augment_step, bind, path_exists, rotate_and_mirror_tile, save, ret.
  case_bool_decide as Hin.
  - intros [= <- <-]. split; [done|]. split; [|done].
    apply elem_of_dom in Hin. symmetry. rewrite (comm_L (∪)).
    apply subseteq_union_1_L. by apply singleton_subseteq_l.
  - destruct img; try done. destruct (can_save _); [|done].
    intros [= <- <-]. simpl. split.
    + apply insert_subseteq. by apply eq_None_not_Some.
    + split; [|done]. rewrite dom_insert_L. apply (comm_L (∪)).
Qed.

Lemma foldM_augment_step img file_name new_list (l : list Z) (d d1 : disk)
    new_list1 :
  foldM (augment_step can_save img file_name) new_list l d = Some (d1, new_list1) →
  files d ⊆ files d1 ∧
  dom (files d1) = dom (files d) ∪ list_to_set (augment_file_name file_name <$> l) ∧
  new_list1 = new_list ++ (augment_file_name file_name <$> l).
Proof.
  revert new_list d. induction l as [|i l IH]; intros new_list d.
  - cbn [foldM]. unfold ret. intros [= <- <-]. split; [done|].
    rewrite app_nil_r. split; [|done].
    change (list_to_set (augment_file_name file_name <$> []))
      with (∅ : gset string).
    by rewrite (right_id_L ∅ (∪)).
  - cbn [foldM]. unfold bind at 1.
    destruct (augment_step can_save img file_name new_list i d)
      as [[d' nl']|] eqn:Hstep; [|done].
    apply augment_step_run in Hstep as (Hsub & Hdom & ->).
    intros (Hsub' & Hdom' & ->)%IH.
    split; [by etrans|]. rewrite <- app_assoc. split; [|done].
    rewrite Hdom', Hdom, fmap_cons, list_to_set_cons. by rewrite (assoc_L (∪)).
Qed.

Lemma augment_file_run plan label new_list file_name (d d1 : disk) new_list1 :
  augment_file can_save plan label new_list file_name d = Some (d1, new_list1) →
  is_Some (files d !! file_name) ∧ is_Some (plan !! label) ∧
  files d ⊆ files d1 ∧
  dom (files d1)
  = dom (files d) ∪ list_to_set (derived_names file_name (factor_of plan label)) ∧
  new_list1 = new_list ++ derived_names file_name (factor_of plan label).
Proof.
  unfold augment_file, bind at 1, open.
  destruct (files d !! file_name) as [kind|] eqn:Hfile; [|done].
  assert (∀ img,
            bind (lift (plan !! label))
              (λ entry, foldM (augment_step can_save img file_name) new_list
                          (seqZ 1 (entry.2 - 1))) d = Some (d1, new_list1) →
            is_Some (Some kind) ∧ is_Some (plan !! label) ∧
            files d ⊆ files d1 ∧
            dom (files d1)
            = dom (files d) ∪
              list_to_set (derived_names file_name (factor_of plan label)) ∧
            new_list1 = new_list ++ derived_names file_name (factor_of plan label))
    as Hrest.
  { intros img. unfold bind, factor_of.
    destruct (plan !! label) as [entry|]; [|done]. simpl.
    intros (Hsub & Hdom & ->)%foldM_augment_step. done. }
  destruct kind; [apply Hrest..|done].
Qed.

Lemma new_list_of_cons plan label file_name tiles :
  new_list_of plan label (file_name :: tiles)
  = derived_names file_name (factor_of plan label) ++ new_list_of plan label tiles.
Proof. reflexivity. Qed.

Lemma augment_files_run plan label tiles new_list (d d1 : disk) new_list1 :
  foldM (augment_file can_save plan label) new_list tiles d = Some (d1, new_list1) →
  files d ⊆ files d1 ∧
  dom (files d1) = dom (files d) ∪ list_to_set (new_list_of plan label tiles) ∧
  new_list1 = new_list ++ new_list_of plan label tiles ∧
  ∀ file_name, file_name ∈ tiles →
               is_Some (files d1 !! file_name) ∧ is_Some (plan !! label).
Proof.
  revert new_list d. induction tiles as [|file_name tiles IH]; intros new_list d.
  - cbn [foldM]. unfold ret. intros [= <- <-].
    change (new_list_of plan label []) with (@nil string).
    rewrite app_nil_r, list_to_set_nil, (right_id_L ∅ (∪)).
    split; [done|]. split; [done|]. split; [done|]. by intros f ?%elem_of_nil.
  - cbn [foldM]. unfold bind at 1.
    destruct (augment_file can_save plan label new_list file_name d)
      as [[d' nl']|] eqn:Hfile; [|done].
    apply augment_file_run in Hfile as ([kind Hin] & Hplan & Hsub & Hdom & ->).
    intros (Hsub' & Hdom' & -> & Hall)%IH.
    rewrite new_list_of_cons, list_to_set_app_L, app_assoc.
    split; [by etrans|]. split; [by rewrite Hdom', Hdom, (assoc_L (∪))|].
    split; [done|].
    intros f [->|Hf]%elem_of_cons; [|by apply Hall].
    split; [|done]. exists kind.
    eapply lookup_weaken; [exact Hin|by etrans].
Qed.

Lemma augment_slides_run plan label slides (d d1 : disk) slides1 :
  mapM (augment_slide can_save plan label) slides d = Some (d1, slides1) →
  slides1 = (λ slide : string * list string,
               (slide.1, slide.2 ++ new_list_of plan label slide.2)) <$> slides ∧
  files d ⊆ files d1 ∧
  dom (files d1)
  = dom (files d) ∪ list_to_set (slide ← slides; new_list_of plan label slide.2) ∧
  ∀ slide file_name, slide ∈ slides → file_name ∈ slide.2 →
                     is_Some (files d1 !! file_name) ∧ is_Some (plan !! label).
Proof.
  revert d d1 slides1.
  induction slides as [|[slide tiles] slides IH]; intros d d1 slides1.
  - cbn [mapM]. unfold ret. intros [= <- <-]. split; [done|]. split; [done|].
    split; [|by intros sl f ?%elem_of_nil].
    change (list_to_set ([] ≫= _)) with (∅ : gset string).
    by rewrite (right_id_L ∅ (∪)).
  - cbn [mapM]. unfold bind at 1, augment_slide at 1, bind at 1.
    destruct (foldM (augment_file can_save plan label) [] tiles d)
      as [[d' nl]|] eqn:Hfiles; [|done].
    apply augment_files_run in Hfiles as (Hsub0 & Hdom0 & -> & Hall0).
    unfold ret at 1, bind at 1.
    destruct (mapM (augment_slide can_save plan label) slides _)
      as [[d'' slides']|] eqn:Hrest; [|done].
    apply IH in Hrest as (-> & Hsub & Hdom & Hall). unfold bind, ret.
    intros [= <- <-].
    split; [done|]. split; [by etrans|].
    rewrite bind_cons, list_to_set_app_L.
    split; [by rewrite Hdom, Hdom0, (assoc_L (∪))|].
    intros sl f [->|Hsl]%elem_of_cons Hf.
    + destruct (Hall0 f Hf) as [[kind Hkind] ?]. split; [|done].
      exists kind. by eapply lookup_weaken.
    + by apply (Hall sl f).
Qed.

(** When a run of [augment_tiles_based_on_factor] returns, the dictionary
    keeps its labels and slides, every slide's list is its original list
    followed by the derived names of its tiles ([factor - 1] names per tile,
    tile by tile), the files on disk are those there before, as they were,
    together with the derived ones, and every tile of the dictionary could
    be opened and its label had a factor. *)
Theorem augment_result
    (tiles_dict : list (string * list (string * list string)))
    (plan : gmap string (Z * Z)) (d d1 : disk)
    (dict1 : list (string * list (string * list string))) :
  augment_tiles_based_on_factor can_save tiles_dict plan d = Some (d1, dict1) →
  dict1 = augmented tiles_dict plan ∧
  dom (files d1) = dom (files d) ∪ list_to_set (all_derived tiles_dict plan) ∧
  files d ⊆ files d1 ∧
  ∀ entry slide file_name,
    entry ∈ tiles_dict → slide ∈ entry.2 → file_name ∈ slide.2 →
    file_name ∈ dom (files d1) ∧ is_Some (plan !! entry.1).
Proof.
  unfold augment_tiles_based_on_factor, augmented, all_derived.
  revert d d1 dict1.
  induction tiles_dict as [|[label slides] tiles_dict IH]; intros d d1 dict1.
  - cbn [mapM]. unfold ret. intros [= <- <-]. split; [done|].
    split; [|split; [done|by intros e sl f ?%elem_of_nil]].
    change (list_to_set ([] ≫= _)) with (∅ : gset string).
    by rewrite (right_id_L ∅ (∪)).
  - cbn [mapM]. unfold bind at 1 2.
    destruct (mapM (augment_slide can_save plan label) slides d)
      as [[d' slides']|] eqn:Hslides; [|done].
    apply augment_slides_run in Hslides as (-> & Hsub0 & Hdom0 & Hall0).
    unfold ret at 1, bind at 1.
    destruct (mapM _ tiles_dict _) as [[d'' dict']|] eqn:Hrest; [|done].
    apply IH in Hrest as (-> & Hdom & Hsub & Hall). unfold ret.
    intros [= <- <-].
    split; [done|]. rewrite bind_cons, list_to_set_app_L.
    split; [by rewrite Hdom, Hdom0, (assoc_L (∪))|]. split; [by etrans|].
    intros e sl f [->|He]%elem_of_cons Hsl Hf.
    + destruct (Hall0 sl f Hsl Hf) as [[kind Hkind] ?]. split; [|done].
      apply elem_of_dom. exists kind. by eapply lookup_weaken.
    + by apply (Hall e sl f).
Qed.

End Run.

Lemma augment_result_witness :
  ∃ d1,
    augment_tiles_based_on_factor any_name one_tile factor_two one_file
    = Some (d1, [("L", [("s", ["a.jpeg"; "a_90.jpeg"])])]) ∧
    [("L", [("s", ["a.jpeg"; "a_90.jpeg"])])] = augmented one_tile factor_two.
Proof.
  destruct (augment_tiles_based_on_factor any_name one_tile factor_two one_file)
    as [[d1 dict1]|] eqn:Hrun; [|by vm_compute in Hrun].
  assert (dict1 = [("L", [("s", ["a.jpeg"; "a_90.jpeg"])])]) as ->.
  { vm_compute in Hrun. by injection Hrun as <- <-. }
  exists d1. split; [reflexivity|].
  exact (proj1 (augment_result any_name one_tile factor_two one_file d1 _ Hrun)).
Defined.

(** A slide's list grows from [n] to [n * factor] entries for a factor of
    at least 1, and keeps its [n] entries for a factor of 1 or less. *)
Theorem augmented_length plan label (tiles : list string) :
  length (tiles ++ new_list_of plan label tiles)
  = (length tiles * Z.to_nat (Z.max 1 (factor_of plan label)))%nat.
Proof.
  rewrite length_app. unfold new_list_of.
  assert (length (tiles ≫= λ file_name, derived_names file_name (factor_of plan label))
          = (length tiles * Z.to_nat (factor_of plan label - 1))%nat) as ->.
  { induction tiles as [|f tiles IH]; [done|].
    rewrite bind_cons, length_app, IH. unfold derived_names.
    rewrite length_fmap, length_seqZ. simpl. lia. }
  nia.
Qed.

End AugmentationResultFacts.

Lemma augment_returns_witness :
  ∃ d1 dict1,
    Augmentation.augment_tiles_based_on_factor Augmentation.any_name
      Augmentation.one_tile Augmentation.factor_two Augmentation.one_file
    = Some (d1, dict1) ∧
    Augmentation.files Augmentation.one_file ⊆ Augmentation.files d1.
Proof.
  apply (AugmentationFacts.augment_returns Augmentation.any_name).
  intros label slides slide tiles f Hl Hs Hf.
  apply list_elem_of_singleton in Hl. injection Hl as -> ->.
  apply list_elem_of_singleton in Hs. injection Hs as -> ->.
  apply list_elem_of_singleton in Hf. subst f.
  split; [reflexivity|]. exists (1, 2). split; [reflexivity|]. done.
Defined.

(** ** The worker loop *)

Module TileWorkerLoop.
Import TileWorker.

Ltac set_tauto := set_unfold; intros; intuition (subst; auto).

Section Loop.
Variable Tile : Type.
Variable get_tile : option string → nat → nat * nat → option Tile.
Variable convert_L : Tile → list Z.
Variable _write_normalized_image : Tile → string → write_outcome.
Variable write_mask : TileJob → bool.
Variables (slidepath : string) (Bkg ROIpc : Q).

Let run_job' :=
  run_job Tile get_tile convert_L _write_normalized_image write_mask slidepath Bkg ROIpc.
Let run' :=
  run Tile get_tile convert_L _write_normalized_image write_mask slidepath Bkg ROIpc.

(** One job: [task_done] is called once, no file is removed, and the result
    queue either stays as it is or gains the job's output path, which is
    then on disk. *)
Lemma run_job_effect data st :
  tasks_done (run_job' data st) = S (tasks_done st) ∧
  files st ⊆ files (run_job' data st) ∧
  (out_queue (run_job' data st) = out_queue st ∨
   out_queue (run_job' data st) = out_queue st ++ [outfile data] ∧
   outfile data ∈ files (run_job' data st)).
Proof.
  unfold run_job', run_job, filter_and_write.
  destruct (get_tile _ _ _) as [tile|]; simpl; [|by auto].
  destruct (_ && _); simpl; [|by auto].
  destruct (Qle_bool _ _); simpl; [|by auto].
  destruct (_write_normalized_image _ _); simpl; [|by auto..].
  destruct (SaveMasks data), (write_mask data); simpl;
    (split; [done|]); (split; [set_tauto|]); right; (split; [done|]); set_tauto.
Qed.

Lemma run_jobs_then jobs queue st :
  run' ((Some <$> jobs) ++ queue) st
  = run' queue (foldl (λ st data, run_job' data st) st jobs).
Proof.
  revert st. induction jobs as [|data jobs IH]; intros st; [done|].
  simpl. apply IH.
Qed.

(** The loop handles the jobs in front of the first sentinel in order, calls
    [task_done] once for each of them and once for the sentinel, and leaves
    whatever follows the sentinel on the queue untouched; no file is removed;
    the paths it reports are output paths of those jobs, in job order; and if
    every path on the result queue named a file on disk before, this still
    holds afterwards. *)
Theorem run_until_sentinel jobs rest st :
  run' ((Some <$> jobs) ++ None :: rest) st
  = task_done (foldl (λ st data, run_job' data st) st jobs) ∧
  tasks_done (run' ((Some <$> jobs) ++ None :: rest) st)
  = (tasks_done st + length jobs + 1)%nat ∧
  files st ⊆ files (run' ((Some <$> jobs) ++ None :: rest) st) ∧
  (∃ reported,
     out_queue (run' ((Some <$> jobs) ++ None :: rest) st)
     = out_queue st ++ reported ∧
     reported `sublist_of` (outfile <$> jobs)) ∧
  ((∀ path, path ∈ out_queue st → path ∈ files st) →
   ∀ path, path ∈ out_queue (run' ((Some <$> jobs) ++ None :: rest) st) →
           path ∈ files (run' ((Some <$> jobs) ++ None :: rest) st)).
Proof.
  rewrite run_jobs_then. split; [done|]. simpl.
  revert st. induction jobs as [|data jobs IH]; intros st.
  { simpl. split; [lia|]. split; [done|]. split; [|done].
    exists []. by rewrite app_nil_r. }
  simpl. destruct (run_job_effect data st) as (Hdone & Hfiles & Hout).
  destruct (IH (run_job' data st)) as (IHdone & IHfiles & (reported & IHout & IHsub) & IHinv).
  split; [rewrite IHdone, Hdone; lia|]. split; [set_tauto|]. split.
  - destruct Hout as [Hout|[Hout _]]; rewrite IHout, Hout.
    + exists reported. split; [done|]. by apply sublist_cons.
    + exists (outfile data :: reported). rewrite <- app_assoc.
      split; [done|]. by apply sublist_skip.
  - intros Hinv. apply IHinv. intros path.
    destruct Hout as [->|[-> Hin]]; [set_tauto|].
    rewrite elem_of_app, list_elem_of_singleton. intros [?| ->]; [set_tauto|done].
Qed.

End Loop.

End TileWorkerLoop.

(** ** Tiler and worker together *)

Module TilerJobs.
Import TileWorker DeepZoomImageTiler.

Lemma percent_le_one (ROIpc : Q) : (ROIpc <= 100)%Q → (ROIpc / 100 <= 1)%Q.
Proof.
  intros Hle. apply Qle_shift_div_r; [done|]. by rewrite Qmult_1_l.
Qed.

(** Every job [_write_tiles] enqueues names the tiler's image, carries
    [PercentMasked = 1.0], an empty [TileMask] and the tiler's mask switch,
    and its output path is the tile name of its address; hence, for any
    configured ROI minimum of at most 100 percent, a worker accepts its tile
    exactly when the tile has more than 10 distinct values and a background
    fraction of at most [Bkg/100]: the ROI test never rejects. *)
Theorem write_tiles_jobs
    (path_exists : nat → string → bool) (t : Tiler) (st : state) :
  Forall (λ x, ¬ (x == 0)%Q) (level_downsamples (_slide t)) →
  ∃ st' jobs,
    _write_tiles path_exists t st = Some st' ∧
    _queue st' = _queue st ++ jobs ∧
    ∀ job, job ∈ jobs →
      associated job = _associated t ∧
      PercentMasked job = 1%Q ∧ TileMask job = [] ∧
      SaveMasks job = _SaveMasks t ∧ format job = _format t ∧
      (level job < level_count (_dz t))%nat ∧
      outfile job = tilename (_basename t) (address job).1 (address job).2 (_format t) ∧
      outfile_bw job
      = tilename_bw (_basename t) (address job).1 (address job).2 (_format t) ∧
      ∀ (Bkg ROIpc : Q) (gray : list Z),
        (ROIpc <= 100)%Q →
        (passes Bkg ROIpc job gray ↔
         (10 < count_unique gray)%nat ∧ (background_fraction gray <= Bkg / 100)%Q).
Proof.
  intros Hnz.
  assert (∃ visited,
            _write_tiles path_exists t st
            = Some (foldl (visit_address path_exists t) st visited) ∧
            ∀ a, a ∈ visited → (a.1.1 < level_count (_dz t))%nat) as (visited & Hrun & Hlevels).
  { destruct (Objective t) as [o|] eqn:Hobj;
      [destruct (level_downsamples (_slide t)) as [|f0 rest] eqn:Hf|].
    - exists []. unfold _write_tiles. rewrite Hobj, Hf. simpl.
      split; [done|]. by intros a ?%elem_of_nil.
    - exists (addresses t (o / f0)%Q).
      split; [by eapply TilerFacts.write_tiles_addresses|].
      intros [[l r] c] Ha. by apply TilerFacts.addresses_elem in Ha as (? & _).
    - exists []. unfold _write_tiles. rewrite Hobj. simpl.
      split; [done|]. by intros a ?%elem_of_nil. }
  destruct (TilerFacts.visits_run path_exists t visited st)
    as (enq & rep & Hfold & Henq & _).
  rewrite Hfold in Hrun. eexists _, (job_at t <$> enq).
  split; [exact Hrun|]. split; [done|].
  intros job (a & -> & Ha)%list_elem_of_fmap.
  assert (a ∈ visited) as Hvis by (by eapply elem_of_sublist).
  specialize (Hlevels a Hvis). destruct a as [[l r] c]. simpl in *.
  do 5 (split; [done|]). split; [done|]. split; [done|]. split; [done|].
  intros Bkg ROIpc gray Hroi. unfold passes. simpl.
  pose proof (percent_le_one ROIpc Hroi). tauto.
Qed.

Lemma write_tiles_jobs_witness :
  Forall (λ x, ¬ (x == 0)%Q) (level_downsamples (_slide two_levels)) ∧
  ∃ st' jobs,
    _write_tiles (λ _ _, false) two_levels empty_queues = Some st' ∧
    _queue st' = _queue empty_queues ++ jobs.
Proof.
  assert (Forall (λ x, ¬ (x == 0)%Q) (level_downsamples (_slide two_levels)))
    as Hnz by (repeat constructor; by vm_compute).
  split; [exact Hnz|].
  destruct (write_tiles_jobs (λ _ _, false) two_levels empty_queues Hnz)
    as (st' & jobs & Hrun & Hq & _).
  exists st', jobs. split; [exact Hrun | exact Hq].
Defined.

(** When a target magnification is configured and no level has it, the run
    returns without enqueueing or reporting anything and without counting a
    tile. *)
Theorem no_matching_level
    (path_exists : nat → string → bool) (t : Tiler) (st : state) o f0 rest :
  Objective t = Some o →
  level_downsamples (_slide t) = f0 :: rest →
  Forall (λ x, ¬ (x == 0)%Q) (f0 :: rest) →
  (0 < _Mag t)%Q →
  (∀ level, (level < level_count (_dz t))%nat →
            ¬ (o / level_downsample t level == _Mag t)%Q) →
  _write_tiles path_exists t st = Some st.
Proof.
  intros Hobj Hf Hnz Hmag Hnone.
  rewrite (TilerFacts.write_tiles_addresses path_exists t st o f0 rest Hobj Hf Hnz).
  assert (addresses t (o / f0)%Q = []) as ->; [|done].
  apply elem_of_nil_inv. intros [[l r] c] Ha.
  apply TilerFacts.addresses_elem in Ha as (Hl & Hsel & _).
  pose proof (proj1 (TilerFacts.level_selected_iff t o f0 rest l Hf) Hsel Hmag)
    as Heq.
  exact (Hnone l Hl Heq).
Qed.

Lemma no_matching_level_witness :
  Objective two_levels_at_3 = Some 20%Q ∧
  level_downsamples (_slide two_levels_at_3) = [1%Q] ∧
  Forall (λ x, ¬ (x == 0)%Q) [1%Q] ∧
  (0 < _Mag two_levels_at_3)%Q ∧
  (∀ level, (level < level_count (_dz two_levels_at_3))%nat →
            ¬ (20 / level_downsample two_levels_at_3 level == _Mag two_levels_at_3)%Q) ∧
  _write_tiles (λ _ _, false) two_levels_at_3 empty_queues = Some empty_queues.
Proof.
  assert (Forall (λ x, ¬ (x == 0)%Q) [1%Q]) as Hnz
    by (repeat constructor; by vm_compute).
  assert (0 < _Mag two_levels_at_3)%Q as Hmag by (by vm_compute).
  assert (∀ level, (level < level_count (_dz two_levels_at_3))%nat →
                   ¬ (20 / level_downsample two_levels_at_3 level
                      == _Mag two_levels_at_3)%Q) as Hnone.
  { intros level Hlevel. change (level_count (_dz two_levels_at_3)) with 2%nat in Hlevel.
    destruct level as [|[|level]]; [by vm_compute..|lia]. }
  split; [reflexivity|]. split; [reflexivity|]. split; [exact Hnz|].
  split; [exact Hmag|]. split; [exact Hnone|].
  exact (no_matching_level (λ _ _, false) two_levels_at_3 empty_queues
           20%Q 1%Q [] eq_refl eq_refl Hnz Hmag Hnone).
Defined.

End TilerJobs.

(** ** Stain fitting: the sample handed to dictionary learning *)

Module StainSample.

Lemma reshape3_fmap {A B} (f : A → B) (a : list A) :
  reshape3 (f <$> a) = (λ p, (f p.1.1, f p.1.2, f p.2)) <$> reshape3 a.
Proof.
  remember (length a) as n eqn:Hn. revert a Hn.
  induction (lt_wf n) as [n _ IH]. intros a ->.
  destruct a as [|x [|y [|z a]]]; try done.
  simpl. f_equal. eapply IH; [|done]. simpl. lia.
Qed.

Lemma select_masked_nonempty {A} (a : list A) (mask : list bool) :
  length a = length mask → any_true mask = true → select_masked a mask ≠ [].
Proof.
  revert mask. induction a as [|x a IH]; intros [|m mask]; simpl; try done.
  intros [= Hlen]. destruct m; [done|]. simpl. by apply IH.
Qed.

Lemma dark_mask_all (lab_lightness : list Z → list Z) img :
  Forall (λ L, L < 255000) (lab_lightness img) →
  dark_mask lab_lightness img 1000 = (λ _, true) <$> lab_lightness img.
Proof.
  unfold dark_mask. intros Hall. apply list_fmap_ext. intros i L Hi.
  apply TilerFacts.Qlt_bool_iff. apply Qlt_shift_div_r; [done|].
  rewrite Forall_forall in Hall.
  assert (L < 255000) as HL
    by (apply Hall; by eapply list_elem_of_lookup_2).
  unfold Qlt. simpl. lia.
Qed.

(** The mask of [_stain_dict_Vahadane] has one entry per lightness value and
    is never all false for an image with at least one pixel: when neither
    threshold selects a pixel the third test accepts every pixel.  So, when
    the lightness channel has one value per RGB pixel, dictionary learning
    is never handed an empty sample. *)
Theorem luminance_mask_nonempty
    (lab_lightness : list Z → list Z) (img : list Z) (thresh : Q) :
  lab_lightness img ≠ [] →
  Forall (λ L, L < 255000) (lab_lightness img) →
  length (luminance_mask lab_lightness img thresh) = length (lab_lightness img) ∧
  any_true (luminance_mask lab_lightness img thresh) = true ∧
  (length (lab_lightness img) = length (reshape3 img) →
   select_masked (to_OD (zeros_to_one img))
     (luminance_mask lab_lightness img thresh) ≠ []).
Proof.
  intros Hne Hall.
  assert (length (luminance_mask lab_lightness img thresh)
          = length (lab_lightness img)) as Hlen.
  { unfold luminance_mask.
    repeat case_match; unfold dark_mask; by rewrite length_map. }
  assert (any_true (luminance_mask lab_lightness img thresh) = true) as Hany.
  { unfold luminance_mask.
    destruct (any_true (dark_mask lab_lightness img thresh)) eqn:H1; [done|].
    destruct (any_true (dark_mask lab_lightness img (thresh + (1 # 10)))) eqn:H2;
      [done|].
    rewrite dark_mask_all by done.
    destruct (lab_lightness img); [done|]. done. }
  split; [done|]. split; [done|]. intros Hpix.
  apply select_masked_nonempty; [|done].
  rewrite Hlen, Hpix. unfold to_OD, zeros_to_one.
  rewrite !reshape3_fmap, !length_fmap. done.
Qed.

Lemma luminance_mask_nonempty_witness :
  mean_lightness [0; 120; 200; 30; 0; 90] ≠ [] ∧
  Forall (λ L, L < 255000) (mean_lightness [0; 120; 200; 30; 0; 90]) ∧
  any_true (luminance_mask mean_lightness [0; 120; 200; 30; 0; 90] (8 # 10)) = true.
Proof.
  assert (mean_lightness [0; 120; 200; 30; 0; 90] ≠ []) as Hne by done.
  assert (Forall (λ L, L < 255000) (mean_lightness [0; 120; 200; 30; 0; 90]))
    as Hall by (repeat constructor).
  split; [exact Hne|]. split; [exact Hall|].
  exact (proj1 (proj2 (luminance_mask_nonempty mean_lightness _ (8 # 10) Hne Hall))).
Defined.

(** The rescaled tile is a valid 8-bit array whatever the percentile: every
    entry lies between 0 and 255. *)
Theorem rescale_uint8 (tile : list Z) (p : Q) :
  Forall (λ x, 0 ≤ x ≤ 255) (rescale tile p).
Proof.
  unfold rescale. apply Forall_fmap, Forall_forall. intros x _. simpl.
  set (y := (inject_Z x * 255 / p)%Q).
  split.
  - change 0 with (Qfloor 0). apply Qfloor_resp_le, Q.le_max_l.
  - change 255 with (Qfloor 255). apply Qfloor_resp_le.
    apply Q.max_lub; [done|]. apply Q.le_min_l.
Qed.

Lemma zeros_to_one_positive (a : list Z) :
  Forall (λ x, 0 ≤ x ≤ 255) a → Forall (λ x, 1 ≤ x ≤ 255) (zeros_to_one a).
Proof.
  intros Ha. unfold zeros_to_one. apply Forall_fmap.
  eapply Forall_impl; [exact Ha|]. intros x Hx. simpl in Hx |- *.
  destruct (Z.eqb_spec x 0); lia.
Qed.

Lemma optical_density_range (x : Z) :
  1 ≤ x ≤ 255 → (0 <= optical_density x <= ln 255)%R.
Proof.
  intros Hx. unfold optical_density.
  assert (1 <= IZR x <= 255)%R as [Hy1 Hy2] by (split; apply IZR_le; lia).
  unfold Rdiv. rewrite ln_mult, ln_Rinv by lra.
  assert (0 <= ln (IZR x))%R as Hln0.
  { destruct (Req_dec_T (IZR x) 1) as [->|Hne]; [rewrite ln_1; lra|].
    rewrite <- ln_1. apply Rlt_le, ln_increasing; lra. }
  assert (ln (IZR x) <= ln 255)%R as Hln1.
  { destruct (Req_dec_T (IZR x) 255) as [->|Hne]; [lra|].
    apply Rlt_le, ln_increasing; lra. }
  lra.
Qed.

Lemma reshape3_Forall {A} (P : A → Prop) (a : list A) :
  Forall P a → Forall (λ v, P v.1.1 ∧ P v.1.2 ∧ P v.2) (reshape3 a).
Proof.
  remember (length a) as n eqn:Hn. revert a Hn.
  induction (lt_wf n) as [n _ IH]. intros a -> Ha.
  destruct a as [|x [|y [|z a]]]; try by constructor.
  simpl. inversion_clear Ha as [|? ? Hx Ha']. inversion_clear Ha' as [|? ? Hy Ha].
  inversion_clear Ha as [|? ? Hz Ha']. constructor; [done|].
  eapply IH; [|done|done]. simpl. lia.
Qed.

(** [_write_normalized_image] reaches the concentration fit for every tile
    and every percentile.  The array it leaves at [img2t] has one entry per
    entry of the tile, each between 1 and 255, so the logarithm is only taken
    of positive numbers and every optical density handed to [spams.lasso]
    lies between 0 and [ln 255]. *)
Theorem write_normalized_image_densities
    (lab_lightness : list Z → list Z) (trainDL : list rvec → Q → rvec * rvec)
    (lasso : list rvec → frow * frow → list (R * R))
    (percentile_90 : list Z → Q) (tile : list Z) (h : heap) :
  ∃ img2t pixels W h',
    _write_normalized_image lab_lightness trainDL lasso percentile_90 tile h
      = Some (img2t, to_OD pixels, lasso (to_OD pixels) W, h') ∧
    h !! img2t = None ∧
    h' !! img2t = Some pixels ∧
    length pixels = length tile ∧
    Forall (λ x, 1 ≤ x ≤ 255) pixels ∧
    Forall (λ v : rvec, (0 <= v.1.1 <= ln 255)%R ∧ (0 <= v.1.2 <= ln 255)%R ∧
                        (0 <= v.2 <= ln 255)%R) (to_OD pixels).
Proof.
  unfold _write_normalized_image, alloc, _stain_dict_Vahadane.
  set (p := if Qeq_bool (percentile_90 tile) 0 then 1%Q
            else percentile_90 tile).
  set (l := fresh (dom h)).
  repeat (rewrite ?insert_insert_eq, ?lookup_insert_eq; cbn [mbind option_bind]).
  rewrite ?insert_insert_eq, zeros_to_one_idemp.
  assert (Forall (λ x, 1 ≤ x ≤ 255) (zeros_to_one (rescale tile p))) as Hpos
    by apply zeros_to_one_positive, rescale_uint8.
  eexists l, (zeros_to_one (rescale tile p)), _, _.
  split; [reflexivity|].
  split; [apply (not_elem_of_dom (D := gset nat)), is_fresh|].
  split; [by rewrite lookup_insert_eq|].
  split; [unfold zeros_to_one, rescale; by rewrite !length_map|].
  split; [done|].
  unfold to_OD.
  apply (reshape3_Forall (λ d, (0 <= d <= ln 255)%R)), Forall_fmap.
  eapply Forall_impl; [exact Hpos|]. intros x Hx. by apply optical_density_range.
Qed.

End StainSample.

(** ** The label file and the label lookup *)

Module LabelFileFacts.
Import LabelFile.

Lemma setdefault_append_fn {V} (f g : string → list V) k (v : V) d :
  NoDup d.*1 →
  Forall (λ e, e.2 = f e.1) d →
  (k ∉ d.*1 → f k = []) →
  g k = f k ++ [v] →
  (∀ k', k' ≠ k → g k' = f k') →
  Forall (λ e, e.2 = g e.1) (setdefault_append k v d).
Proof.
  intros Hnd Hd Hnew Hk Hother.
  induction d as [|[k' vs] d IH]; simpl.
  - repeat constructor. simpl. rewrite Hk, Hnew; [done|]. apply not_elem_of_nil.
  - apply Forall_cons in Hd as [Hhd Hd]. simpl in Hhd.
    apply NoDup_cons in Hnd as [Hk' Hnd].
    destruct (decide (k = k')) as [->|Hne].
    + constructor; [simpl; by rewrite Hk, Hhd|].
      apply Forall_forall. intros e He. rewrite Forall_forall in Hd.
      rewrite Hother; [by apply Hd|]. intros Heq. apply Hk'. rewrite <- Heq.
      apply list_elem_of_fmap. by exists e.
    + constructor; [simpl; rewrite Hother; done|].
      apply IH; [done|done|]. intros Hnin. apply Hnew.
      intros [?|?]%elem_of_cons; done.
Qed.

Lemma get_sample_label_Some sample sample_labels label :
  get_sample_label sample sample_labels = Some label →
  ∃ samples, (label, samples) ∈ sample_labels ∧ sample ∈ samples.
Proof.
  induction sample_labels as [|[l ss] rest IH]; simpl; [done|].
  case_bool_decide as Hin.
  - intros [= <-]. exists ss. split; [by left|done].
  - intros (samples & Hmem & Hs)%IH. exists samples. split; [by right|done].
Qed.

Lemma get_sample_label_None sample sample_labels :
  get_sample_label sample sample_labels = None →
  ∀ label samples, (label, samples) ∈ sample_labels → sample ∉ samples.
Proof.
  induction sample_labels as [|[l ss] rest IH]; simpl.
  - intros _ label samples Hin. by apply elem_of_nil in Hin.
  - case_bool_decide as Hin; [done|]. intros Hrest label samples.
    intros [[= -> ->]|Hmem]%elem_of_cons; [done|]. by eapply IH.
Qed.

Section Facts.
Variable fields : string → option (string * string).
Context {V : Type}.
Variable labels_map : gmap string V.

Lemma samples_of_elem lines label sample :
  sample ∈ samples_of fields lines label ↔
  ∃ line, line ∈ lines ∧ fields line = Some (sample, label).
Proof.
  unfold samples_of. rewrite list_elem_of_omap. split.
  - intros (line & Hin & Hf). exists line. split; [done|].
    destruct (fields line) as [[s l]|]; [|done].
    destruct (decide (l = label)) as [->|]; [|done]. by injection Hf as ->.
  - intros (line & Hin & Hf). exists line. split; [done|].
    rewrite Hf. by rewrite decide_True.
Qed.

Lemma samples_of_snoc lines line label :
  samples_of fields (lines ++ [line]) label
  = samples_of fields lines label ++
    match fields line with
    | Some (sample, label') => if decide (label' = label) then [sample] else []
    | None => []
    end.
Proof.
  unfold samples_of. rewrite omap_app. f_equal. simpl.
  destruct (fields line) as [[s l]|]; [|done]. by destruct (decide (l = label)).
Qed.

(** The state of the loop after the lines read so far. *)
Lemma read_labels_inv lines sample_labels :
  read_labels fields labels_map lines = inr sample_labels →
  NoDup sample_labels.*1 ∧
  Forall (λ e, e.2 = samples_of fields lines e.1) sample_labels ∧
  Forall (λ e, e.2 ≠ [] ∧ is_Some (labels_map !! e.1)) sample_labels ∧
  (∀ label, label ∉ sample_labels.*1 → samples_of fields lines label = []) ∧
  Forall (λ line, ∃ sample label, fields line = Some (sample, label) ∧
                                  is_Some (labels_map !! label)) lines.
Proof.
  revert sample_labels. unfold read_labels.
  induction lines as [|line lines IH] using rev_ind; intros sample_labels.
  { simpl. intros [= <-]. repeat split; try constructor. }
  rewrite foldl_app. simpl.
  destruct (foldl _ (inr []) lines) as [e|d]; [done|].
  destruct (IH d eq_refl) as (Hnd & Hgroups & Hknown & Hmissing & Hlines).
  unfold read_line. destruct (fields line) as [[sample label]|] eqn:Hf; [|done].
  destruct (decide (is_Some (labels_map !! label))) as [Hlabel|]; [|done].
  intros [= <-].
  assert (∀ l, samples_of fields (lines ++ [line]) l
               = samples_of fields lines l ++
                 (if decide (label = l) then [sample] else [])) as Hsnoc
    by (intros l; by rewrite samples_of_snoc, Hf).
  split; [by apply setdefault_append_NoDup|]. split; [|split; [|split]].
  - apply (setdefault_append_fn (samples_of fields lines)
             (samples_of fields (lines ++ [line]))); [done|done|..].
    + apply Hmissing.
    + by rewrite Hsnoc, decide_True.
    + intros k' Hne. rewrite Hsnoc, decide_False by done. by rewrite app_nil_r.
  - apply (setdefault_append_groups
             (λ l ss, ss ≠ [] ∧ is_Some (labels_map !! l))); [done|..].
    + intros vs [_ ?]. split; [by destruct vs|done].
    + done.
  - intros l. rewrite setdefault_append_keys, Hsnoc.
    destruct (decide (label ∈ d.*1)) as [Hin|Hnin].
    + intros Hl. rewrite decide_False by (by intros ->).
      rewrite app_nil_r. by apply Hmissing.
    + intros Hl. rewrite not_elem_of_app in Hl. destruct Hl as [Hl Hne].
      rewrite decide_False by (intros ->; apply Hne; by left).
      rewrite app_nil_r. by apply Hmissing.
  - apply Forall_app. split; [done|]. repeat constructor. by exists sample, label.
Qed.

(** The label file read without error gives a dictionary with one entry per
    label that occurs in the file: the labels are distinct and all known to
    [labels_map], and the list of a label holds the samples of the lines
    with this label, in file order. *)
Theorem read_labels_groups lines sample_labels :
  read_labels fields labels_map lines = inr sample_labels →
  NoDup sample_labels.*1 ∧
  (∀ label, label ∈ sample_labels.*1 ↔
            ∃ line sample, line ∈ lines ∧ fields line = Some (sample, label)) ∧
  Forall (λ e, is_Some (labels_map !! e.1) ∧
               e.2 = samples_of fields lines e.1) sample_labels.
Proof.
  intros Hrun.
  destruct (read_labels_inv lines sample_labels Hrun)
    as (Hnd & Hgroups & Hknown & Hmissing & _).
  split; [done|]. split.
  - intros label. split.
    + intros ([l ss] & -> & Hin)%list_elem_of_fmap. simpl.
      rewrite Forall_forall in Hgroups, Hknown.
      specialize (Hgroups _ Hin). destruct (Hknown _ Hin) as [Hne _].
      simpl in *. destruct ss as [|s ss]; [done|].
      assert (s ∈ samples_of fields lines l) as Hs by (rewrite <- Hgroups; by left).
      apply samples_of_elem in Hs as (line & Hline & Hf). by exists line, s.
    + intros (line & sample & Hline & Hf).
      destruct (decide (label ∈ sample_labels.*1)) as [|Hnin]; [done|].
      assert (sample ∈ samples_of fields lines label) as Hs
        by (apply samples_of_elem; by exists line).
      rewrite (Hmissing label Hnin) in Hs. by apply elem_of_nil in Hs.
  - rewrite Forall_forall in Hgroups, Hknown. apply Forall_forall.
    intros e He. split; [by apply Hknown|by apply Hgroups].
Qed.

(** Looking a sample up in the dictionary read from the label file: the
    lookup raises exactly for the samples that no line names; otherwise the
    label it returns is one that some line gives the sample, and
    [labels_map] knows it, so [labels_map[sample_class]] in
    [get_labelled_tiles] cannot raise [KeyError]. *)
Theorem read_labels_lookup lines sample_labels sample :
  read_labels fields labels_map lines = inr sample_labels →
  match get_sample_label sample sample_labels with
  | Some label =>
      is_Some (labels_map !! label) ∧
      ∃ line, line ∈ lines ∧ fields line = Some (sample, label)
  | None => ∀ line label, line ∈ lines → fields line ≠ Some (sample, label)
  end.
Proof.
  intros Hrun.
  destruct (read_labels_inv lines sample_labels Hrun)
    as (Hnd & Hgroups & Hknown & Hmissing & _).
  rewrite Forall_forall in Hgroups, Hknown.
  destruct (get_sample_label sample sample_labels) as [label|] eqn:Hget.
  - apply get_sample_label_Some in Hget as (samples & Hmem & Hs).
    split; [exact (proj2 (Hknown _ Hmem))|].
    apply samples_of_elem. specialize (Hgroups _ Hmem). simpl in Hgroups.
    by rewrite <- Hgroups.
  - intros line label Hline Hf.
    assert (sample ∈ samples_of fields lines label) as Hs
      by (apply samples_of_elem; by exists line).
    destruct (decide (label ∈ sample_labels.*1)) as [Hin|Hnin].
    + apply list_elem_of_fmap in Hin as ([l ss] & -> & Hin).
      specialize (Hgroups _ Hin). simpl in *.
      eapply get_sample_label_None; [exact Hget|exact Hin|]. by rewrite Hgroups.
    + rewrite (Hmissing label Hnin) in Hs. by apply elem_of_nil in Hs.
Qed.

(** When no sample is named by two lines with different labels, the lookup
    returns the label of the file for every sample of the file. *)
Theorem read_labels_round_trip lines sample_labels line sample label :
  read_labels fields labels_map lines = inr sample_labels →
  (∀ line1 line2 label1 label2,
     line1 ∈ lines → line2 ∈ lines →
     fields line1 = Some (sample, label1) → fields line2 = Some (sample, label2) →
     label1 = label2) →
  line ∈ lines → fields line = Some (sample, label) →
  get_sample_label sample sample_labels = Some label.
Proof.
  intros Hrun Huniq Hline Hf.
  pose proof (read_labels_inv lines sample_labels Hrun)
    as (Hnd & Hgroups & Hknown & Hmissing & _).
  rewrite Forall_forall in Hgroups.
  destruct (get_sample_label sample sample_labels) as [label'|] eqn:Hget.
  - apply get_sample_label_Some in Hget as (samples & Hmem & Hs).
    specialize (Hgroups _ Hmem). simpl in Hgroups. rewrite Hgroups in Hs.
    apply samples_of_elem in Hs as (line' & Hline' & Hf').
    f_equal. by eapply (Huniq line' line).
  - exfalso.
    assert (sample ∈ samples_of fields lines label) as Hs
      by (apply samples_of_elem; by exists line).
    destruct (decide (label ∈ sample_labels.*1)) as [Hin|Hnin].
    + apply list_elem_of_fmap in Hin as ([l ss] & -> & Hin).
      specialize (Hgroups _ Hin). simpl in *.
      eapply get_sample_label_None; [exact Hget|exact Hin|]. by rewrite Hgroups.
    + rewrite (Hmissing label Hnin) in Hs. by apply elem_of_nil in Hs.
Qed.

(** The loop stops with an error exactly when some line has fewer than two
    fields or a label that [labels_map] does not know; the error is that of
    the first such line, and all lines before it are well formed. *)
Theorem read_labels_error lines :
  match read_labels fields labels_map lines with
  | inr _ =>
      Forall (λ line, ∃ sample label, fields line = Some (sample, label) ∧
                                      is_Some (labels_map !! label)) lines
  | inl e =>
      ∃ before line after,
        lines = before ++ line :: after ∧
        Forall (λ line, ∃ sample label, fields line = Some (sample, label) ∧
                                        is_Some (labels_map !! label)) before ∧
        match e with
        | ValueError => fields line = None
        | UnknownLabel sample label =>
            fields line = Some (sample, label) ∧ labels_map !! label = None
        end
  end.
Proof.
  induction lines as [|line lines IH] using rev_ind.
  { simpl. constructor. }
  destruct (read_labels fields labels_map (lines ++ [line])) as [e|d] eqn:Hrun.
  - unfold read_labels in Hrun, IH. rewrite foldl_app in Hrun. simpl in Hrun.
    destruct (foldl _ (inr []) lines) as [e'|d'] eqn:Hprev.
    + injection Hrun as <-.
      destruct IH as (before & bad & after & -> & Hbefore & Hbad).
      exists before, bad, (after ++ [line]).
      split; [by rewrite <- app_assoc|]. done.
    + exists lines, line, []. split; [done|]. split; [done|].
      unfold read_line in Hrun. destruct (fields line) as [[sample label]|].
      * destruct (decide (is_Some (labels_map !! label))) as [|Hno]; [done|].
        injection Hrun as <-. split; [done|].
        by apply eq_None_not_Some.
      * by injection Hrun as <-.
  - by destruct (read_labels_inv _ _ Hrun) as (_ & _ & _ & _ & ?).
Qed.

End Facts.

Lemma read_labels_lookup_witness :
  read_labels fields_of_clean_line sample_labels_map sample_lines
  = inr [("LMS", ["s1"; "s3"]); ("MFS", ["s2"])] ∧
  is_Some (sample_labels_map !! "LMS").
Proof.
  assert (read_labels fields_of_clean_line sample_labels_map sample_lines
          = inr [("LMS", ["s1"; "s3"]); ("MFS", ["s2"])]) as Hrun
    by (vm_compute; reflexivity).
  split; [exact Hrun|].
  exact (proj1 (read_labels_lookup fields_of_clean_line sample_labels_map
                  sample_lines _ "s3" Hrun)).
Defined.

Lemma read_labels_groups_witness :
  read_labels fields_of_clean_line sample_labels_map sample_lines
  = inr [("LMS", ["s1"; "s3"]); ("MFS", ["s2"])] ∧
  NoDup ["LMS"; "MFS"].
Proof.
  assert (read_labels fields_of_clean_line sample_labels_map sample_lines
          = inr [("LMS", ["s1"; "s3"]); ("MFS", ["s2"])]) as Hrun
    by (vm_compute; reflexivity).
  split; [exact Hrun|].
  exact (proj1 (read_labels_groups fields_of_clean_line sample_labels_map
                  sample_lines _ Hrun)).
Defined.

Lemma read_labels_round_trip_witness :
  get_sample_label "s3" [("LMS", ["s1"; "s3"]); ("MFS", ["s2"])] = Some "LMS".
Proof.
  assert (read_labels fields_of_clean_line sample_labels_map sample_lines
          = inr [("LMS", ["s1"; "s3"]); ("MFS", ["s2"])]) as Hrun
    by (vm_compute; reflexivity).
  apply (read_labels_round_trip fields_of_clean_line sample_labels_map
           sample_lines _ "s3 LMS" "s3" "LMS" Hrun).
  - intros line1 line2 label1 label2 H1 H2.
    unfold sample_lines in H1, H2.
    repeat (apply elem_of_cons in H1 as [->|H1]); [..|by apply elem_of_nil in H1];
    repeat (apply elem_of_cons in H2 as [->|H2]); try (by apply elem_of_nil in H2);
    vm_compute; congruence.
  - unfold sample_lines. rewrite !elem_of_cons. auto.
  - reflexivity.
Defined.

End LabelFileFacts.

(** ** Slide-level aggregation: shapes and constant labels *)

Module SlideLabels.
Import SlideAucRoc.

Lemma group_rows_elem {A} key slides (col : list A) (x : A) :
  x ∈ group_rows key slides col →
  ∃ i, slides !! i = Some key ∧ col !! i = Some x.
Proof.
  unfold group_rows. rewrite list_elem_of_fmap. intros ([s y] & -> & Hin).
  apply list_elem_of_filter in Hin as [Hkey Hin]. simpl in Hkey. subst s.
  apply list_elem_of_lookup in Hin as [i Hi]. exists i.
  by apply lookup_zip_Some in Hi.
Qed.

Lemma Qsum_column_const (rows : list (list Q)) (v : list Q) (j : nat) (y : Q) :
  Forall (λ r, r = v) rows → v !! j = Some y →
  (Qsum (column j rows) == inject_Z (Z.of_nat (length rows)) * y)%Q.
Proof.
  intros Hrows Hy. induction Hrows as [|r rows -> _ IH].
  - simpl. unfold Qsum. simpl. ring.
  - change (column j (v :: rows)) with (default 0%Q (v !! j) :: column j rows).
    unfold Qsum. simpl foldr. fold (Qsum (column j rows)).
    rewrite Hy, IH. simpl default. simpl length.
    rewrite Nat2Z.inj_succ. unfold Z.succ. rewrite inject_Z_plus. ring.
Qed.

Lemma stack_Some rows stacked :
  stack rows = Some stacked →
  stacked = rows ∧ rows ≠ [] ∧ ∃ c, Forall (λ r, length r = c) rows.
Proof.
  destruct rows as [|r rest]; [done|]. unfold stack.
  destruct (forallb _ rest) eqn:Hall; [|done]. intros [= <-].
  split; [done|]. split; [done|]. exists (length r). constructor; [done|].
  apply Forall_forall. intros r' Hin.
  rewrite forallb_forall in Hall. apply Nat.eqb_eq, Hall.
  by apply list_elem_of_In.
Qed.

(** Whenever [aggregate_to_slides] returns, there was at least one tile, the
    three inputs had one length, both results have one row per distinct
    slide-id, and the rows of a result have one length. *)
Theorem aggregate_to_slides_shape slides prediction actual P A :
  aggregate_to_slides slides prediction actual = Some (P, A) →
  slides ≠ [] ∧
  length prediction = length slides ∧ length actual = length slides ∧
  length P = length (group_keys slides) ∧
  length A = length (group_keys slides) ∧
  (∃ c, Forall (λ r, length r = c) P) ∧
  (∃ c', Forall (λ r, length r = c') A).
Proof.
  unfold aggregate_to_slides.
  destruct (length prediction =? length slides)%nat eqn:Hlp; [|done].
  destruct (length actual =? length slides)%nat eqn:Hla; [|done].
  apply Nat.eqb_eq in Hlp, Hla. simpl.
  destruct (mapM (λ key, vstack_mean (group_rows key slides prediction))
              (group_keys slides)) as [ps|] eqn:Hps; simpl; [|done].
  destruct (mapM (λ key, vstack_mean (group_rows key slides actual))
              (group_keys slides)) as [acts|] eqn:Hacts; simpl; [|done].
  destruct (stack ps) as [ps'|] eqn:Hsp; simpl; [|done].
  destruct (stack acts) as [acts'|] eqn:Hsa; simpl; [|done].
  intros [= <- <-].
  apply stack_Some in Hsp as (-> & Hpne & Hpc).
  apply stack_Some in Hsa as (-> & Hane & Hac).
  apply length_mapM in Hps, Hacts.
  split.
  { intros ->. destruct ps; [done|]. done. }
  repeat split; done.
Qed.

(** When every tile of a slide carries the label vector of its slide, the
    aggregated label row of each slide is that vector: averaging changes
    nothing, so [roc_auc_score] is given the slide labels themselves. *)
Theorem aggregate_constant_labels
    (slides : list string) (prediction actual : list (list Q)) (c c' : nat)
    (label_of : string → list Q) :
  slides ≠ [] →
  length prediction = length slides →
  length actual = length slides →
  Forall (λ r, length r = c) prediction →
  Forall (λ r, length r = c') actual →
  (∀ i s v, slides !! i = Some s → actual !! i = Some v → v = label_of s) →
  ∃ pred_aggregate actual_aggregate,
    aggregate_to_slides slides prediction actual
    = Some (pred_aggregate, actual_aggregate) ∧
    Forall2 (λ key m, Forall2 Qeq m (label_of key))
      (group_keys slides) actual_aggregate.
Proof.
  intros Hne Hlp Hla Hc Hc' Hlabel.
  destruct (SlideAucRocFacts.aggregate_column slides prediction c Hlp Hc)
    as (P & HP & HPall).
  destruct (SlideAucRocFacts.aggregate_column slides actual c' Hla Hc')
    as (A & HA & HAall).
  exists P, A. split.
  - unfold aggregate_to_slides.
    rewrite (proj2 (Nat.eqb_eq _ _) Hlp), (proj2 (Nat.eqb_eq _ _) Hla). simpl.
    rewrite HP, HA. simpl.
    assert (group_keys slides ≠ []) as Hkne.
    { destruct slides as [|s slides]; [done|]. intros Hnil.
      assert (s ∈ group_keys (s :: slides)) as Hin
        by (apply SlideAucRocFacts.group_keys_elem; by left).
      rewrite Hnil in Hin. by apply elem_of_nil in Hin. }
    assert (P ≠ []) as HPne.
    { intros ->. apply Forall2_nil_inv_r in HPall. done. }
    assert (A ≠ []) as HAne.
    { intros ->. apply Forall2_nil_inv_r in HAall. done. }
    rewrite (SlideAucRocFacts.stack_same_length P c),
      (SlideAucRocFacts.stack_same_length A c'); try done.
    + eapply Forall2_Forall_r; [exact HAall|].
      apply Forall_forall. by intros key _ m [? _].
    + eapply Forall2_Forall_r; [exact HPall|].
      apply Forall_forall. by intros key _ m [? _].
  - apply Forall2_same_length_lookup. split; [by eapply Forall2_length|].
    intros i key m Hkey Hm.
    destruct (Forall2_lookup_lr _ _ _ _ _ _ HAall Hkey Hm) as [Hml Hmean].
    assert (key ∈ slides) as Hin
      by (apply SlideAucRocFacts.group_keys_elem; by eapply list_elem_of_lookup_2).
    set (rows := group_rows key slides actual) in *.
    assert (Forall (λ r, r = label_of key) rows) as Hrows.
    { apply Forall_forall. intros r (k & Hk & Hr)%group_rows_elem.
      by eapply Hlabel. }
    assert (rows ≠ []) as Hrne
      by (by apply SlideAucRocFacts.group_rows_nonempty).
    assert (length (label_of key) = c') as Hll.
    { destruct rows as [|r rows'] eqn:Hr; [done|].
      assert (Forall (λ r, length r = c') (r :: rows')) as Hlen
        by (rewrite <- Hr; by apply SlideAucRocFacts.group_rows_Forall).
      apply Forall_cons in Hlen as [Hlen _]. apply Forall_cons in Hrows as [<- _].
      done. }
    apply Forall2_same_length_lookup. split; [congruence|].
    intros j x y Hx Hy. rewrite (Hmean j x Hx).
    rewrite (Qsum_column_const rows (label_of key) j y Hrows Hy).
    assert (¬ (inject_Z (Z.of_nat (length rows)) == 0)%Q) as Hn.
    { unfold Qeq. simpl. destruct rows; [done|]. simpl length. lia. }
    field. exact Hn.
Qed.

Lemma aggregate_constant_labels_witness :
  ∃ pred_aggregate actual_aggregate,
    aggregate_to_slides sample_slides sample_prediction sample_actual
    = Some (pred_aggregate, actual_aggregate) ∧
    Forall2 (λ key m, Forall2 Qeq m (if String.eqb key "s1" then [0; 1]%Q
                                     else [1; 0]%Q))
      (group_keys sample_slides) actual_aggregate.
Proof.
  apply (aggregate_constant_labels sample_slides sample_prediction sample_actual
           2 2 (λ key, if String.eqb key "s1" then [0; 1]%Q else [1; 0]%Q)).
  - done.
  - reflexivity.
  - reflexivity.
  - repeat constructor.
  - repeat constructor.
  - intros [|[|[|i]]] s v; simpl; intros [= <-] [= <-]; reflexivity.
Defined.

Lemma aggregate_to_slides_shape_witness :
  aggregate_to_slides sample_slides sample_prediction sample_actual
  = Some ([[1 # 4; 3 # 4]; [3 # 4; 1 # 4]], [[0; 1]; [2 # 2; 0 # 2]])%Q ∧
  length sample_prediction = length sample_slides.
Proof.
  assert (aggregate_to_slides sample_slides sample_prediction sample_actual
          = Some ([[1 # 4; 3 # 4]; [3 # 4; 1 # 4]], [[0; 1]; [2 # 2; 0 # 2]])%Q)
    as Hrun by (vm_compute; reflexivity).
  split; [exact Hrun|].
  exact (proj1 (proj2 (aggregate_to_slides_shape sample_slides sample_prediction
                         sample_actual _ _ Hrun))).
Defined.

End SlideLabels.

(** ** Tiling the slides of a split *)

Module LabelledTilesFacts.
Import LabelledTiles.

Section Dict.
Context {K A : Type} `{EqDecision K}.
Implicit Types (d : list (K * A)).

Lemma dict_set_keys k a d :
  (dict_set k a d).*1 = if decide (k ∈ d.*1) then d.*1 else d.*1 ++ [k].
Proof.
  induction d as [|[k' a'] d IH].
  - cbn. destruct (decide (k ∈ [])) as [Hin|_]; [by apply elem_of_nil in Hin|].
    reflexivity.
  - cbn. destruct (decide (k = k')) as [->|Hne]; cbn.
    + destruct (decide (k' ∈ k' :: d.*1)) as [_|Hin]; [reflexivity|].
      exfalso. apply Hin. by left.
    + rewrite IH.
      destruct (decide (k ∈ d.*1)) as [Hin|Hin],
        (decide (k ∈ k' :: d.*1)) as [Hin'|Hin']; try reflexivity.
      * exfalso. apply Hin'. by right.
      * exfalso. apply elem_of_cons in Hin' as [?|?]; done.
Qed.

Lemma dict_set_NoDup k a d : NoDup d.*1 → NoDup (dict_set k a d).*1.
Proof.
  intros Hnd. rewrite dict_set_keys. case_decide; [done|].
  apply NoDup_app. split; [done|]. split; [|apply NoDup_singleton].
  intros x Hx ->%list_elem_of_singleton. done.
Qed.

Lemma dict_get_set k k' a d :
  dict_get k' (dict_set k a d) = if decide (k' = k) then Some a else dict_get k' d.
Proof.
  induction d as [|[k0 a0] d IH]; simpl.
  - by destruct (decide (k' = k)).
  - destruct (decide (k = k0)) as [->|Hne]; simpl.
    + by destruct (decide (k' = k0)).
    + destruct (decide (k' = k0)) as [->|Hne'].
      * by rewrite decide_False by done.
      * done.
Qed.

Lemma dict_get_is_Some k d : is_Some (dict_get k d) ↔ k ∈ d.*1.
Proof.
  induction d as [|[k0 a0] d IH]; simpl.
  - split; [by intros [? ?]|]. intros Hin. by apply elem_of_nil in Hin.
  - destruct (decide (k = k0)) as [->|Hne].
    + split; [intros _; by left|by eexists].
    + rewrite IH, elem_of_cons. split; [by right|]. by intros [?|?].
Qed.

Lemma dict_get_elem k a d : dict_get k d = Some a → (k, a) ∈ d.
Proof.
  induction d as [|[k0 a0] d IH]; simpl; [done|].
  destruct (decide (k = k0)) as [->|Hne].
  - intros [= ->]. by left.
  - intros Hget. right. by apply IH.
Qed.

Lemma dict_elem_get k a d : NoDup d.*1 → (k, a) ∈ d → dict_get k d = Some a.
Proof.
  induction d as [|[k0 a0] d IH]; simpl.
  - intros _ Hin. by apply elem_of_nil in Hin.
  - intros [Hk0 Hnd]%NoDup_cons [[= -> ->]|Hin]%elem_of_cons.
    + by rewrite decide_True.
    + destruct (decide (k = k0)) as [->|Hne]; [|by apply IH].
      exfalso. apply Hk0. apply list_elem_of_fmap. by exists (k0, a).
Qed.

End Dict.

Lemma setdefault_extend_keys {B} k (vs : list B) d :
  (setdefault_extend k vs d).*1 = if decide (k ∈ d.*1) then d.*1 else d.*1 ++ [k].
Proof.
  induction d as [|[k' a'] d IH].
  - cbn. destruct (decide (k ∈ [])) as [Hin|_]; [by apply elem_of_nil in Hin|].
    reflexivity.
  - cbn. destruct (decide (k = k')) as [->|Hne]; cbn.
    + destruct (decide (k' ∈ k' :: d.*1)) as [_|Hin]; [reflexivity|].
      exfalso. apply Hin. by left.
    + rewrite IH.
      destruct (decide (k ∈ d.*1)) as [Hin|Hin],
        (decide (k ∈ k' :: d.*1)) as [Hin'|Hin']; try reflexivity.
      * exfalso. apply Hin'. by right.
      * exfalso. apply elem_of_cons in Hin' as [?|?]; done.
Qed.

Lemma setdefault_extend_NoDup {B} k (vs : list B) d :
  NoDup d.*1 → NoDup (setdefault_extend k vs d).*1.
Proof.
  intros Hnd. rewrite setdefault_extend_keys. case_decide; [done|].
  apply NoDup_app. split; [done|]. split; [|apply NoDup_singleton].
  intros x Hx ->%list_elem_of_singleton. done.
Qed.

Lemma setdefault_extend_elem {B} k (vs : list B) d name :
  name ∈ (setdefault_extend k vs d).*1 ↔ name ∈ d.*1 ∨ name = k.
Proof.
  rewrite setdefault_extend_keys. case_decide as Hin.
  - split; [by left|]. intros [?| ->]; done.
  - rewrite elem_of_app, list_elem_of_singleton. done.
Qed.

Lemma setdefault_extend_fn {B} (f g : string → list B) k (vs : list B) d :
  NoDup d.*1 →
  Forall (λ e, e.2 = f e.1) d →
  (k ∉ d.*1 → f k = []) →
  g k = f k ++ vs →
  (∀ k', k' ≠ k → g k' = f k') →
  Forall (λ e, e.2 = g e.1) (setdefault_extend k vs d).
Proof.
  intros Hnd Hd Hnew Hk Hother.
  induction d as [|[k' old] d IH]; simpl.
  - repeat constructor. simpl. rewrite Hk, Hnew; [done|]. apply not_elem_of_nil.
  - apply Forall_cons in Hd as [Hhd Hd]. simpl in Hhd.
    apply NoDup_cons in Hnd as [Hk' Hnd].
    destruct (decide (k = k')) as [->|Hne].
    + constructor; [simpl; by rewrite Hk, Hhd|].
      apply Forall_forall. intros e He. rewrite Forall_forall in Hd.
      rewrite Hother; [by apply Hd|]. intros Heq. apply Hk'. rewrite <- Heq.
      apply list_elem_of_fmap. by exists e.
    + constructor; [simpl; rewrite Hother; done|].
      apply IH; [done|done|]. intros Hnin. apply Hnew.
      intros [?|?]%elem_of_cons; done.
Qed.

Lemma drain_marked (paths : list string) (rest : list (option string)) :
  Forall (λ p, p ≠ EmptyString) paths →
  drain ((Some <$> paths) ++ None :: rest) = Some (paths, rest).
Proof.
  induction 1 as [|p paths Hp _ IH]; csimpl; [done|].
  rewrite decide_False by done. by rewrite IH.
Qed.

Section Facts.
Context {V : Type} `{EqDecision V}.
Variable basenameJPG : string → string.
Variable join : string → string → string → string.
Variable tile_slide : string → string → list (option string) * bool.

Lemma empty_tile_dict_spec (labels_map : list (string * V)) :
  NoDup (empty_tile_dict labels_map).*1 ∧
  (∀ v, v ∈ (empty_tile_dict labels_map).*1 ↔ v ∈ labels_map.*2) ∧
  Forall (λ e, e.2 = []) (empty_tile_dict labels_map).
Proof.
  unfold empty_tile_dict.
  induction labels_map as [|[l v0] labels_map IH] using rev_ind.
  { simpl. split; [constructor|]. split; [done|constructor]. }
  rewrite foldl_app. simpl. destruct IH as (Hnd & Hkeys & Hempty).
  set (d := foldl _ [] labels_map) in *.
  split; [by apply dict_set_NoDup|]. split.
  - intros v. rewrite dict_set_keys, fmap_app, elem_of_app. simpl.
    rewrite list_elem_of_singleton.
    destruct (decide (v0 ∈ d.*1)) as [Hin|Hnin].
    + rewrite Hkeys. split; [by left|]. intros [?| ->]; [done|]. by apply Hkeys.
    + rewrite elem_of_app, list_elem_of_singleton, Hkeys. done.
  - clear Hkeys Hnd. induction d as [|[k a] d' IH']; simpl.
    + by repeat constructor.
    + apply Forall_cons in Hempty as [Hhd Hempty].
      destruct (decide (v0 = k)); constructor; auto.
Qed.

Lemma dict_get_values (labels_map : list (string * V)) label v :
  dict_get label labels_map = Some v → v ∈ labels_map.*2.
Proof.
  intros Hget%dict_get_elem. apply list_elem_of_fmap. by exists (label, v).
Qed.

Lemma tiles_of_snoc paths_of sample_labels (labels_map : list (string * V))
    slide_list filename v name :
  tiles_of basenameJPG paths_of sample_labels labels_map (slide_list ++ [filename])
    v name
  = tiles_of basenameJPG paths_of sample_labels labels_map slide_list v name ++
    (if decide (class_of basenameJPG sample_labels labels_map filename = Some v ∧
                basenameJPG filename = name)
     then paths_of filename else []).
Proof.
  unfold tiles_of. rewrite filter_app, fmap_app, concat_app. f_equal.
  rewrite filter_cons, filter_nil.
  case_decide; simpl; by rewrite ?app_nil_r.
Qed.

Lemma tiles_of_none paths_of sample_labels (labels_map : list (string * V))
    slide_list v name :
  (∀ filename, filename ∈ slide_list →
     ¬ (class_of basenameJPG sample_labels labels_map filename = Some v ∧
        basenameJPG filename = name)) →
  tiles_of basenameJPG paths_of sample_labels labels_map slide_list v name = [].
Proof.
  intros Hno. unfold tiles_of.
  induction slide_list as [|f l IH]; [done|].
  rewrite filter_cons, decide_False by (apply Hno; by left).
  apply IH. intros f' Hin. apply Hno. by right.
Qed.

Abbreviation well := (well_tiled basenameJPG join tile_slide) (only parsing).
Abbreviation slides_run := (process_slides basenameJPG join tile_slide) (only parsing).
Abbreviation cls := (class_of basenameJPG) (only parsing).
Abbreviation tiles := (tiles_of basenameJPG) (only parsing).

Lemma process_slide_keys output_dir sample_labels (labels_map : list (string * V))
    st filename st' :
  process_slide basenameJPG join tile_slide output_dir sample_labels labels_map
    st filename = Returned st' →
  (tile_dict st').*1 = (tile_dict st).*1.
Proof.
  unfold process_slide.
  destruct (get_sample_label _ sample_labels) as [label|]; [|done].
  destruct (tile_slide _ _) as [puts [|]]; [by intros [= <-]|].
  destruct (worker_queue st ++ puts) as [|first after]; [done|].
  destruct (dict_get label labels_map) as [v|]; [|by intros [= <-]].
  destruct (dict_get v (tile_dict st)) as [slides|] eqn:Hv; [|by intros [= <-]].
  destruct (drain (first :: after)) as [[paths rest]|]; [|done].
  intros [= <-]. simpl. rewrite dict_set_keys, decide_True; [done|].
  apply dict_get_is_Some. by eexists.
Qed.

Lemma process_slides_keys output_dir sample_labels (labels_map : list (string * V))
    st slide_list st' :
  slides_run output_dir sample_labels labels_map st slide_list = Returned st' →
  (tile_dict st').*1 = (tile_dict st).*1.
Proof.
  revert st'. unfold process_slides.
  induction slide_list as [|f l IH] using rev_ind; intros st'.
  { simpl. by intros [= <-]. }
  rewrite foldl_app. simpl.
  destruct (foldl _ (Returned st) l) as [st1| |]; [|done..].
  intros Hstep%process_slide_keys. rewrite Hstep. by apply IH.
Qed.

(** Whatever the tiler does, a call that returns gives a dictionary whose
    keys are the values of [labels_map], each once, in the order in which
    the dictionary was created. *)
Theorem get_labelled_tiles_keys slide_list output_dir sample_labels
    (labels_map : list (string * V)) td :
  get_labelled_tiles basenameJPG join tile_slide slide_list output_dir
    sample_labels labels_map = Returned td →
  td.*1 = (empty_tile_dict labels_map).*1 ∧
  NoDup td.*1 ∧
  ∀ v, v ∈ td.*1 ↔ v ∈ labels_map.*2.
Proof.
  unfold get_labelled_tiles.
  destruct (process_slides _ _ _ _ _ _ _ _) as [st| |] eqn:Hrun; [|done..].
  intros [= <-]. apply process_slides_keys in Hrun. simpl in Hrun.
  destruct (empty_tile_dict_spec labels_map) as (Hnd & Hkeys & _).
  rewrite Hrun. done.
Qed.

Lemma class_of_well paths_of output_dir sample_labels
    (labels_map : list (string * V)) filename :
  well paths_of output_dir sample_labels labels_map filename →
  is_Some (cls sample_labels labels_map filename).
Proof.
  intros (label & Hget & Hv & _). unfold class_of. by rewrite Hget.
Qed.

(** The state of the loop after a list of well tiled slides. *)
Lemma process_slides_well paths_of output_dir sample_labels
    (labels_map : list (string * V)) slide_list :
  Forall (well paths_of output_dir sample_labels labels_map) slide_list →
  ∃ td,
    slides_run output_dir sample_labels labels_map
      (State (empty_tile_dict labels_map) []) slide_list
    = Returned (State td []) ∧
    NoDup td.*1 ∧
    td.*1 = (empty_tile_dict labels_map).*1 ∧
    ∀ v slides, dict_get v td = Some slides →
      NoDup slides.*1 ∧
      (∀ name, name ∈ slides.*1 ↔
               ∃ filename, filename ∈ slide_list ∧
                           cls sample_labels labels_map filename = Some v ∧
                           basenameJPG filename = name) ∧
      Forall (λ e, e.2 = tiles paths_of sample_labels labels_map slide_list v e.1)
        slides.
Proof.
  destruct (empty_tile_dict_spec labels_map) as (Hnd0 & Hkeys0 & Hempty0).
  induction slide_list as [|f l IH] using rev_ind; intros Hwell.
  { exists (empty_tile_dict labels_map). split; [done|]. split; [done|].
    split; [done|]. intros v slides Hget%dict_get_elem.
    rewrite Forall_forall in Hempty0. specialize (Hempty0 _ Hget). simpl in Hempty0.
    subst slides. split; [constructor|]. split; [|constructor].
    intros name. split.
    - intros Hin. by apply elem_of_nil in Hin.
    - intros (f & Hin & _). by apply elem_of_nil in Hin. }
  apply Forall_app in Hwell as [Hl Hf]. apply Forall_cons in Hf as [Hf _].
  destruct (IH Hl) as (td & Hrun & Hnd & Hkeys & Hinv). clear IH.
  destruct Hf as (label & Hlabel & [v0 Hv0] & Htile & Hpaths).
  assert (cls sample_labels labels_map f = Some v0) as Hclass
    by (unfold class_of; by rewrite Hlabel).
  assert (is_Some (dict_get v0 td)) as [slides0 Hslides0].
  { apply dict_get_is_Some. rewrite Hkeys. apply Hkeys0.
    by eapply dict_get_values. }
  destruct (Hinv v0 slides0 Hslides0) as (Hnds0 & Hnames0 & Hall0).
  set (base := basenameJPG f) in *.
  set (td' := dict_set v0 (setdefault_extend base (paths_of f) slides0) td).
  exists td'. split.
  { unfold process_slides in *. rewrite foldl_app, Hrun. simpl.
    unfold process_slide. fold base. rewrite Hlabel, Htile. simpl.
    destruct ((Some <$> paths_of f) ++ [None]) as [|first after] eqn:Hq.
    { by apply app_nil in Hq as [_ ?]. }
    rewrite Hv0, Hslides0, <- Hq, drain_marked by done. done. }
  split; [by apply dict_set_NoDup|]. split.
  { unfold td'. rewrite dict_set_keys, decide_True; [done|].
    apply dict_get_is_Some. by eexists. }
  intros v slides. unfold td'. rewrite dict_get_set.
  destruct (decide (v = v0)) as [->|Hne].
  - intros [= <-]. split; [by apply setdefault_extend_NoDup|]. split.
    + intros name. rewrite setdefault_extend_elem, Hnames0. split.
      * intros [(f' & Hin & Hc & Hb)| ->].
        -- exists f'. split; [apply elem_of_app; by left|done].
        -- exists f. split; [apply elem_of_app; right; by left|done].
      * intros (f' & [Hin| ->%list_elem_of_singleton]%elem_of_app & Hc & Hb).
        -- left. by exists f'.
        -- by right.
    + apply (setdefault_extend_fn
               (tiles paths_of sample_labels labels_map l v0)
               (tiles paths_of sample_labels labels_map (l ++ [f]) v0));
        [done|done|..].
      * intros Hnin. apply tiles_of_none. intros f' Hin [Hc Hb].
        apply Hnin, Hnames0. by exists f'.
      * by rewrite tiles_of_snoc, decide_True.
      * intros name Hname. rewrite tiles_of_snoc, decide_False, app_nil_r; [done|].
        intros [_ ?]. done.
  - intros Hget. destruct (Hinv v slides Hget) as (Hnds & Hnames & Hall).
    split; [done|]. split.
    + intros name. rewrite Hnames. split.
      * intros (f' & Hin & Hc & Hb). exists f'.
        split; [apply elem_of_app; by left|done].
      * intros (f' & [Hin| ->%list_elem_of_singleton]%elem_of_app & Hc & Hb).
        -- by exists f'.
        -- congruence.
    + eapply Forall_impl; [exact Hall|]. intros e ->.
      rewrite tiles_of_snoc, decide_False, app_nil_r; [done|].
      intros [? _]. congruence.
Qed.

(** When every slide is well tiled, the call returns; every value of
    [labels_map] is a key of the result, the slide names under a class are
    distinct and are the names of the slides of that class, and the list of
    a slide name holds the tile paths of the slides of that name and class,
    in list order. *)
Theorem get_labelled_tiles_well_tiled paths_of slide_list output_dir
    sample_labels (labels_map : list (string * V)) :
  Forall (well paths_of output_dir sample_labels labels_map) slide_list →
  ∃ td,
    get_labelled_tiles basenameJPG join tile_slide slide_list output_dir
      sample_labels labels_map = Returned td ∧
    NoDup td.*1 ∧
    (∀ v, v ∈ td.*1 ↔ v ∈ labels_map.*2) ∧
    ∀ v slides, (v, slides) ∈ td →
      NoDup slides.*1 ∧
      (∀ name, name ∈ slides.*1 ↔
               ∃ filename, filename ∈ slide_list ∧
                           cls sample_labels labels_map filename = Some v ∧
                           basenameJPG filename = name) ∧
      Forall (λ e, e.2 = tiles paths_of sample_labels labels_map slide_list v e.1)
        slides.
Proof.
  intros Hwell.
  destruct (process_slides_well paths_of output_dir sample_labels labels_map
              slide_list Hwell) as (td & Hrun & Hnd & Hkeys & Hinv).
  destruct (empty_tile_dict_spec labels_map) as (_ & Hkeys0 & _).
  exists td. unfold get_labelled_tiles. rewrite Hrun.
  split; [done|]. split; [done|]. split.
  - intros v. by rewrite Hkeys.
  - intros v slides Hin. apply Hinv. by apply dict_elem_get.
Qed.

Lemma process_slides_no_label output_dir sample_labels
    (labels_map : list (string * V)) sample slide_list :
  foldl
    (λ acc filename,
       match acc with
       | Returned st =>
           process_slide basenameJPG join tile_slide output_dir sample_labels
             labels_map st filename
       | NoLabel sample => NoLabel sample
       | Blocked => Blocked
       end)
    (NoLabel sample) slide_list = NoLabel sample.
Proof. induction slide_list as [|f l IH]; [done|]. simpl. exact IH. Qed.

(** A slide whose sample has no label is not skipped: after well tiled
    slides it ends the whole call with the error of [get_sample_label], and
    the slides after it are never tiled. *)
Theorem get_labelled_tiles_no_label paths_of before filename after output_dir
    sample_labels (labels_map : list (string * V)) :
  Forall (well paths_of output_dir sample_labels labels_map) before →
  get_sample_label (basenameJPG filename) sample_labels = None →
  get_labelled_tiles basenameJPG join tile_slide (before ++ filename :: after)
    output_dir sample_labels labels_map
  = NoLabel (basenameJPG filename).
Proof.
  intros Hwell Hnone.
  destruct (process_slides_well paths_of output_dir sample_labels labels_map
              before Hwell) as (td & Hrun & _).
  unfold get_labelled_tiles, process_slides in *.
  rewrite foldl_app, Hrun. simpl. unfold process_slide at 2. rewrite Hnone.
  by rewrite process_slides_no_label.
Qed.

(** Paths that a tiler put on the queue before it raised stay there: the
    failed slide gets no entry, and the paths are listed as tiles of the
    next slide that is tiled. *)
Theorem get_labelled_tiles_leftover paths_of failed next left label output_dir
    sample_labels (labels_map : list (string * V)) v :
  get_sample_label (basenameJPG failed) sample_labels = Some label →
  tile_slide failed (join output_dir label (basenameJPG failed))
  = (Some <$> left, true) →
  Forall (λ p, p ≠ EmptyString) left →
  well paths_of output_dir sample_labels labels_map next →
  cls sample_labels labels_map next = Some v →
  ∃ td,
    get_labelled_tiles basenameJPG join tile_slide [failed; next] output_dir
      sample_labels labels_map = Returned td ∧
    dict_get v td = Some [(basenameJPG next, left ++ paths_of next)] ∧
    ∀ v', v' ≠ v → v' ∈ labels_map.*2 → dict_get v' td = Some [].
Proof.
  intros Hlabel Hfail Hleft (label' & Hlabel' & [v0 Hv0] & Htile & Hpaths) Hclass.
  assert (v0 = v) as -> by (unfold class_of in Hclass; rewrite Hlabel' in Hclass;
                            congruence).
  destruct (empty_tile_dict_spec labels_map) as (Hnd0 & Hkeys0 & Hempty0).
  assert (∀ v', v' ∈ labels_map.*2 →
                dict_get v' (empty_tile_dict labels_map) = Some []) as Hinit.
  { intros v' Hin. apply Hkeys0, dict_get_is_Some in Hin as [slides Hs].
    rewrite Hs. apply dict_get_elem in Hs. rewrite Forall_forall in Hempty0.
    specialize (Hempty0 _ Hs). simpl in Hempty0. by subst. }
  set (d0 := empty_tile_dict labels_map) in *.
  assert (process_slide basenameJPG join tile_slide output_dir sample_labels
            labels_map (State d0 []) failed
          = Returned (State d0 (Some <$> left))) as Hstep1.
  { unfold process_slide. rewrite Hlabel, Hfail. done. }
  assert (process_slide basenameJPG join tile_slide output_dir sample_labels
            labels_map (State d0 (Some <$> left)) next
          = Returned
              (State (dict_set v (setdefault_extend (basenameJPG next)
                                    (left ++ paths_of next) []) d0) []))
    as Hstep2.
  { unfold process_slide. rewrite Hlabel', Htile. simpl.
    destruct ((Some <$> left) ++ (Some <$> paths_of next) ++ [None])
      as [|first after] eqn:Hq.
    { apply app_nil in Hq as [_ Hq]. by apply app_nil in Hq as [_ ?]. }
    rewrite Hv0, (Hinit v) by (by eapply dict_get_values).
    rewrite <- Hq, app_assoc, <- fmap_app, drain_marked
      by (apply Forall_app; done).
    done. }
  eexists. unfold get_labelled_tiles, process_slides. simpl.
  fold d0. rewrite Hstep1, Hstep2.
  split; [reflexivity|]. simpl. split.
  - rewrite dict_get_set, decide_True; done.
  - intros v' Hne Hin. rewrite dict_get_set, decide_False by done. by apply Hinit.
Qed.

End Facts.

Lemma sample_tiler_well filename :
  filename ∈ ["s1"; "s2"; "s3"] →
  well_tiled (λ f, f) LabelledTiles.sample_join sample_tiler
    (λ f, [sample_join "out" (if String.eqb f "s2" then "MFS" else "LMS") f
             +:+ "/0_0.jpeg";
           sample_join "out" (if String.eqb f "s2" then "MFS" else "LMS") f
             +:+ "/0_1.jpeg"])
    "out" LabelledTiles.sample_labels LabelledTiles.sample_labels_map filename.
Proof.
  rewrite !elem_of_cons.
  intros [->|[->|[->|Hin]]]; [..|by apply elem_of_nil in Hin].
  - exists "LMS". split; [reflexivity|]. split; [by eexists|].
    split; [reflexivity|]. repeat constructor; done.
  - exists "MFS". split; [reflexivity|]. split; [by eexists|].
    split; [reflexivity|]. repeat constructor; done.
  - exists "LMS". split; [reflexivity|]. split; [by eexists|].
    split; [reflexivity|]. repeat constructor; done.
Qed.

Lemma get_labelled_tiles_well_tiled_witness :
  ∃ td,
    get_labelled_tiles (λ f, f) sample_join sample_tiler ["s1"; "s2"; "s3"] "out"
      LabelledTiles.sample_labels LabelledTiles.sample_labels_map = Returned td ∧
    NoDup td.*1.
Proof.
  assert (Forall (well_tiled (λ f, f) sample_join sample_tiler
                    (λ f, [sample_join "out"
                             (if String.eqb f "s2" then "MFS" else "LMS") f
                             +:+ "/0_0.jpeg";
                           sample_join "out"
                             (if String.eqb f "s2" then "MFS" else "LMS") f
                             +:+ "/0_1.jpeg"])
                    "out" LabelledTiles.sample_labels
                    LabelledTiles.sample_labels_map) ["s1"; "s2"; "s3"]) as Hwell.
  { apply Forall_forall. intros f Hf. by apply sample_tiler_well. }
  destruct (get_labelled_tiles_well_tiled (λ f, f) sample_join sample_tiler _ _ _ _ _
              Hwell) as (td & Hrun & Hnd & _).
  exists td. split; [exact Hrun|exact Hnd].
Defined.

Lemma get_labelled_tiles_keys_witness :
  get_labelled_tiles (λ f, f) sample_join sample_tiler ["s1"; "s2"] "out"
    LabelledTiles.sample_labels LabelledTiles.sample_labels_map
  = Returned
      [(0, [("s1", ["out/LMS/s1/0_0.jpeg"; "out/LMS/s1/0_1.jpeg"])]);
       (1, [("s2", ["out/MFS/s2/0_0.jpeg"; "out/MFS/s2/0_1.jpeg"])])] ∧
  NoDup [0; 1].
Proof.
  assert (get_labelled_tiles (λ f, f) sample_join sample_tiler ["s1"; "s2"] "out"
            LabelledTiles.sample_labels LabelledTiles.sample_labels_map
          = Returned
              [(0, [("s1", ["out/LMS/s1/0_0.jpeg"; "out/LMS/s1/0_1.jpeg"])]);
               (1, [("s2", ["out/MFS/s2/0_0.jpeg"; "out/MFS/s2/0_1.jpeg"])])])
    as Hrun by (vm_compute; reflexivity).
  split; [exact Hrun|].
  exact (proj1 (proj2 (get_labelled_tiles_keys (λ f, f) sample_join sample_tiler
                         _ _ _ _ _ Hrun))).
Defined.

Lemma get_labelled_tiles_no_label_witness :
  get_labelled_tiles (λ f, f) sample_join sample_tiler ["s1"; "s9"; "s2"] "out"
    LabelledTiles.sample_labels LabelledTiles.sample_labels_map
  = NoLabel "s9".
Proof.
  apply (get_labelled_tiles_no_label (λ f, f) sample_join sample_tiler
           (λ f, [sample_join "out" (if String.eqb f "s2" then "MFS" else "LMS") f
                    +:+ "/0_0.jpeg";
                  sample_join "out" (if String.eqb f "s2" then "MFS" else "LMS") f
                    +:+ "/0_1.jpeg"])
           ["s1"] "s9" ["s2"]).
  - apply Forall_singleton, sample_tiler_well. by left.
  - reflexivity.
Defined.

Lemma get_labelled_tiles_leftover_witness :
  ∃ td,
    get_labelled_tiles (λ f, f) sample_join failing_tiler ["s1"; "s2"] "out"
      LabelledTiles.sample_labels LabelledTiles.sample_labels_map = Returned td ∧
    dict_get 1 td
    = Some [("s2", ["out/LMS/s1/0_0.jpeg"] ++
                   ["out/MFS/s2/0_0.jpeg"; "out/MFS/s2/0_1.jpeg"])].
Proof.
  destruct (get_labelled_tiles_leftover (λ f, f) sample_join failing_tiler
              (λ _, ["out/MFS/s2/0_0.jpeg"; "out/MFS/s2/0_1.jpeg"])
              "s1" "s2" ["out/LMS/s1/0_0.jpeg"] "LMS" "out"
              LabelledTiles.sample_labels LabelledTiles.sample_labels_map 1)
    as (td & Hrun & Hget & _).
  - reflexivity.
  - reflexivity.
  - repeat constructor; done.
  - exists "MFS". split; [reflexivity|]. split; [by eexists|].
    split; [reflexivity|]. repeat constructor; done.
  - reflexivity.
  - exists td. split; [exact Hrun|exact Hget].
Defined.

End LabelledTilesFacts.
